(** * go-cliapp: a shallow embedding of [cliapp.go] and its properties

    The development follows the layout of the Go source.  Part I embeds
    the program: the pieces of the Go runtime it calls ([strings], [utf8],
    [unicode], [strconv], [fmt]), the reflective data model ([reflect.Type],
    [reflect.Value]), and then every function of [cliapp.go] in source
    order.  Part II states and proves the properties.

    Conventions.
    - A Go [string] is a Rocq [string]: a sequence of bytes.
    - [len(..)], slice indices and loop counters that never go negative are
      [nat]; Go [int] values that may be negative (positional indices, the
      running maximum initialised to [-1]) are [Z].
    - A Go function returning [(T, error)] returns [result T].
    - Iteration over a Go map visits the entries in an unspecified order;
      every [range] over [a.cmds] takes a seed that selects the order, and
      every order can be selected (see [shuffle]). *)

From Stdlib Require Import ZArith Ascii String List Lia Bool.
From stdpp Require Import base tactics option numbers list strings gmap.

Local Open Scope Z_scope.
Set Warnings "-register-all".

(* ===================================================================== *)
(** * Part I.  The program                                               *)
(* ===================================================================== *)

(** ** The parts of the Go runtime that are tables or floating point

    [unicode.IsUpper] and [unicode.ToLower] are table lookups over all of
    Unicode, [strconv.ParseFloat] produces IEEE-754 doubles and
    [strconv.Quote] needs the printable-character tables.  They are taken as
    they are: every definition and theorem below holds for any such
    functions. *)

Inductive WordSize := W32 | W64.

Inductive NumErrKind :=
| ErrSyntax   (* strconv.ErrSyntax: "invalid syntax" *)
| ErrRange.   (* strconv.ErrRange:  "value out of range" *)

Class GoRuntime := {
  float64 : Type;
  float64_zero : float64;
  (* strconv.ParseFloat(s, 64): the value, or the kind of *NumError *)
  ParseFloat : string → float64 + NumErrKind;
  (* strconv.Quote *)
  Quote : string → string;
  (* unicode.IsUpper, unicode.ToLower on runes *)
  IsUpper : Z → bool;
  ToLower : Z → Z;
  (* strconv.IntSize: the width of int *)
  IntSize : WordSize
}.

Definition intBits `{GoRuntime} : Z :=
  match IntSize with W32 => 32 | W64 => 64 end.

(** [math.MaxInt]: the greatest [int] *)
Definition maxInt `{GoRuntime} : Z := 2 ^ (intBits - 1) - 1.

(** ** Bytes and strings *)

Definition byteZ (c : ascii) : Z := Z.of_N (N_of_ascii c).
Definition Zbyte (z : Z) : ascii := ascii_of_N (Z.to_N (z mod 256)).

Definition len (s : string) : nat := String.length s.

(** [strings.HasPrefix(s, prefix)] *)
Definition HasPrefix (s pre : string) : bool := String.prefix pre s.

(** [strings.Index(s, substr)]: index of the first instance, [None] for -1 *)
Definition Index (s substr : string) : option nat := String.index 0 substr s.

(** [s[:hi]] and [s[lo:]] for indices within the string *)
Definition slice_to (s : string) (hi : nat) : string := String.substring 0 hi s.
Definition slice_from (s : string) (lo : nat) : string :=
  String.substring lo (len s - lo) s.

Fixpoint spaces (n : nat) : string :=
  match n with O => "" | S k => String " " (spaces k) end.

(** ** [unicode/utf8]

    Go strings are byte sequences; [range] over a string and
    [strings.Fields] decode UTF-8, [strings.Builder.WriteRune] encodes. *)

Definition RuneError : Z := 65533.   (* U+FFFD *)
Definition MaxRune : Z := 1114111.   (* U+10FFFF *)

(** The [first] table of [utf8]: for a leading byte of a multi-byte
    sequence, the length of the sequence and the accepted range of the
    second byte; [None] for bytes that cannot lead (0x80-0xC1, 0xF5-0xFF). *)
Definition utf8_first (s0 : Z) : option (nat * Z * Z) :=
  if (194 <=? s0) && (s0 <=? 223) then Some (2%nat, 128, 191)
  else if s0 =? 224 then Some (3%nat, 160, 191)
  else if (225 <=? s0) && (s0 <=? 236) then Some (3%nat, 128, 191)
  else if s0 =? 237 then Some (3%nat, 128, 159)
  else if (238 <=? s0) && (s0 <=? 239) then Some (3%nat, 128, 191)
  else if s0 =? 240 then Some (4%nat, 144, 191)
  else if (241 <=? s0) && (s0 <=? 243) then Some (4%nat, 128, 191)
  else if s0 =? 244 then Some (4%nat, 128, 143)
  else None.

Definition is_cont (b : Z) : bool := (128 <=? b) && (b <=? 191).

(** [utf8.DecodeRuneInString]: the rune at the head of [s] and its width in
    bytes; an invalid or truncated encoding is [RuneError] of width 1. *)
Definition DecodeRuneInString (s : string) : Z * nat :=
  match s with
  | EmptyString => (RuneError, 0%nat)
  | String c0 rest =>
    let s0 := byteZ c0 in
    if s0 <? 128 then (s0, 1%nat)
    else match utf8_first s0 with
    | None => (RuneError, 1%nat)
    | Some (sz, lo, hi) =>
      match rest with
      | EmptyString => (RuneError, 1%nat)
      | String c1 rest1 =>
        let s1 := byteZ c1 in
        if (s1 <? lo) || (hi <? s1) then (RuneError, 1%nat)
        else if (sz <=? 2)%nat then
          (Z.lor (Z.shiftl (Z.land s0 31) 6) (Z.land s1 63), 2%nat)
        else match rest1 with
        | EmptyString => (RuneError, 1%nat)
        | String c2 rest2 =>
          let s2 := byteZ c2 in
          if negb (is_cont s2) then (RuneError, 1%nat)
          else if (sz <=? 3)%nat then
            (Z.lor (Z.lor (Z.shiftl (Z.land s0 15) 12)
                          (Z.shiftl (Z.land s1 63) 6))
                   (Z.land s2 63), 3%nat)
          else match rest2 with
          | EmptyString => (RuneError, 1%nat)
          | String c3 _ =>
            let s3 := byteZ c3 in
            if negb (is_cont s3) then (RuneError, 1%nat)
            else
              (Z.lor (Z.lor (Z.lor (Z.shiftl (Z.land s0 7) 18)
                                   (Z.shiftl (Z.land s1 63) 12))
                            (Z.shiftl (Z.land s2 63) 6))
                     (Z.land s3 63), 4%nat)
          end
        end
      end
    end
  end.

(** [for _, r := range s]: the runes of [s] in order, each with the bytes it
    was decoded from.  [skip] counts the bytes of the current rune that are
    still to be passed over. *)
Fixpoint range_runes_go (skip : nat) (s : string) : list (Z * string) :=
  match s with
  | EmptyString => []
  | String _ rest =>
    match skip with
    | S k => range_runes_go k rest
    | O =>
      let '(r, w) := DecodeRuneInString s in
      (r, slice_to s w) :: range_runes_go (w - 1) rest
    end
  end.

Definition range_runes (s : string) : list (Z * string) := range_runes_go 0 s.

(** [utf8.RuneCountInString] *)
Definition RuneCountInString (s : string) : nat := length (range_runes s).

(** [utf8.AppendRune] as used by [strings.Builder.WriteRune] *)
Definition EncodeRune (r : Z) : string :=
  let b z := String (Zbyte z) EmptyString in
  let enc3 r :=
    b (Z.lor 224 (Z.shiftr r 12)) +:+ b (Z.lor 128 (Z.land (Z.shiftr r 6) 63))
      +:+ b (Z.lor 128 (Z.land r 63)) in
  if (0 <=? r) && (r <=? 127) then b r
  else if (0 <=? r) && (r <=? 2047) then
    b (Z.lor 192 (Z.shiftr r 6)) +:+ b (Z.lor 128 (Z.land r 63))
  else if (r <? 0) || (MaxRune <? r) || ((55296 <=? r) && (r <=? 57343)) then
    enc3 RuneError
  else if r <=? 65535 then enc3 r
  else
    b (Z.lor 240 (Z.shiftr r 18)) +:+ b (Z.lor 128 (Z.land (Z.shiftr r 12) 63))
      +:+ b (Z.lor 128 (Z.land (Z.shiftr r 6) 63))
      +:+ b (Z.lor 128 (Z.land r 63)).

(** ** [unicode.IsSpace] and [strings.Fields] *)

Definition IsSpace (r : Z) : bool :=
  if (0 <=? r) && (r <=? 255) then
    ((9 <=? r) && (r <=? 13)) || (r =? 32) || (r =? 133) || (r =? 160)
  else
    (r =? 5760) || ((8192 <=? r) && (r <=? 8202)) || (r =? 8232) || (r =? 8233)
    || (r =? 8239) || (r =? 8287) || (r =? 12288).

(** [strings.FieldsFunc(s, unicode.IsSpace)] over the decoded runes: [cur]
    is the field being collected, [None] while between fields. *)
Fixpoint fields_go (cur : option string) (rs : list (Z * string)) : list string :=
  match rs with
  | [] => match cur with Some w => [w] | None => [] end
  | (r, bytes) :: rs' =>
    if IsSpace r then
      match cur with
      | Some w => w :: fields_go None rs'
      | None => fields_go None rs'
      end
    else
      fields_go (Some (match cur with Some w => w +:+ bytes | None => bytes end)) rs'
  end.

(** [strings.Fields]: split around runs of white space; no empty fields. *)
Definition Fields (s : string) : list string := fields_go None (range_runes s).

(** ** [strconv]

    The functions of the Go library the program calls, for base 10, after
    the library: [ParseUint] and [ParseInt] with their syntax and range
    errors, [Atoi], [ParseBool], and the formatting of integers and
    booleans. *)

Definition digit_of (c : ascii) : option Z :=
  let n := byteZ c in if (48 <=? n) && (n <=? 57) then Some (n - 48) else None.

Definition maxUint64 : Z := 2 ^ 64 - 1.

(** The digit loop of [strconv.ParseUint(s, 10, bitSize)].  Go returns the
    pair [(n, err)]; on overflow the value is [maxVal = 2^bitSize - 1] and
    the error is [ErrRange].  The accumulator is a uint64 and wraps. *)
Fixpoint parseUint_loop (bitSize : Z) (s : string) (n : Z) : Z * option NumErrKind :=
  match s with
  | EmptyString => (n, None)
  | String c rest =>
    match digit_of c with
    | None => (0, Some ErrSyntax)
    | Some d =>
      let maxVal := 2 ^ bitSize - 1 in
      if maxUint64 / 10 + 1 <=? n then (maxVal, Some ErrRange)
      else
        let n10 := n * 10 in
        let n1 := (n10 + d) mod 2 ^ 64 in
        if (n1 <? n10) || (maxVal <? n1) then (maxVal, Some ErrRange)
        else parseUint_loop bitSize rest n1
    end
  end.

Definition ParseUint10 (s : string) (bitSize : Z) : Z * option NumErrKind :=
  match s with
  | EmptyString => (0, Some ErrSyntax)
  | _ => parseUint_loop bitSize s 0
  end.

(** [strconv.ParseInt(s, 10, bitSize)] for bitSize 32 or 64 *)
Definition ParseInt10 (s : string) (bitSize : Z) : Z + NumErrKind :=
  match s with
  | EmptyString => inr ErrSyntax
  | String c rest =>
    let neg := if Ascii.eqb c "-" then true else false in
    let s' := if Ascii.eqb c "+" then rest else if neg then rest else s in
    let '(un, err) := ParseUint10 s' bitSize in
    match err with
    | Some ErrSyntax => inr ErrSyntax
    | _ =>
      let cutoff := 2 ^ (bitSize - 1) in
      if negb neg && (cutoff <=? un) then inr ErrRange
      else if neg && (cutoff <? un) then inr ErrRange
      else inl (if neg then - un else un)
    end
  end.

(** [strconv.Atoi]: [ParseInt(s, 10, 0)], the result as an [int].  (The
    fast path of the library for short strings computes the same result.) *)
Definition Atoi `{GoRuntime} (s : string) : Z + NumErrKind := ParseInt10 s intBits.

(** [strconv.ParseBool] *)
Definition ParseBool (s : string) : bool + NumErrKind :=
  if decide (s ∈ ["1"; "t"; "T"; "TRUE"; "true"; "True"]) then inl true
  else if decide (s ∈ ["0"; "f"; "F"; "FALSE"; "false"; "False"]) then inl false
  else inr ErrSyntax.

(** [strconv.FormatBool] *)
Definition FormatBool (b : bool) : string := if b then "true" else "false".

(** The digit loop of [strconv.FormatInt(_, 10)] ([formatBits]): digits are
    produced from the least significant one.  A uint64 has at most 20
    decimal digits, so 20 rounds always suffice. *)
Fixpoint formatBits (rounds : nat) (u : Z) (acc : string) : string :=
  match rounds with
  | O => acc
  | S k =>
    let acc' := String (Zbyte (48 + u mod 10)) acc in
    if u <? 10 then acc' else formatBits k (u / 10) acc'
  end.

(** [strconv.Itoa] / [strconv.FormatInt(v, 10)]; also [%d] of [fmt]. *)
Definition Itoa (v : Z) : string :=
  if v <? 0 then String "-" (formatBits 20 (- v) "") else formatBits 20 v "".

(** ** [reflect]: types and values

    [reflect.Type] as far as the program inspects it: the five predeclared
    types it binds ([string], [int], [int64], [float64], [bool]), pointers,
    structs with their fields and tags, defined types whose underlying type
    is one of the five ([TNamed]: [type MyInt int], [time.Duration]), and
    every other kind ([TOther]).  The name of a struct type, of a defined
    type and of a type of another kind is what [t.String()] prints, as in
    [main.Level] or [[]string].  A struct tag is kept as the list of its [key:"value"] pairs in order;
    [Lookup] returns the first pair with the key.  A field is exported when
    its name begins with an upper-case letter: [reflect] lets the program
    set exported fields only. *)

Record StructField (T : Type) := mkField {
  Name : string;
  FType : T;
  Tag : list (string * string)
}.
Arguments mkField {T} _ _ _.
Arguments Name {T} _.
Arguments FType {T} _.
Arguments Tag {T} _.

(** The underlying type of a defined type of one of the five kinds. *)
Inductive basic := BString | BInt | BInt64 | BFloat64 | BBool.

Inductive type :=
| TString | TInt | TInt64 | TFloat64 | TBool
| TPtr (elem : type)
| TStruct (name : string) (fields : list (StructField type))
| TOther (name : string)
| TNamed (name : string) (under : basic).

(** The predeclared type that is the underlying type *)
Definition basicType (b : basic) : type :=
  match b with
  | BString => TString | BInt => TInt | BInt64 => TInt64
  | BFloat64 => TFloat64 | BBool => TBool
  end.

Inductive Kind :=
| KString | KInt | KInt64 | KFloat64 | KBool | KPtr | KStruct | KOther.

Definition kind (t : type) : Kind :=
  match t with
  | TString | TNamed _ BString => KString
  | TInt | TNamed _ BInt => KInt
  | TInt64 | TNamed _ BInt64 => KInt64
  | TFloat64 | TNamed _ BFloat64 => KFloat64
  | TBool | TNamed _ BBool => KBool
  | TPtr _ => KPtr | TStruct _ _ => KStruct | TOther _ => KOther
  end.

Global Instance Kind_eq_dec : EqDecision Kind.
Proof. solve_decision. Defined.

(** [t.String()] *)
Fixpoint TypeString (t : type) : string :=
  match t with
  | TString => "string" | TInt => "int" | TInt64 => "int64"
  | TFloat64 => "float64" | TBool => "bool"
  | TPtr e => "*" +:+ TypeString e
  | TStruct n _ => n
  | TOther n => n
  | TNamed n _ => n
  end.

(** [tag.Lookup(key)] *)
Fixpoint Lookup (tag : list (string * string)) (key : string) : option string :=
  match tag with
  | [] => None
  | (k, v) :: tag' => if decide (k = key) then Some v else Lookup tag' key
  end.

(** [reflect.Value].  [VInvalid] is the zero [reflect.Value{}]; [VString]
    to [VBool] are values of the predeclared types; [VNamed n v] is the
    value [v] in the defined type [n]; [VNil] a nil pointer; [VPtr v] a
    pointer to a fresh variable holding [v]; [VZero t] the zero value of a
    type of another kind. *)
Inductive value `{GoRuntime} :=
| VInvalid
| VString (s : string)
| VInt (n : Z)
| VInt64 (n : Z)
| VFloat64 (f : float64)
| VBool (b : bool)
| VNil
| VPtr (v : value)
| VStruct (fs : list value)
| VZero (t : type)
| VNamed (name : string) (v : value).

(** [reflect.New(t).Elem()]: the zero value of [t] *)
Fixpoint zero `{GoRuntime} (t : type) : value :=
  match t with
  | TString => VString ""
  | TInt => VInt 0
  | TInt64 => VInt64 0
  | TFloat64 => VFloat64 float64_zero
  | TBool => VBool false
  | TPtr _ => VNil
  | TStruct _ fs => VStruct (map (λ f, zero (FType f)) fs)
  | TOther _ => VZero t
  | TNamed n b =>
    VNamed n match b with
             | BString => VString ""
             | BInt => VInt 0
             | BInt64 => VInt64 0
             | BFloat64 => VFloat64 float64_zero
             | BBool => VBool false
             end
  end.

(** [f.IsExported()]: the name of the field begins with an upper-case
    letter *)
Definition exported `{GoRuntime} (f : StructField type) : bool :=
  IsUpper (DecodeRuneInString (Name f)).1.

(** [v.Type().String()] of a value, for the text of a panic; a struct or
    pointer value does not carry the name of its type here. *)
Fixpoint typeName `{GoRuntime} (v : value) : string :=
  match v with
  | VInvalid => "<invalid reflect.Value>"
  | VString _ => "string"
  | VInt _ => "int"
  | VInt64 _ => "int64"
  | VFloat64 _ => "float64"
  | VBool _ => "bool"
  | VNil => "*"
  | VPtr v' => "*" +:+ typeName v'
  | VStruct _ => "struct"
  | VZero t => TypeString t
  | VNamed n _ => n
  end.

(** The value is of the type: what [reflect] checks before it assigns the
    value to a variable or passes it to a parameter of this type.  (The
    values the program makes are of identical type or not assignable.) *)
Fixpoint hasTypeb `{GoRuntime} (v : value) (t : type) {struct v} : bool :=
  match v, t with
  | VString _, TString => true
  | VInt _, TInt => true
  | VInt64 _, TInt64 => true
  | VFloat64 _, TFloat64 => true
  | VBool _, TBool => true
  | VNil, TPtr _ => true
  | VPtr v', TPtr e => hasTypeb v' e
  | VStruct fs, TStruct _ st =>
    (fix fields (fs : list value) (st : list (StructField type)) : bool :=
       match fs, st with
       | [], [] => true
       | v' :: fs', f :: st' => hasTypeb v' (FType f) && fields fs' st'
       | _, _ => false
       end) fs st
  | VZero (TOther n'), TOther n => bool_decide (n' = n)
  | VNamed n' v', TNamed n b => bool_decide (n' = n) && hasTypeb v' (basicType b)
  | _, _ => false
  end.

(** ** Errors

    One constructor per place where the program makes an error; the comment
    gives the format string.  [%w] keeps the wrapped error. *)
Inductive error :=
| ENum (fn num : string) (k : NumErrKind)
    (* *strconv.NumError, returned by parseValue unchanged *)
| EUnsupportedType (t : string)
    (* "unsupported parameter type: " + targetType.String() *)
| ENotStruct
    (* "parseStructArgs: t must be struct" *)
| ENotEnoughPositional (p : Z)
    (* "not enough positional args for struct: need position %d" *)
| EPositional (p : Z) (err : error)
    (* "failed to parse positional arg at position %d: %w" *)
| EOptionValue (name : string) (err : error)
    (* "failed to parse value for option %s: %w" *)
| EMissingValue (name : string)
    (* "missing value for %s" *)
| EUnknownOption (tok : string)
    (* "unknown option: %s" *)
| EUnknownCommand (first : string)
    (* "unknown command: %s" *)
| EStructArg (i : nat) (name : string) (err : error)
    (* "failed to parse struct arg %d for %s: %w" *)
| ENotEnoughArgs (name : string) (want got : nat)
    (* "not enough arguments for %s: want %d, got %d" *)
| EArg (i : nat) (name : string) (err : error)
    (* "failed to parse arg %d for %s: %w" *)
| EWrongNumber (name : string) (want got : nat)
    (* "wrong number of arguments for %s: want %d, got %d" *)
| EUser (msg : string).
    (* an error value made outside the package, e.g. by a handler *)

(** [err.Error()] *)
Fixpoint Error `{GoRuntime} (e : error) : string :=
  match e with
  | ENum fn num k =>
    "strconv." +:+ fn +:+ ": parsing " +:+ Quote num +:+ ": " +:+
    match k with ErrSyntax => "invalid syntax" | ErrRange => "value out of range" end
  | EUnsupportedType t => "unsupported parameter type: " +:+ t
  | ENotStruct => "parseStructArgs: t must be struct"
  | ENotEnoughPositional p =>
    "not enough positional args for struct: need position " +:+ Itoa p
  | EPositional p err =>
    "failed to parse positional arg at position " +:+ Itoa p +:+ ": " +:+ Error err
  | EOptionValue name err =>
    "failed to parse value for option " +:+ name +:+ ": " +:+ Error err
  | EMissingValue name => "missing value for " +:+ name
  | EUnknownOption tok => "unknown option: " +:+ tok
  | EUnknownCommand first => "unknown command: " +:+ first
  | EStructArg i name err =>
    "failed to parse struct arg " +:+ Itoa (Z.of_nat i) +:+ " for " +:+ name
      +:+ ": " +:+ Error err
  | ENotEnoughArgs name want got =>
    "not enough arguments for " +:+ name +:+ ": want " +:+ Itoa (Z.of_nat want)
      +:+ ", got " +:+ Itoa (Z.of_nat got)
  | EArg i name err =>
    "failed to parse arg " +:+ Itoa (Z.of_nat i) +:+ " for " +:+ name
      +:+ ": " +:+ Error err
  | EWrongNumber name want got =>
    "wrong number of arguments for " +:+ name +:+ ": want "
      +:+ Itoa (Z.of_nat want) +:+ ", got " +:+ Itoa (Z.of_nat got)
  | EUser msg => msg
  end.

(** The error taxonomy of the specification (section 7).  A wrapping error
    belongs to the class of the error it wraps. *)
Inductive ErrClass :=
| UnsupportedType | MalformedValue | UnknownCommand | InsufficientArgs
| ArgCountMismatch | MissingOptionValue | UnknownOption | OtherError.

Fixpoint errClass (e : error) : ErrClass :=
  match e with
  | ENum _ _ _ => MalformedValue
  | EUnsupportedType _ => UnsupportedType
  | ENotStruct => OtherError
  | ENotEnoughPositional _ => InsufficientArgs
  | EPositional _ err => errClass err
  | EOptionValue _ err => errClass err
  | EMissingValue _ => MissingOptionValue
  | EUnknownOption _ => UnknownOption
  | EUnknownCommand _ => UnknownCommand
  | EStructArg _ _ err => errClass err
  | ENotEnoughArgs _ _ _ => InsufficientArgs
  | EArg _ _ err => errClass err
  | EWrongNumber _ _ _ => ArgCountMismatch
  | EUser _ => OtherError
  end.

(** What a Go function of result type [(T, error)] does: return a value,
    return an error, or panic. *)
Inductive result (A : Type) :=
| Ok (x : A)
| Err (e : error)
| Panicked (msg : string).
Arguments Ok {A} _.
Arguments Err {A} _.
Arguments Panicked {A} _.

Definition numResult {A B} (fn s : string) (mk : A → B) (r : A + NumErrKind) : result B :=
  match r with
  | inl v => Ok (mk v)
  | inr k => Err (ENum fn s k)
  end.

(** ** [cliapp.go]: type coercion *)

(** [parseValue]: parse a string to the given target type *)
Definition parseValue `{GoRuntime} (s : string) (targetType : type) : result value :=
  match kind targetType with
  | KString => Ok (VString s)
  | KInt => numResult "Atoi" s VInt (Atoi s)
  | KInt64 => numResult "ParseInt" s VInt64 (ParseInt10 s 64)
  | KFloat64 => numResult "ParseFloat" s VFloat64 (ParseFloat s)
  | KBool => numResult "ParseBool" s VBool (ParseBool s)
  | _ => Err (EUnsupportedType (TypeString targetType))
  end.

(** A struct value under construction is the list of its field values;
    [sv.Field(fi)] is the pair of [sv] and [fi], its type is read from the
    struct type.  [reflect] panics when the index is out of range. *)
Definition fieldType (st : list (StructField type)) (fi : nat) : result type :=
  match st !! fi with
  | Some f => Ok (FType f)
  | None => Panicked "reflect: Field index out of range"
  end.

(** [sv.Field(fi).CanSet()]: [sv] is addressable, so the field can be set
    when it is exported. *)
Definition settable `{GoRuntime} (st : list (StructField type)) (fi : nat) : bool :=
  match st !! fi with
  | Some f => exported f
  | None => false
  end.

(** [dst.Set(x)] for a variable [dst] of type [t]: the value the variable
    holds afterwards.  [reflect] panics when [dst] was reached through an
    unexported field, and when [x] is not assignable to [t]. *)
Definition reflect_Set `{GoRuntime} (canSet : bool) (t : type) (x : value) : result value :=
  if negb canSet then
    Panicked "reflect: reflect.Value.Set using value obtained using unexported field"
  else if hasTypeb x t then Ok x
  else Panicked ("reflect.Set: value of type " +:+ typeName x
                   +:+ " is not assignable to type " +:+ TypeString t).

(** [dst.SetBool(b)] for a variable [dst] of type [t] of kind [Bool]; the
    value keeps the type of the variable. *)
Definition reflect_SetBool `{GoRuntime} (canSet : bool) (t : type) (b : bool) : result value :=
  if negb canSet then
    Panicked "reflect: reflect.Value.SetBool using value obtained using unexported field"
  else
    match t with
    | TNamed n _ => Ok (VNamed n (VBool b))
    | _ => Ok (VBool b)
    end.

(** [parseAndSetField(sv.Field(fi), val)]: parse [val] and set the field,
    through a fresh pointer when the field has pointer type.  The result is
    the struct after the assignment. *)
Definition parseAndSetField `{GoRuntime} (st : list (StructField type))
    (sv : list value) (fi : nat) (val : string) : result (list value) :=
  match fieldType st fi with
  | Panicked m => Panicked m
  | Err e => Err e
  | Ok ft =>
    match ft with
    | TPtr elemType =>
      (* handle pointer types *)
      match parseValue val elemType with
      | Ok parsedValue =>
        (* ptr := reflect.New(elemType); ptr.Elem().Set(parsedValue) *)
        match reflect_Set true elemType parsedValue with
        | Ok pointee =>
          (* field.Set(ptr) *)
          match reflect_Set (settable st fi) ft (VPtr pointee) with
          | Ok ptr => Ok (<[fi := ptr]> sv)
          | Err e => Err e
          | Panicked m => Panicked m
          end
        | Err e => Err e
        | Panicked m => Panicked m
        end
      | Err e => Err e
      | Panicked m => Panicked m
      end
    | _ =>
      (* handle direct types *)
      match parseValue val ft with
      | Ok parsedValue =>
        (* field.Set(parsedValue) *)
        match reflect_Set (settable st fi) ft parsedValue with
        | Ok x => Ok (<[fi := x]> sv)
        | Err e => Err e
        | Panicked m => Panicked m
        end
      | Err e => Err e
      | Panicked m => Panicked m
      end
    end
  end.

(** [setBoolField(sv.Field(fi))]: set a bool or *bool field to true *)
Definition setBoolField `{GoRuntime} (st : list (StructField type))
    (sv : list value) (fi : nat) : result (list value) :=
  match fieldType st fi with
  | Panicked m => Panicked m
  | Err e => Err e
  | Ok ft =>
    if bool_decide (kind ft = KBool) then
      (* field.SetBool(true) *)
      match reflect_SetBool (settable st fi) ft true with
      | Ok x => Ok (<[fi := x]> sv)
      | Err e => Err e
      | Panicked m => Panicked m
      end
    else
      match ft with
      | TPtr e =>
        if bool_decide (kind e = KBool) then
          (* ptr := reflect.New(e); ptr.Elem().SetBool(true) *)
          match reflect_SetBool true e true with
          | Ok pointee =>
            (* field.Set(ptr) *)
            match reflect_Set (settable st fi) ft (VPtr pointee) with
            | Ok ptr => Ok (<[fi := ptr]> sv)
            | Err e => Err e
            | Panicked m => Panicked m
            end
          | Err e => Err e
          | Panicked m => Panicked m
          end
        else Ok sv
      | _ => Ok sv
      end
  end.

(** [isBoolField] *)
Definition isBoolField (ft : type) : bool :=
  bool_decide (kind ft = KBool)
  || match ft with
     | TPtr e => bool_decide (kind e = KBool)
     | _ => false
     end.

(** ** [cliapp.go]: names *)

(** The loop shared by [toWords] and [toKebab]: [i] is the byte offset of
    the rune, [sep] the byte written before an upper-case rune that is not
    the first. *)
Fixpoint splitUpper `{GoRuntime} (sep : ascii) (i : nat) (rs : list (Z * string)) : string :=
  match rs with
  | [] => ""
  | (r, bytes) :: rs' =>
    (if IsUpper r then
       (if (0 <? i)%nat then String sep "" else "") +:+ EncodeRune (ToLower r)
     else EncodeRune r)
    +:+ splitUpper sep (i + len bytes) rs'
  end.

(** [toWords]: FilePath -> file path *)
Definition toWords `{GoRuntime} (s : string) : string := splitUpper " " 0 (range_runes s).

(** [toKebab]: OutDir -> out-dir *)
Definition toKebab `{GoRuntime} (s : string) : string := splitUpper "-" 0 (range_runes s).

(** ** [cliapp.go]: field metadata *)

Record FieldMaps := mkMaps {
  posFields : gmap Z nat;       (* position -> field index in struct *)
  longMap : gmap string nat;
  shortMap : gmap string nat
}.

(** One round of the loop of [buildFieldMaps], for field [f] of index [i]. *)
Definition buildFieldStep `{GoRuntime} (m : FieldMaps) (i : nat)
    (f : StructField type) : FieldMaps :=
  let tag := Tag f in
  let m1 :=
    match Lookup tag "arg" with
    | Some v =>
      (* parse integer for positional args *)
      match Atoi v with
      | inl n => mkMaps (<[n := i]> (posFields m)) (longMap m) (shortMap m)
      | inr _ => m
      end
    | None =>
      (* no arg tag => named option with kebab-case long name *)
      let longName :=
        match Lookup tag "long" with
        | Some v => v
        | None => "--" +:+ toKebab (Name f)
        end in
      let long1 := <[longName := i]> (longMap m) in
      let short1 :=
        match Lookup tag "short" with
        | Some v => <[v := i]> (shortMap m)
        | None => shortMap m
        end in
      mkMaps (posFields m) long1 short1
    end in
  (* if arg tag existed, still allow explicit long/short mapping *)
  let long2 :=
    match Lookup tag "long" with
    | Some v => <[v := i]> (longMap m1)
    | None => longMap m1
    end in
  let short2 :=
    match Lookup tag "short" with
    | Some v => <[v := i]> (shortMap m1)
    | None => shortMap m1
    end in
  mkMaps (posFields m1) long2 short2.

Fixpoint buildFieldLoop `{GoRuntime} (fs : list (StructField type)) (i : nat)
    (m : FieldMaps) : FieldMaps :=
  match fs with
  | [] => m
  | f :: fs' => buildFieldLoop fs' (S i) (buildFieldStep m i f)
  end.

(** [buildFieldMaps]: lookup maps for struct fields based on their tags *)
Definition buildFieldMaps `{GoRuntime} (st : list (StructField type)) : FieldMaps :=
  buildFieldLoop st 0 (mkMaps ∅ ∅ ∅).

(** ** [cliapp.go]: the struct binder *)

(** [max := -1; for k := range posFields { if k > max { max = k } }].  The
    result does not depend on the order of the iteration. *)
Definition maxPosition (pos : gmap Z nat) : Z :=
  foldr (λ kv max, if max <? kv.1 then kv.1 else max) (-1) (map_to_list pos).

(** The positional loop of [parseStructArgs], [for p := 0; p <= max; p++],
    over the positions [ps] still to visit. *)
Fixpoint positionalLoop `{GoRuntime} (st : list (StructField type))
    (pos : gmap Z nat) (raw : list string) (ps : list Z)
    (sv : list value) (consumed : nat) : result (list value * nat) :=
  match ps with
  | [] => Ok (sv, consumed)
  | p :: ps' =>
    match pos !! p with
    | None => (* skip *) positionalLoop st pos raw ps' sv consumed
    | Some fi =>
      match raw !! consumed with
      | None => Err (ENotEnoughPositional p)
      | Some tok =>
        match parseAndSetField st sv fi tok with
        | Err e => Err (EPositional p e)
        | Panicked m => Panicked m
        | Ok sv' => positionalLoop st pos raw ps' sv' (S consumed)
        end
      end
    end
  end.

(** The option loop of [parseStructArgs], [for i < len(raw)], on the tokens
    [raw[i:]].  It returns the struct and the final value of [i]. *)
Fixpoint scanOptions `{GoRuntime} (st : list (StructField type)) (m : FieldMaps)
    (toks : list string) (sv : list value) (i : nat) : result (list value * nat) :=
  match toks with
  | [] => Ok (sv, i)
  | tok :: rest =>
    if HasPrefix tok "--" then
      (* long form --name or --name=val *)
      match Index tok "=" with
      | Some eq =>
        let name := slice_to tok eq in
        let val := slice_from tok (eq + 1) in
        match longMap m !! name with
        | Some fi =>
          match parseAndSetField st sv fi val with
          | Err e => Err (EOptionValue name e)
          | Panicked msg => Panicked msg
          | Ok sv' => scanOptions st m rest sv' (i + 1)
          end
        | None => scanOptions st m rest sv (i + 1)
        end
      | None =>
        (* separate value in next token *)
        match longMap m !! tok with
        | Some fi =>
          match fieldType st fi with
          | Err e => Err e
          | Panicked msg => Panicked msg
          | Ok ft =>
            (* flag handling: both bool and *bool are flags *)
            if isBoolField ft then
              match setBoolField st sv fi with
              | Err e => Err e
              | Panicked msg => Panicked msg
              | Ok sv' => scanOptions st m rest sv' (i + 1)
              end
            else
              match rest with
              | [] => Err (EMissingValue tok)
              | v :: rest' =>
                match parseAndSetField st sv fi v with
                | Err e => Err (EOptionValue tok e)
                | Panicked msg => Panicked msg
                | Ok sv' => scanOptions st m rest' sv' (i + 2)
                end
              end
          end
        | None => (* unknown long option: error *) Err (EUnknownOption tok)
        end
      end
    else if HasPrefix tok "-" && (2 <=? len tok)%nat then
      (* short form -x or -o val; the key is the token exactly as given *)
      match shortMap m !! tok with
      | Some fi =>
        match fieldType st fi with
        | Err e => Err e
        | Panicked msg => Panicked msg
        | Ok ft =>
          if isBoolField ft then
            match setBoolField st sv fi with
            | Err e => Err e
            | Panicked msg => Panicked msg
            | Ok sv' => scanOptions st m rest sv' (i + 1)
            end
          else
            match rest with
            | [] => Err (EMissingValue tok)
            | v :: rest' =>
              match parseAndSetField st sv fi v with
              | Err e => Err (EOptionValue tok e)
              | Panicked msg => Panicked msg
              | Ok sv' => scanOptions st m rest' sv' (i + 2)
              end
            end
        end
      | None => (* unknown short option: error *) Err (EUnknownOption tok)
      end
    else
      (* positional leftover without explicit tag: stop scanning options *)
      Ok (sv, i)
  end.

(** The positions the counter [p] of the positional loop takes after the
    first pass when [max] is [math.MaxInt]: [p <= max] then holds for every
    [int], [p++] wraps around to the least [int], and the loop goes on,
    round after round over all of [int], until it returns with an error.
    Every round takes a token at position [max], so the loop returns in
    round [len(raw) + 1] at the latest: later rounds need not be listed. *)
Definition wrappedRounds `{GoRuntime} (raw : list string) : list Z :=
  mjoin (replicate (S (length raw)) (seqZ (- 2 ^ (intBits - 1)) (2 ^ intBits))).

(** [parseStructArgs(raw, t)]: the struct value and the number of raw args
    consumed.  (On an error Go also returns the count, which the caller
    does not read.)  The final [i] of the option loop is dropped, as in the
    source: the count returned is [consumed]. *)
Definition parseStructArgs `{GoRuntime} (raw : list string) (t : type)
    : result (value * nat) :=
  match t with
  | TStruct _ st =>
    (* create a new struct value *)
    let sv := map (λ f, zero (FType f)) st in
    (* build lookup tables for long/short options and positional fields *)
    let m := buildFieldMaps st in
    (* first handle positional args, by increasing position index *)
    let positional :=
      if (0 <? size (posFields m))%nat then
        let max := maxPosition (posFields m) in
        positionalLoop st (posFields m) raw
          (seqZ 0 (max + 1) ++ if max =? maxInt then wrappedRounds raw else []) sv 0
      else Ok (sv, 0%nat) in
    match positional with
    | Err e => Err e
    | Panicked msg => Panicked msg
    | Ok (sv1, consumed) =>
      (* next, scan remaining raw args for long/short options and flags *)
      match scanOptions st m (drop consumed raw) sv1 consumed with
      | Err e => Err e
      | Panicked msg => Panicked msg
      | Ok (sv2, _) => Ok (VStruct sv2, consumed)
      end
    end
  | _ => Err ENotStruct
  end.

(** ** [cliapp.go]: handlers, the application and its effects *)

(** An [io.Writer]: the destination of log and error text. *)
Inductive Writer := nilWriter | Stdout | Stderr | Buffer (id : nat).

Global Instance Writer_eq_dec : EqDecision Writer.
Proof. solve_decision. Defined.

(** A Go function value as [Add] and [Run] see it through [reflect]: the
    parameter types, whether there is a last result whose type implements
    [error], the kind of the type of that result as [Kind.String()] names
    it ("interface" for [error] itself, "ptr" for a [*MyErr], "struct" for
    a struct type with an [Error] method; "" without result), and what a
    call does: the text it writes and that last result ([None] for nil). *)
Record Func `{GoRuntime} := mkFunc {
  In : list type;
  OutError : bool;    (* NumOut() > 0 && Out(NumOut()-1) implements error *)
  OutKind : string;   (* Out(NumOut()-1).Kind().String() *)
  Call : list value → list (Writer * string) * option error
}.
Arguments mkFunc {_} _ _ _ _.

(** The kinds [reflect.Value.IsNil] accepts; it panics on a value of
    another kind. *)
Definition nilable (kindName : string) : bool :=
  bool_decide (kindName ∈ ["chan"; "func"; "interface"; "map"; "ptr"; "slice";
                           "unsafe.Pointer"]).

(** [handler].  [fn] is a [reflect.Value]: [None] is the zero Value, which
    only the zero [handler{}] has. *)
Record handler `{GoRuntime} := mkHandler {
  fn : option Func;
  targs : list type;
  expectsError : bool;
  help : string
}.
Arguments mkHandler {_} _ _ _ _.

Definition zero_handler `{GoRuntime} : handler := mkHandler None [] false "".

Record Options := mkOptions {
  ExitOnError : bool;    (* exit with code 1 on command error *)
  Log : Writer;          (* writer used for output *)
  LogError : Writer      (* writer used for error messages *)
}.

Record App `{GoRuntime} := mkApp {
  cmds : gmap string handler;
  root : option handler;
  opts : Options
}.
Arguments mkApp {_} _ _ _.

(** [New(opts)] *)
Definition New `{GoRuntime} (o : Options) : App :=
  let log := if decide (Log o = nilWriter) then Stdout else Log o in
  let logError := if decide (LogError o = nilWriter) then Stderr else LogError o in
  mkApp ∅ None (mkOptions (ExitOnError o) log logError).

(** [Default()] *)
Definition Default `{GoRuntime} : App := New (mkOptions true Stdout Stderr).

(** A value of type [any] passed to [Add]. *)
Inductive any `{GoRuntime} :=
| AnyString (s : string)
| AnyFunc (f : Func)
| AnyOther.

(** [a.Add(name, rest...)] *)
Definition Add `{GoRuntime} (a : App) (name : string) (rest : list any) : result App :=
  let register (help : string) (fn : any) : result App :=
    match fn with
    | AnyFunc f =>
      let h := mkHandler (Some f) (In f) (OutError f) help in
      if decide (name = "") then
        (* register root command *)
        Ok (mkApp (cmds a) (Some h) (opts a))
      else Ok (mkApp (<[name := h]> (cmds a)) (root a) (opts a))
    | _ => Panicked "handler must be a function"
    end in
  match rest with
  | [fn] => register "" fn
  | [AnyString s; fn] => register s fn
  | [_; _] => Panicked "help must be a string"
  | _ => Panicked "Add method requires either (name, fn) or (name, help, fn)"
  end.

(** What a run does that can be observed. *)
Inductive event `{GoRuntime} :=
| Fprint (w : Writer) (text : string)   (* text written to a writer *)
| Invoke (args : list value).           (* h.fn.Call(args) *)

Inductive Outcome :=
| Return (err : option error)   (* Run returns err *)
| Exit (code : Z)               (* os.Exit(code) *)
| Panic (msg : string)
| NoReturn.                     (* Run does not end *)

Record Result `{GoRuntime} := mkResult {
  trace : list event;   (* for [NoReturn]: up to the loop that does not end *)
  outcome : Outcome
}.
Arguments mkResult {_} _ _.

(** The process: [os.Args], and for every [range] over [a.cmds] in the
    source (numbered in source order) the seed of the order it takes. *)
Record Env := mkEnv {
  os_Args : list string;
  order : nat → list nat
}.

(** The order of a map iteration: the entries are drawn one at a time, the
    seed says which of the remaining ones comes next. *)
Fixpoint shuffle {A} (seed : list nat) (l : list A) : list A :=
  match seed with
  | [] => l
  | k :: seed' =>
    let j := (k mod length l)%nat in
    match l !! j with
    | Some x => x :: shuffle seed' (delete j l)
    | None => l
    end
  end.

(** [for name, h := range a.cmds] at the [site]-th range of the source *)
Definition range_cmds `{GoRuntime} (E : Env) (site : nat) (a : App)
    : list (string * handler) :=
  shuffle (order E site) (map_to_list (cmds a)).

(** [fmt.Fprintln(w, s)]; [fmt.Fprintln(w)] is [Fprintln w ""] *)
Definition Fprintln `{GoRuntime} (w : Writer) (s : string) : event :=
  Fprint w (s +:+ String "010" "").

Definition nl : string := String "010" "".

(** [%d] *)
Definition fmt_d (n : Z) : string := Itoa n.

(** [%-*s]: left-justified in a field of [width] runes.  [fmt] refuses a
    width above 1e6: it writes [%!(BADWIDTH)] and formats without width. *)
Definition fmt_pad (width : nat) (s : string) : string :=
  if 1000000 <? Z.of_nat width then "%!(BADWIDTH)" +:+ s
  else s +:+ spaces (width - RuneCountInString s).

(** [handleError] *)
Definition handleError `{GoRuntime} (a : App) (err : option error) : Result :=
  match err with
  | None => mkResult [] (Return None)
  | Some e =>
    if ExitOnError (opts a) then
      let w := if decide (LogError (opts a) = nilWriter) then Stderr
               else LogError (opts a) in
      mkResult [Fprintln w (Error e)] (Exit 1)
    else mkResult [] (Return (Some e))
  end.

(** [printCommonOptions] *)
Definition printCommonOptions `{GoRuntime} (a : App) : list event :=
  [ Fprintln (Log (opts a)) "Options:";
    Fprintln (Log (opts a)) "  -h|--help               Show this help" ].

(** [getTypeLabel] *)
Definition getTypeLabel (t : type) : string :=
  let t := match t with TPtr e => e | _ => t end in
  let s := TypeString t in
  if decide (s = "string") then "<string>"
  else if decide (s = "int") then "<int>"
  else if decide (s = "int64") then "<int64>"
  else if decide (s = "float64") then "<float64>"
  else if decide (s = "bool") then "<bool>"
  else "<value>".

(** [printHelp] *)
Definition printHelp `{GoRuntime} (a : App) (E : Env) : list event :=
  let w := Log (opts a) in
  (match root a with
   | None => [ Fprintln w "Usage: [options...]"; Fprintln w "" ]
   | Some _ => [ Fprintln w "Usage:";
                 Fprintln w "  command <args...> [options...]";
                 Fprintln w "" ]
   end)
  ++ [ Fprintln w "Commands:" ]
  ++ (* compute max command name width for alignment *)
     (let max := foldl (λ max entry, if (max <? len entry.1)%nat then len entry.1 else max)
                       0%nat (range_cmds E 1 a) in
      map (λ entry : string * handler,
             let '(name, h) := entry in
             if decide (help h = "") then Fprint w ("  " +:+ name +:+ nl)
             else Fprint w ("  " +:+ fmt_pad max name +:+ "  " +:+ help h +:+ nl))
          (range_cmds E 2 a))
  ++ [ Fprintln w "" ]
  ++ printCommonOptions a.

(** The struct type behind a parameter type: [t] itself, or [t.Elem()] of a
    pointer to a struct. *)
Definition structOf (t : type) : option (list (StructField type)) :=
  match t with
  | TStruct _ st => Some st
  | TPtr (TStruct _ st) => Some st
  | _ => None
  end.

(** [t.Kind() == reflect.Struct ||
     (t.Kind() == reflect.Ptr && t.Elem().Kind() == reflect.Struct)] *)
Definition isStructParam (t : type) : bool :=
  match structOf t with Some _ => true | None => false end.

(** The name shown for the command: the program name for the root. *)
Definition cmdNameOf (E : Env) (name : string) : string :=
  if decide (name = "") then
    match os_Args E with
    | prog :: _ => prog
    | [] => "command"
    end
  else name.

(** [printCommandHelp]: collecting the positional args (arg tags) *)
Definition collectPositional `{GoRuntime} (targs : list type) : gmap Z string * Z :=
  foldl (λ acc t,
           match structOf t with
           | None => acc
           | Some st =>
             foldl (λ (acc : gmap Z string * Z) f,
                      let '(posMap, maxPos) := acc in
                      match Lookup (Tag f) "arg" with
                      | Some v =>
                        match Atoi v with
                        | inl n =>
                          let d := match Lookup (Tag f) "help" with
                                   | Some d => if decide (d = "") then toWords (Name f) else d
                                   | None => toWords (Name f)
                                   end in
                          (<[n := d]> posMap, if maxPos <? n then n else maxPos)
                        | inr _ => acc
                        end
                      | None => acc
                      end) acc st
           end) (∅, -1) targs.

(** [printCommandHelp]: the lines of the option fields (non-positional) *)
Definition optionLines `{GoRuntime} (w : Writer) (targs : list type) : list event :=
  flat_map (λ t,
    match structOf t with
    | None => []
    | Some st =>
      flat_map (λ f,
        match Lookup (Tag f) "arg" with
        | Some _ => []   (* skip positional fields from options *)
        | None =>
          let longName :=
            match Lookup (Tag f) "long" with
            | Some v => if decide (v = "") then "--" +:+ toKebab (Name f) else v
            | None => "--" +:+ toKebab (Name f)
            end in
          let shortName := default "" (Lookup (Tag f) "short") in
          let desc := default "" (Lookup (Tag f) "help") in
          let typeLabel :=
            if isBoolField (FType f) then "" else " " +:+ getTypeLabel (FType f) in
          if decide (shortName = "") then
            [Fprint w ("  " +:+ longName +:+ typeLabel +:+ "    " +:+ desc +:+ nl)]
          else
            [Fprint w ("  " +:+ shortName +:+ "|" +:+ longName +:+ typeLabel
                         +:+ "    " +:+ desc +:+ nl)]
        end) st
    end) targs.

(** [printCommandHelp]: the lines it writes.  The loop over the positions,
    [for i := 0; i <= maxPos; i++], is the list of its rounds when it ends;
    it does not end when [maxPos] is [math.MaxInt], see [helpEnds]. *)
Definition printCommandHelp `{GoRuntime} (a : App) (E : Env) (name : string)
    (h : handler) : list event :=
  let w := Log (opts a) in
  (* if handler has help text, print it under Usage *)
  (if decide (help h = "") then [] else [ Fprintln w (help h); Fprintln w "" ])
  ++
  let primitiveOnly := forallb (λ t, negb (isStructParam t)) (targs h) in
  if primitiveOnly && (0 <? length (targs h))%nat then
    [ Fprint w ("Usage: " +:+ cmdNameOf E name +:+ " <args...>" +:+ nl);
      Fprintln w "";
      Fprintln w "Arguments:" ]
    ++ imap (λ i t, Fprint w ("  [" +:+ fmt_d (Z.of_nat i) +:+ "] arg"
                               +:+ fmt_d (Z.of_nat i) +:+ " " +:+ getTypeLabel t +:+ nl))
            (targs h)
    ++ [ Fprintln w "" ]
    ++ printCommonOptions a
  else
    let '(posMap, maxPos) := collectPositional (targs h) in
    [ (if 0 <=? maxPos
       then Fprint w ("Usage: " +:+ cmdNameOf E name +:+ " <args...> [options...]" +:+ nl)
       else Fprint w ("Usage: " +:+ cmdNameOf E name +:+ " [options...]" +:+ nl));
      Fprintln w "";
      Fprintln w "" ]
    ++ (* Arguments section *)
       (if 0 <=? maxPos then
          [ Fprintln w "Arguments:" ]
          ++ map (λ i, let name := default "" (posMap !! i) in
                       let name := if decide (name = "") then "arg" +:+ Itoa i else name in
                       Fprint w ("  [" +:+ fmt_d i +:+ "] " +:+ name +:+ nl))
                 (seqZ 0 (maxPos + 1))
          ++ [ Fprintln w "" ]
        else [])
    ++ (* printing root usage: include a Commands list of subcommands *)
       (if decide (name = "") then
          [ Fprintln w "Commands:" ]
          ++ map (λ entry : string * handler,
                    Fprint w ("  " +:+ entry.1 +:+ " (args: "
                                +:+ fmt_d (Z.of_nat (length (targs entry.2))) +:+ ")" +:+ nl))
                 (range_cmds E 3 a)
          ++ [ Fprintln w "" ]
        else [])
    ++ [ Fprintln w "Options:";
         Fprintln w "  -h|--help               Show this help" ]
    ++ optionLines w (targs h).

(** The loop over the positions in [printCommandHelp] ends, or is not
    reached.  It is reached for a handler with a struct parameter, or
    without parameter, when [maxPos >= 0]; and with [maxPos = math.MaxInt]
    the test [i <= maxPos] holds for every [int]: [i++] wraps around, and
    the loop writes a line for every [int], round after round, without
    end. *)
Definition helpEnds `{GoRuntime} (h : handler) : bool :=
  let primitiveOnly := forallb (λ t, negb (isStructParam t)) (targs h) in
  primitiveOnly && (0 <? length (targs h))%nat
  || negb ((collectPositional (targs h)).2 =? maxInt).

(** What [printCommandHelp] has written when it enters the loop over the
    positions. *)
Definition printCommandHelp_start `{GoRuntime} (a : App) (E : Env) (name : string)
    (h : handler) : list event :=
  let w := Log (opts a) in
  (if decide (help h = "") then [] else [ Fprintln w (help h); Fprintln w "" ])
  ++ [ Fprint w ("Usage: " +:+ cmdNameOf E name +:+ " <args...> [options...]" +:+ nl);
       Fprintln w "";
       Fprintln w "";
       Fprintln w "Arguments:" ].

(** ** [cliapp.go]: [Run] *)

(** [first == "-h" || first == "--help" || first == "help"] *)
Definition isHelpWord (first : string) : bool :=
  bool_decide (first = "-h") || bool_decide (first = "--help")
  || bool_decide (first = "help").

(** [rawArgs[0] == "-h" || rawArgs[0] == "--help"] *)
Definition isHelpFlag (tok : string) : bool :=
  bool_decide (tok = "-h") || bool_decide (tok = "--help").

(** [for i, tok := range tokens { if args[i] != tok { match = false } }],
    entered with [len(tokens) <= len(args)] *)
Fixpoint tokensMatch (tokens args : list string) : bool :=
  match tokens, args with
  | [], _ => true
  | tok :: tokens', arg :: args' =>
    if decide (arg = tok) then tokensMatch tokens' args' else false
  | _ :: _, [] => false
  end.

(** The state of the matching loop: [bestName], [bestHandler], [bestLen]. *)
Record Best `{GoRuntime} := mkBest {
  bestName : string;
  bestHandler : handler;
  bestLen : nat
}.
Arguments mkBest {_} _ _ _.

(** One round of the matching loop, for the entry [name, h] of [a.cmds]. *)
Definition matchStep `{GoRuntime} (args : list string) (best : Best)
    (entry : string * handler) : Best :=
  let '(name, h) := entry in
  (* split registered name into tokens *)
  let tokens := Fields name in
  if (length tokens =? 0)%nat then best
  else if (length args <? length tokens)%nat then best
  else if tokensMatch tokens args && (bestLen best <? length tokens)%nat then
    mkBest name h (length tokens)
  else best.

(** Match the longest registered command whose tokens are a prefix of
    [args], then fall back to the root handler. *)
Definition resolve `{GoRuntime} (a : App) (E : Env) (first : string)
    (args : list string) : result Best :=
  let best := foldl (matchStep args) (mkBest "" zero_handler 0) (range_cmds E 0 a) in
  if (bestLen best =? 0)%nat then
    match root a with
    | Some r => Ok (mkBest "(root)" r 0)
    | None => Err (EUnknownCommand first)
    end
  else Ok best.

(** The loop of the struct branch of [Run] over the parameter types still
    to bind: [i] is the index of the parameter, [ri] the index into
    [rawArgs]. *)
Fixpoint bindStructMode `{GoRuntime} (bestName : string) (nparams : nat)
    (rawArgs : list string) (ts : list type) (i : nat) (ri : nat)
    (parsed : list value) : result (list value) :=
  match ts with
  | [] => Ok parsed   (* leftover args are ignored *)
  | t :: ts' =>
    if isStructParam t then
      let '(structType, wantPtr) :=
        match t with
        | TPtr e => (e, true)
        | _ => (t, false)
        end in
      (* parse struct from rawArgs[ri:] *)
      match parseStructArgs (drop ri rawArgs) structType with
      | Err e => Err (EStructArg (i + 1) bestName e)
      | Panicked m => Panicked m
      | Ok (sv, nused) =>
        bindStructMode bestName nparams rawArgs ts' (S i) (ri + nused)
          (<[i := if wantPtr then VPtr sv else sv]> parsed)
      end
    else
      match rawArgs !! ri with
      | None => Err (ENotEnoughArgs bestName nparams (length rawArgs))
      | Some tok =>
        match parseValue tok t with
        | Err e => Err (EArg (i + 1) bestName e)
        | Panicked m => Panicked m
        | Ok v =>
          bindStructMode bestName nparams rawArgs ts' (S i) (S ri) (<[i := v]> parsed)
        end
      end
  end.

(** The last loop of the positional branch: [parsed[i] = parseValue(rawArgs[i], t)] *)
Fixpoint bindPositional `{GoRuntime} (bestName : string) (rawArgs : list string)
    (ts : list type) (i : nat) (parsed : list value) : result (list value) :=
  match ts with
  | [] => Ok parsed
  | t :: ts' =>
    match rawArgs !! i with
    | None => Panicked "index out of range"
    | Some tok =>
      match parseValue tok t with
      | Err e => Err (EArg (i + 1) bestName e)
      | Panicked m => Panicked m
      | Ok v => bindPositional bestName rawArgs ts' (S i) (<[i := v]> parsed)
      end
    end
  end.

(** Build the parsed arguments of handler [h] from [rawArgs]. *)
Definition bindArgs `{GoRuntime} (bestName : string) (h : handler)
    (rawArgs : list string) : result (list value) :=
  let parsed := replicate (length (targs h)) VInvalid in
  (* if any target is a struct, the struct parser gets the remaining args *)
  let usesStruct := existsb isStructParam (targs h) in
  if usesStruct then
    bindStructMode bestName (length (targs h)) rawArgs (targs h) 0 0 parsed
  else
    (* check for unknown options *)
    match List.find (λ arg, HasPrefix arg "--") rawArgs with
    | Some arg => Err (EUnknownOption arg)
    | None =>
      if negb (length rawArgs =? length (targs h))%nat then
        Err (EWrongNumber bestName (length (targs h)) (length rawArgs))
      else bindPositional bestName rawArgs (targs h) 0 parsed
    end.

(** The first argument that [reflect.Value.Call] refuses for its
    parameter: the zero Value, or a value that is not assignable to the
    type of the parameter. *)
Fixpoint argMismatch `{GoRuntime} (args : list value) (ins : list type) : option string :=
  match args, ins with
  | v :: args', t :: ins' =>
    match v with
    | VInvalid => Some "reflect: Call using zero Value argument"
    | _ =>
      if hasTypeb v t then argMismatch args' ins'
      else Some ("reflect: Call using " +:+ typeName v +:+ " as type " +:+ TypeString t)
    end
  | _, _ => None
  end.

(** What [reflect.Value.Call] checks before it calls the function: the
    number of arguments, then every argument.  [None]: the call is made. *)
Definition callCheck `{GoRuntime} (args : list value) (ins : list type) : option string :=
  if (length args <? length ins)%nat then Some "reflect: Call with too few input arguments"
  else if (length ins <? length args)%nat then Some "reflect: Call with too many input arguments"
  else argMismatch args ins.

(** [res := h.fn.Call(parsed)] and what [Run] does with the result. *)
Definition invoke `{GoRuntime} (h : handler) (parsed : list value) : Result :=
  match fn h with
  | None => mkResult [] (Panic "reflect: call of reflect.Value.Call on zero Value")
  | Some f =>
    match callCheck parsed (In f) with
    | Some msg => mkResult [] (Panic msg)
    | None =>
      let '(written, last) := Call f parsed in
      let tr := Invoke parsed :: map (λ ws : Writer * string, Fprint ws.1 ws.2) written in
      if expectsError h then
        (* last return is error: last.IsNil() *)
        if nilable (OutKind f) then
          match last with
          | Some err => mkResult tr (Return (Some err))
          | None => mkResult tr (Return None)
          end
        else
          mkResult tr (Panic ("reflect: call of reflect.Value.IsNil on "
                                +:+ OutKind f +:+ " Value"))
      else mkResult tr (Return None)
    end
  end.

(** The arguments [Run] works on: [args], or [os.Args[1:]] when [args] is
    nil ([None]); slicing an empty [os.Args] panics (the result [None]). *)
Definition effectiveArgs (E : Env) (args : option (list string)) : option (list string) :=
  match args with
  | Some l => Some l
  | None =>
    match os_Args E with
    | _ :: l => Some l
    | [] => None
    end
  end.

(** The text of the help of the root handler if there is one, of the
    global help otherwise. *)
Definition rootHelp `{GoRuntime} (a : App) (E : Env) : list event :=
  match root a with
  | Some r => printCommandHelp a E "" r
  | None => printHelp a E
  end.

(** [len(rawArgs) > 0 && (rawArgs[0] == "-h" || rawArgs[0] == "--help")] *)
Definition asksHelp (rawArgs : list string) : bool :=
  match rawArgs with tok :: _ => isHelpFlag tok | [] => false end.

(** [Run] up to the call of the handler: it has printed a help text and
    returns nil, or it is printing the help of a command without end
    ([lines] is what it has written when it enters the loop that does not
    end), or it has an error for [handleError], or it has the handler and
    its parsed arguments. *)
Inductive Prepared `{GoRuntime} :=
| ShowHelp (lines : list event)
| HelpForever (lines : list event)
| Failed (err : error)
| Ready (h : handler) (parsed : list value)
| Crashed (msg : string).

(** [a.printCommandHelp(name, h); return nil] *)
Definition commandHelp `{GoRuntime} (a : App) (E : Env) (name : string) (h : handler)
    : Prepared :=
  if helpEnds h then ShowHelp (printCommandHelp a E name h)
  else HelpForever (printCommandHelp_start a E name h).

(** Show the help of the root handler if there is one, the global help
    otherwise; return nil. *)
Definition showRootHelp `{GoRuntime} (a : App) (E : Env) : Prepared :=
  match root a with
  | Some r => commandHelp a E "" r
  | None => ShowHelp (printHelp a E)
  end.

Definition prepare `{GoRuntime} (a : App) (E : Env) (args : option (list string))
    : Prepared :=
  match effectiveArgs E args with
  | None => Crashed "slice bounds out of range [1:0]"
  | Some [] => showRootHelp a E
  | Some ((first :: _) as args) =>
    (* try help *)
    if isHelpWord first then showRootHelp a E
    else
      match resolve a E first args with
      | Err e => Failed e
      | Panicked m => Crashed m
      | Ok best =>
        let h := bestHandler best in
        let rawArgs := drop (bestLen best) args in
        (* per-command help: if next token is -h/--help show help *)
        if asksHelp rawArgs then commandHelp a E (bestName best) h
        else
          match bindArgs (bestName best) h rawArgs with
          | Err e => Failed e
          | Panicked m => Crashed m
          | Ok parsed => Ready h parsed
          end
      end
  end.

(** [a.Run(args...)]: parse the arguments and execute the matching command *)
Definition Run `{GoRuntime} (a : App) (E : Env) (args : option (list string)) : Result :=
  match prepare a E args with
  | ShowHelp lines => mkResult lines (Return None)
  | HelpForever lines => mkResult lines NoReturn
  | Failed err => handleError a (Some err)
  | Crashed m => mkResult [] (Panic m)
  | Ready h parsed => invoke h parsed
  end.

(** ** A runtime to evaluate the program on concrete inputs

    It agrees with Go on what the examples below use: ASCII letters for
    [IsUpper] and [ToLower], printable ASCII without quotes or backslashes
    for [Quote], a 64-bit [int].  No example parses a float other than
    "0": its floats are integers and [ParseFloat] reads "0" only. *)
Definition testRuntime : GoRuntime := {|
  float64 := Z;
  float64_zero := 0;
  ParseFloat := λ s, if String.eqb s "0" then inl 0 else inr ErrSyntax;
  Quote := λ s, String "034" s +:+ String "034" "";
  IsUpper := λ r, (65 <=? r) && (r <=? 90);
  ToLower := λ r, if (65 <=? r) && (r <=? 90) then r + 32 else r;
  IntSize := W64
|}.

Definition testEnv : Env := mkEnv ["prog"] (λ _, []).

(** The struct of [TestStructArgParsing] in [cliapp_test.go] *)
Definition CreateTextArgs : list (StructField type) :=
  [ mkField "Input" TString [("arg", "0")];
    mkField "Output" TString [("long", "--out"); ("short", "-o")];
    mkField "UseMarkdown" TBool [("flag", ""); ("long", "--usemarkdown")] ].

(** Its lookup maps and its zero value, on the runtime above *)
Definition CreateTextArgs_maps : FieldMaps := @buildFieldMaps testRuntime CreateTextArgs.
Definition CreateTextArgs_zero : list (@value testRuntime) :=
  map (λ f, @zero testRuntime (FType f)) CreateTextArgs.

(** A struct with positional indices 0 and 2: position 1 is a gap. *)
Definition GapArgs : list (StructField type) :=
  [ mkField "Src" TString [("arg", "0")];
    mkField "Count" TInt [("arg", "2")];
    mkField "Verbose" TBool [] ].

(** Registering the entries one after the other with [Add]; a registration
    that panics is left out (the examples have none). *)
Definition register `{GoRuntime} (a : App) (entries : list (string * list any)) : App :=
  foldl (λ a e, match Add a e.1 e.2 with Ok a' => a' | _ => a end) a entries.

(** A function without parameters and results that writes its name. *)
Definition say (text : string) : @Func testRuntime :=
  mkFunc [] false "" (λ _, ([(Stdout, text)], None)).

(** The handler [Add] makes of a function *)
Definition handlerOf `{GoRuntime} (f : Func) (help : string) : handler :=
  mkHandler (Some f) (In f) (OutError f) help.

(** The commands "a", "a b" and "a b c" *)
Definition pathsApp : @App testRuntime :=
  register (New (mkOptions false Stdout Stderr))
    [ ("a", [AnyFunc (say "A")]);
      ("a b", [AnyFunc (say "AB")]);
      ("a b c", [AnyFunc (say "ABC")]) ].

(** The commands "help" and "help me" *)
Definition helpPathsApp : @App testRuntime :=
  register (New (mkOptions false Stdout Stderr))
    [ ("help", [AnyFunc (say "H")]);
      ("help me", [AnyFunc (say "HM")]) ].

(** The commands "a" and "a b" *)
Definition twoPathsApp : @App testRuntime :=
  register (New (mkOptions false Stdout Stderr))
    [ ("a", [AnyFunc (say "A")]);
      ("a b", [AnyFunc (say "AB")]) ].

(** The handler of [TestAddCommand]: it prints the sum to the log of the
    application, the buffer of the test. *)
Definition add : @Func testRuntime :=
  mkFunc [TInt; TInt] false ""
    (λ args, match args with
             | [VInt a; VInt b] => ([(Buffer 0, Itoa (a + b))], None)
             | _ => ([], None)
             end).

Definition addApp : @App testRuntime :=
  register (New (mkOptions false (Buffer 0) nilWriter)) [ ("add", [AnyFunc add]) ].

(** The Quick Start of the README: [cliapp.Default()] with
    [app.Add("add", func(num1 int, num2 int) { fmt.Printf("Result: %d\n", num1+num2) })] *)
Definition addResult : @Func testRuntime :=
  mkFunc [TInt; TInt] false ""
    (λ args, match args with
             | [VInt a; VInt b] => ([(Stdout, "Result: " +:+ Itoa (a + b) +:+ nl)], None)
             | _ => ([], None)
             end).

Definition readmeApp : @App testRuntime :=
  register Default [ ("add", [AnyFunc addResult]) ].

(** The handler of [TestStructArgParsing] *)
Definition create : @Func testRuntime :=
  mkFunc [TStruct "cliapp.CreateTextArgs" CreateTextArgs] false "" (λ _, ([], None)).

Definition createTextApp : @App testRuntime :=
  register (New (mkOptions false nilWriter nilWriter)) [ ("create", [AnyFunc create]) ].

(** [app.Add("echo", func(s string) {})] of [TestMissingArg] *)
Definition echo : @Func testRuntime := mkFunc [TString] false "" (λ _, ([], None)).

Definition echoApp : @App testRuntime :=
  register (New (mkOptions false Stdout Stderr)) [ ("echo", [AnyFunc echo]) ].

(** A handler [func(a CreateTextArgs, note string)] *)
Definition createWithNote : @Func testRuntime :=
  mkFunc [TStruct "cliapp.CreateTextArgs" CreateTextArgs; TString] false ""
    (λ _, ([], None)).

Definition createApp : @App testRuntime :=
  register (New (mkOptions false Stdout Stderr)) [ ("create", [AnyFunc createWithNote]) ].

(** The example of the README, section Error Handling:
    [app := cliapp.Default();
     app.Add("error", func() error { return errors.New("something wrong!") })] *)
Definition failing : @Func testRuntime :=
  mkFunc [] true "interface" (λ _, ([], Some (EUser "something wrong!"))).

Definition errorApp : @App testRuntime :=
  register Default [ ("error", [AnyFunc failing]) ].

(** A root handler: [app.Add("", "Copy a file", func(src string, dst string) {})] *)
Definition copy : @Func testRuntime := mkFunc [TString; TString] false "" (λ _, ([], None)).

Definition copyApp : @App testRuntime :=
  register (New (mkOptions false Stdout Stderr))
    [ ("", [AnyString "Copy a file"; AnyFunc copy]) ].



(** A root handler with a struct parameter, and a command beside it:
    [app.Add("", "Create a text file", func(a CreateTextArgs) {})] and
    [app.Add("echo", func(s string) {})] *)
Definition createRootApp : @App testRuntime :=
  register (New (mkOptions false Stdout Stderr))
    [ ("", [AnyString "Create a text file"; AnyFunc create]);
      ("echo", [AnyFunc echo]) ].

(** A struct whose positional field is at the greatest position a 64-bit
    [int] can hold, and a root handler [func(a LastArgs) {}]:
    [type LastArgs struct { Last string `arg:"9223372036854775807"` }] *)
Definition LastArgs : list (StructField type) :=
  [ mkField "Last" TString [("arg", "9223372036854775807")] ].

Definition takeLast : @Func testRuntime :=
  mkFunc [TStruct "main.LastArgs" LastArgs] false "" (λ _, ([], None)).

Definition lastApp : @App testRuntime :=
  register (New (mkOptions false Stdout Stderr)) [ ("", [AnyFunc takeLast]) ].

(** A struct with a bool field that is not exported and a field of a
    defined bool type:
    [type Flag bool] and
    [type FlagArgs struct { verbose bool `long:"--verbose"`; Force Flag `long:"--force"` }] *)
Definition FlagArgs : list (StructField type) :=
  [ mkField "verbose" TBool [("long", "--verbose")];
    mkField "Force" (TNamed "main.Flag" BBool) [("long", "--force")] ].

(** ** Vocabulary of the statements *)

(** The type of a value of one of the five primitive kinds *)
Definition primitiveType `{GoRuntime} (v : value) : option type :=
  match v with
  | VString _ => Some TString
  | VInt _ => Some TInt
  | VInt64 _ => Some TInt64
  | VFloat64 _ => Some TFloat64
  | VBool _ => Some TBool
  | _ => None
  end.

(** The value is in the range of its kind: an [int] has [intBits] bits, an
    [int64] 64. *)
Definition inRange `{GoRuntime} (v : value) : Prop :=
  match v with
  | VInt n => - 2 ^ (intBits - 1) ≤ n < 2 ^ (intBits - 1)
  | VInt64 n => - 2 ^ 63 ≤ n < 2 ^ 63
  | _ => True
  end.

(** The canonical string of a primitive value: the string itself,
    [strconv.Itoa], [strconv.FormatInt(v, 10)], [strconv.FormatBool], and
    for a float the given [formatFloat]. *)
Definition render `{GoRuntime} (formatFloat : float64 → string) (v : value) : string :=
  match v with
  | VString s => s
  | VInt n => Itoa n
  | VInt64 n => Itoa n
  | VFloat64 f => formatFloat f
  | VBool b => FormatBool b
  | _ => ""
  end.


(** The event is a write to the log of the application. *)
Definition toLog `{GoRuntime} (a : App) (ev : event) : Prop :=
  ∃ text, ev = Fprint (Log (opts a)) text.

(** The event is a call of a handler. *)
Definition isInvoke `{GoRuntime} (ev : event) : bool :=
  match ev with Invoke _ => true | _ => false end.

(** The name and the length a resolution selected *)
Definition selected `{GoRuntime} (r : result Best) : option (string * nat) :=
  match r with
  | Ok best => Some (bestName best, bestLen best)
  | _ => None
  end.

(** The registered name is a candidate for [args]: its tokens are a
    non-empty prefix of [args]. *)
Definition isCandidate (args : list string) (name : string) : bool :=
  let tokens := Fields name in
  negb (length tokens =? 0)%nat && (length tokens <=? length args)%nat
  && tokensMatch tokens args.

(** The value stored in a field of type [ft] for the boolean [b] *)
Definition boolValue `{GoRuntime} (ft : type) (b : bool) : value :=
  match ft with TPtr _ => VPtr (VBool b) | _ => VBool b end.

(** ** Vocabulary of the further properties *)

(** The handler is one that [Add] makes: it holds a function, with the
    parameter types and the error flag of that function. *)
Definition fromAdd `{GoRuntime} (h : handler) : Prop :=
  ∃ f, fn h = Some f ∧ targs h = In f ∧ expectsError h = OutError f.

(** The application is as [New] and [Add] build it: both writers are set,
    every handler comes from [Add], and the empty name is no key of the
    command map. *)
Definition wellFormed `{GoRuntime} (a : App) : Prop :=
  Log (opts a) ≠ nilWriter ∧ LogError (opts a) ≠ nilWriter
  ∧ (∀ name h, cmds a !! name = Some h → fromAdd h)
  ∧ (∀ h, root a = Some h → fromAdd h)
  ∧ cmds a !! "" = None.

(** No registered name is a candidate for [args]. *)
Definition noCandidate `{GoRuntime} (a : App) (args : list string) : Prop :=
  ∀ name h, cmds a !! name = Some h → isCandidate args name = false.

(** [best] is a registered candidate for [args] with the most tokens. *)
Definition longestCandidate `{GoRuntime} (a : App) (args : list string) (best : Best) : Prop :=
  cmds a !! bestName best = Some (bestHandler best)
  ∧ isCandidate args (bestName best) = true
  ∧ bestLen best = length (Fields (bestName best))
  ∧ ∀ name h, cmds a !! name = Some h → isCandidate args name = true →
      (length (Fields name) ≤ bestLen best)%nat.

(** The writer [handleError] prints to *)
Definition errorWriter `{GoRuntime} (a : App) : Writer :=
  if decide (LogError (opts a) = nilWriter) then Stderr else LogError (opts a).


(** The value is of the type: [hasTypeb] as a proposition. *)
Definition hasType `{GoRuntime} (v : value) (t : type) : Prop := hasTypeb v t = true.


(** The type of the values [parseValue] makes for a parameter or field of
    type [t]: the predeclared type of the kind, also when [t] is a defined
    type. *)
Definition unnamed (t : type) : type :=
  match t with TNamed _ b => basicType b | _ => t end.

(** The type is a defined type. *)
Definition defined (t : type) : bool :=
  match t with TNamed _ _ => true | _ => false end.

(** The binder can store a parsed value in the field: the field is
    exported, and its type is neither a defined type nor a pointer to
    one. *)
Definition bindable `{GoRuntime} (f : StructField type) : bool :=
  exported f
  && negb (defined (FType f))
  && match FType f with TPtr e => negb (defined e) | _ => true end.


(** The text [toWords] and [toKebab] write for a run of runes: every rune
    encoded, an upper-case rune after [unicode.ToLower]. *)
Definition lowerRunes `{GoRuntime} (rs : list (Z * string)) : string :=
  foldr (λ (rb : Z * string) acc,
           EncodeRune (if IsUpper rb.1 then ToLower rb.1 else rb.1) +:+ acc) "" rs.

(** No rune of the run is upper-case. *)
Definition noUpper `{GoRuntime} (rs : list (Z * string)) : Prop :=
  Forall (λ rb : Z * string, IsUpper rb.1 = false) rs.

(** What a field declares through its tags: a position, a long option
    name (the kebab-case name of the field when it has neither an [arg] nor
    a [long] tag), a short option name. *)
Definition declaresPos `{GoRuntime} (f : StructField type) (n : Z) : bool :=
  match Lookup (Tag f) "arg" with
  | Some v => match Atoi v with inl p => bool_decide (p = n) | inr _ => false end
  | None => false
  end.

Definition declaresLong `{GoRuntime} (f : StructField type) (k : string) : bool :=
  match Lookup (Tag f) "long" with
  | Some v => bool_decide (v = k)
  | None =>
    match Lookup (Tag f) "arg" with
    | Some _ => false
    | None => bool_decide ("--" +:+ toKebab (Name f) = k)
    end
  end.

Definition declaresShort (f : StructField type) (k : string) : bool :=
  bool_decide (Lookup (Tag f) "short" = Some k).

(** Field [f] of index [fi] is the last field of [st] that declares [k]. *)
Definition lastDeclaring {K} (declares : StructField type → K → bool)
    (st : list (StructField type)) (k : K) (fi : nat) (f : StructField type) : Prop :=
  st !! fi = Some f ∧ declares f k = true
  ∧ ∀ j f', (fi < j)%nat → st !! j = Some f' → declares f' k = false.

(** The name the help shows for the positional argument of field [f]. *)
Definition argName `{GoRuntime} (f : StructField type) : string :=
  match Lookup (Tag f) "help" with
  | Some d => if decide (d = "") then toWords (Name f) else d
  | None => toWords (Name f)
  end.

(** The long and the short name in the line the help prints for an option
    field, and the line: the body of the last loop of [printCommandHelp]. *)
Definition helpLongName `{GoRuntime} (f : StructField type) : string :=
  match Lookup (Tag f) "long" with
  | Some v => if decide (v = "") then "--" +:+ toKebab (Name f) else v
  | None => "--" +:+ toKebab (Name f)
  end.

Definition helpShortName (f : StructField type) : string :=
  default "" (Lookup (Tag f) "short").

Definition optionLine `{GoRuntime} (w : Writer) (f : StructField type) : event :=
  let desc := default "" (Lookup (Tag f) "help") in
  let typeLabel :=
    if isBoolField (FType f) then "" else " " +:+ getTypeLabel (FType f) in
  if decide (helpShortName f = "") then
    Fprint w ("  " +:+ helpLongName f +:+ typeLabel +:+ "    " +:+ desc +:+ nl)
  else
    Fprint w ("  " +:+ helpShortName f +:+ "|" +:+ helpLongName f +:+ typeLabel
                +:+ "    " +:+ desc +:+ nl).

(** The line [printHelp] prints for a command: the body of its last loop,
    [max] being the width computed before. *)
Definition commandLine `{GoRuntime} (w : Writer) (max : nat)
    (entry : string * handler) : event :=
  let '(name, h) := entry in
  if decide (help h = "") then Fprint w ("  " +:+ name +:+ nl)
  else Fprint w ("  " +:+ fmt_pad max name +:+ "  " +:+ help h +:+ nl).

(** The fields of the struct parameters of a handler, parameter after
    parameter. *)
Definition paramFields (ts : list type) : list (StructField type) :=
  flat_map (λ t, default [] (structOf t)) ts.

(** [M] is the greatest position that a field of [fs] declares, and -1
    when no field declares a position from 0 on. *)
Definition greatestPosition `{GoRuntime} (fs : list (StructField type)) (M : Z) : Prop :=
  (∀ f n, f ∈ fs → declaresPos f n = true → n ≤ M)
  ∧ (M = -1 ∨ 0 ≤ M ∧ ∃ f, f ∈ fs ∧ declaresPos f M = true).

(** The name the help of a command shows for position [n]: that of the
    last field declaring the position, and [arg] followed by the position
    when no field declares it or the name is empty. *)
Definition positionName `{GoRuntime} (fs : list (StructField type)) (n : Z) : string :=
  match last (filter (λ f, declaresPos f n = true) fs) with
  | Some f => if decide (argName f = "") then "arg" +:+ Itoa n else argName f
  | None => "arg" +:+ Itoa n
  end.

(** The name of the program in the usage line of the root handler *)
Definition progName (E : Env) : string :=
  match os_Args E with
  | prog :: _ => prog
  | [] => "command"
  end.

(** The lines the help of a command prints for a parameter of a handler
    without struct parameter, for a position, and, in the help of the root
    handler, for a command. *)
Definition parameterLine `{GoRuntime} (w : Writer) (i : nat) (t : type) : event :=
  Fprint w ("  [" +:+ Itoa (Z.of_nat i) +:+ "] arg" +:+ Itoa (Z.of_nat i)
              +:+ " " +:+ getTypeLabel t +:+ nl).

Definition positionLine `{GoRuntime} (w : Writer) (fs : list (StructField type))
    (n : Z) : event :=
  Fprint w ("  [" +:+ Itoa n +:+ "] " +:+ positionName fs n +:+ nl).

Definition subcommandLine `{GoRuntime} (w : Writer) (entry : string * handler) : event :=
  Fprint w ("  " +:+ entry.1 +:+ " (args: "
              +:+ Itoa (Z.of_nat (length (targs entry.2))) +:+ ")" +:+ nl).
(* ===================================================================== *)
(** * Part II.  Properties                                               *)
(* ===================================================================== *)

(** ** The tests of the repository *)

Section RepositoryTests.
Local Existing Instance testRuntime.

(** [TestAddCommand]: no error, and "5" in the buffer *)
Example TestAddCommand :
  Run addApp testEnv (Some ["add"; "2"; "3"])
  = mkResult [Invoke [VInt 2; VInt 3]; Fprint (Buffer 0) "5"] (Return None).
Proof. by vm_compute. Qed.

(** The same with the arguments taken from [os.Args] *)
Example TestAddCommand_osArgs :
  Run addApp (mkEnv ["cmd"; "add"; "2"; "3"] (λ _, [])) None
  = mkResult [Invoke [VInt 2; VInt 3]; Fprint (Buffer 0) "5"] (Return None).
Proof. by vm_compute. Qed.

(** [TestMissingArg]: an error *)
Example TestMissingArg :
  Run echoApp testEnv (Some ["echo"])
  = mkResult [] (Return (Some (EWrongNumber "echo" 1 0))).
Proof. by vm_compute. Qed.

(** [TestStructArgParsing]: the struct the handler gets *)
Example TestStructArgParsing :
  Run createTextApp testEnv (Some ["create"; "hello.txt"; "--out=out.txt"; "--usemarkdown"])
  = mkResult [Invoke [VStruct [VString "hello.txt"; VString "out.txt"; VBool true]]]
             (Return None).
Proof. by vm_compute. Qed.

(** The README, Quick Start: [add 1] and [add 1 hello] print the error and
    exit with status 1. *)
Example README_wrong_number :
  Run readmeApp testEnv (Some ["add"; "1"])
  = mkResult [Fprint Stderr ("wrong number of arguments for add: want 2, got 1" +:+ nl)]
             (Exit 1).
Proof. by vm_compute. Qed.

Example README_parse_error :
  Run readmeApp testEnv (Some ["add"; "1"; "hello"])
  = mkResult [Fprint Stderr ("failed to parse arg 2 for add: strconv.Atoi: parsing "
                             +:+ String "034" "hello" +:+ String "034" ": invalid syntax"
                             +:+ nl)]
             (Exit 1).
Proof. by vm_compute. Qed.
End RepositoryTests.

(** ** Strings *)

Lemma Index_cons (c : ascii) (s : string) :
  Index (String c s) "=" =
  if decide (c = "="%char) then Some 0%nat else S <$> Index s "=".
Proof.
  unfold Index. cbn [String.index String.prefix].
  destruct (ascii_dec "=" c) as [<-|Hne].
  - rewrite decide_True by done. by destruct s.
  - rewrite decide_False by congruence. by destruct (String.index 0 "=" s).
Qed.

(** A name without "=" followed by "=": the first "=" is the one after the
    name, and the slices around it are the name and the value. *)
Lemma Index_name_eq (n v : string) :
  Index n "=" = None → Index (n +:+ String "=" v) "=" = Some (len n).
Proof.
  induction n as [|c n IH]; intros Hn.
  - change ("" +:+ String "=" v) with (String "=" v).
    by rewrite Index_cons, decide_True.
  - rewrite Index_cons in Hn. change (String c n +:+ String "=" v)
      with (String c (n +:+ String "=" v)). rewrite Index_cons.
    destruct (decide (c = "="%char)); [done|].
    destruct (Index n "=") eqn:E; [done|]. by rewrite IH.
Qed.

Lemma substring_0_app (n s : string) : String.substring 0 (len n) (n +:+ s) = n.
Proof.
  induction n as [|c n IH]; [by destruct s|].
  change (String.substring 0 (len (String c n)) (String c n +:+ s))
    with (String c (String.substring 0 (len n) (n +:+ s))).
  by rewrite IH.
Qed.

Lemma slice_to_app (n s : string) : slice_to (n +:+ s) (len n) = n.
Proof. apply substring_0_app. Qed.

Lemma substring_all (s : string) : String.substring 0 (len s) s = s.
Proof.
  induction s as [|c s IH]; [done|].
  change (String.substring 0 (len (String c s)) (String c s))
    with (String c (String.substring 0 (len s) s)).
  by rewrite IH.
Qed.

Lemma len_app (s1 s2 : string) : len (s1 +:+ s2) = (len s1 + len s2)%nat.
Proof.
  induction s1 as [|c s1 IH]; [done|].
  change (len (String c s1 +:+ s2)) with (S (len (s1 +:+ s2))).
  rewrite IH. done.
Qed.

Lemma substring_skip (n s : string) (k : nat) :
  String.substring (len n) k (n +:+ s) = String.substring 0 k s.
Proof. induction n as [|c n IH]; [done|]. exact IH. Qed.

Lemma slice_from_app (n s : string) : slice_from (n +:+ s) (len n) = s.
Proof.
  unfold slice_from. rewrite len_app.
  replace (len n + len s - len n)%nat with (len s) by lia.
  rewrite substring_skip. apply substring_all.
Qed.

Lemma app_assoc_eq (n v : string) : n +:+ String "=" v = (n +:+ "=") +:+ v.
Proof.
  induction n as [|c n IH]; [done|].
  change (String c (n +:+ String "=" v) = String c ((n +:+ "=") +:+ v)).
  by rewrite IH.
Qed.

Lemma slice_from_name_eq (n v : string) :
  slice_from (n +:+ String "=" v) (len n + 1) = v.
Proof.
  rewrite app_assoc_eq.
  replace (len n + 1)%nat with (len (n +:+ "=")) by (by rewrite len_app).
  apply slice_from_app.
Qed.

Lemma slice_to_name_eq (n v : string) :
  slice_to (n +:+ String "=" v) (len n) = n.
Proof. apply slice_to_app. Qed.

Lemma HasPrefix_app (name s : string) :
  HasPrefix name "--" = true → HasPrefix (name +:+ s) "--" = true.
Proof.
  destruct name as [|a [|b r]]; try done.
  - unfold HasPrefix. cbn [String.prefix]. by destruct (ascii_dec "-" a).
  - unfold HasPrefix.
    change (String a (String b r) +:+ s) with (String a (String b (r +:+ s))).
    cbn [String.prefix].
    destruct (ascii_dec "-" a); [|done]. destruct (ascii_dec "-" b); [|done].
    intros _. by destruct (r +:+ s).
Qed.

(** ** The order of a map iteration *)

Lemma shuffle_Permutation {A} (seed : list nat) (l : list A) : shuffle seed l ≡ₚ l.
Proof.
  revert l. induction seed as [|k seed IH]; intros l; cbn [shuffle]; [done|].
  destruct (l !! (k mod length l)%nat) as [x|] eqn:Hx; [|done].
  rewrite IH. symmetry. by apply delete_Permutation.
Qed.

(** Every order of the entries is the order of some seed. *)
Lemma shuffle_complete {A} (l l' : list A) :
  l ≡ₚ l' → ∃ seed, shuffle seed l = l'.
Proof.
  revert l. induction l' as [|x l' IH]; intros l Hperm.
  - apply Permutation_nil_r in Hperm as ->. by exists [].
  - assert (x ∈ l) as [j Hj]%list_elem_of_lookup by (rewrite Hperm; left).
    pose proof (lookup_lt_Some _ _ _ Hj) as Hlt.
    destruct (IH (delete j l)) as [seed Hseed].
    { apply (Permutation_cons_inv (a := x)).
      by rewrite <- delete_Permutation, Hperm. }
    exists (j :: seed). cbn [shuffle].
    rewrite Nat.mod_small by done. by rewrite Hj, Hseed.
Qed.

(** ** Type coercion *)

Lemma digit_of_Zbyte (d : Z) : 0 ≤ d ≤ 9 → digit_of (Zbyte (48 + d)) = Some d.
Proof.
  intros Hd.
  assert (d = 0 ∨ d = 1 ∨ d = 2 ∨ d = 3 ∨ d = 4 ∨ d = 5 ∨ d = 6 ∨ d = 7
          ∨ d = 8 ∨ d = 9) as Hcases by lia.
  destruct_or! Hcases; subst d; reflexivity.
Qed.

Lemma Zbyte_digit_not_sign (d : Z) :
  0 ≤ d ≤ 9 →
  Ascii.eqb (Zbyte (48 + d)) "-" = false ∧ Ascii.eqb (Zbyte (48 + d)) "+" = false.
Proof.
  intros Hd.
  assert (d = 0 ∨ d = 1 ∨ d = 2 ∨ d = 3 ∨ d = 4 ∨ d = 5 ∨ d = 6 ∨ d = 7
          ∨ d = 8 ∨ d = 9) as Hcases by lia.
  destruct_or! Hcases; subst d; split; reflexivity.
Qed.

(** The digits [formatBits] writes begin the string, the first is a digit. *)
Lemma formatBits_head (rounds : nat) (u : Z) (acc : string) :
  0 ≤ u →
  ∃ d rest, 0 ≤ d ≤ 9 ∧ formatBits (S rounds) u acc = String (Zbyte (48 + d)) rest.
Proof.
  revert u acc. induction rounds as [|k IH]; intros u acc Hu.
  - exists (u mod 10), acc. split; [pose proof (Z.mod_pos_bound u 10); lia|].
    cbn [formatBits]. by destruct (u <? 10).
  - change (formatBits (S (S k)) u acc) with
      (if u <? 10 then String (Zbyte (48 + u mod 10)) acc
       else formatBits (S k) (u / 10) (String (Zbyte (48 + u mod 10)) acc)).
    destruct (u <? 10).
    + exists (u mod 10), acc. split; [pose proof (Z.mod_pos_bound u 10); lia|done].
    + apply IH. apply Z.div_pos; lia.
Qed.

(** Reading back the digits of [u]: the loop of [ParseUint] is where it
    would be after [u]. *)
Lemma parseUint_formatBits (bitSize : Z) (rounds : nat) (u : Z) (acc : string) :
  0 ≤ bitSize ≤ 64 → 0 ≤ u < 10 ^ Z.of_nat rounds → u ≤ 2 ^ bitSize - 1 →
  parseUint_loop bitSize (formatBits rounds u acc) 0 = parseUint_loop bitSize acc u.
Proof.
  intros Hbits. revert u acc. induction rounds as [|k IH]; intros u acc Hu Hmax.
  { cbn in Hu. assert (u = 0) as -> by lia. done. }
  assert (2 ^ bitSize ≤ 2 ^ 64) as Hpow by (apply Z.pow_le_mono_r; lia).
  assert (Hstep : ∀ n, 0 ≤ n → n * 10 + u mod 10 = u →
            parseUint_loop bitSize (String (Zbyte (48 + u mod 10)) acc) n
            = parseUint_loop bitSize acc u).
  { intros n Hn Heq. cbn [parseUint_loop].
    rewrite digit_of_Zbyte by (pose proof (Z.mod_pos_bound u 10); lia).
    pose proof (Z.mod_pos_bound u 10 ltac:(lia)) as Hd.
    assert (n ≤ maxUint64 / 10) as Hle.
    { apply Z.div_le_lower_bound; [lia|]. unfold maxUint64. lia. }
    rewrite (proj2 (Z.leb_gt _ _)) by lia.
    rewrite Heq, Z.mod_small by lia.
    rewrite (proj2 (Z.ltb_ge _ _)) by lia.
    rewrite (proj2 (Z.ltb_ge _ _)) by lia. done. }
  cbn [formatBits]. destruct (Z.ltb_spec u 10) as [Hlt|Hge].
  - apply Hstep; [lia|]. rewrite Z.mod_small by lia. lia.
  - rewrite IH.
    + apply Hstep; [apply Z.div_pos; lia|].
      pose proof (Z.div_mod u 10 ltac:(lia)). lia.
    + split; [apply Z.div_pos; lia|].
      apply Z.div_lt_upper_bound; [lia|].
      rewrite Nat2Z.inj_succ, Z.pow_succ_r in Hu by lia. lia.
    + pose proof (Z.div_le_upper_bound u 10 u ltac:(lia) ltac:(lia)). lia.
Qed.

Lemma ParseUint10_formatBits (bitSize u : Z) :
  0 ≤ bitSize ≤ 64 → 0 ≤ u ≤ 2 ^ bitSize - 1 →
  ParseUint10 (formatBits 20 u "") bitSize = (u, None).
Proof.
  intros Hbits Hu.
  assert (2 ^ bitSize ≤ 2 ^ 64) as Hpow by (apply Z.pow_le_mono_r; lia).
  destruct (formatBits_head 19 u "" ltac:(lia)) as (d & rest & Hd & Hfmt).
  unfold ParseUint10. rewrite Hfmt, <- Hfmt.
  rewrite parseUint_formatBits; [done|lia| |lia].
  change (Z.of_nat 20) with 20. lia.
Qed.

(** [ParseInt(FormatInt(n, 10), 10, bitSize) = n] for [n] of [bitSize] bits *)
Lemma ParseInt10_Itoa (bitSize n : Z) :
  1 ≤ bitSize ≤ 64 → - 2 ^ (bitSize - 1) ≤ n < 2 ^ (bitSize - 1) →
  ParseInt10 (Itoa n) bitSize = inl n.
Proof.
  intros Hbits Hn.
  assert (2 ^ bitSize = 2 * 2 ^ (bitSize - 1)) as Hdouble.
  { rewrite <- Z.pow_succ_r by lia. f_equal. lia. }
  unfold Itoa. destruct (Z.ltb_spec n 0) as [Hneg|Hpos].
  - unfold ParseInt10. change (Ascii.eqb "-" "-") with true.
    change (Ascii.eqb "-" "+") with false. cbn match.
    rewrite ParseUint10_formatBits by lia.
    cbn [negb andb]. rewrite (proj2 (Z.ltb_ge _ _)) by lia.
    f_equal. lia.
  - destruct (formatBits_head 19 n "" Hpos) as (d & rest & Hd & Hfmt).
    unfold ParseInt10. rewrite Hfmt.
    destruct (Zbyte_digit_not_sign d Hd) as [-> ->].
    rewrite <- Hfmt, ParseUint10_formatBits by lia.
    cbn [negb andb]. by rewrite (proj2 (Z.leb_gt _ _)) by lia.
Qed.

Lemma ParseBool_FormatBool (b : bool) : ParseBool (FormatBool b) = inl b.
Proof. by destruct b. Qed.

Section Coercion.
Context `{GoRuntime}.

Lemma intBits_range : 1 ≤ intBits ≤ 64.
Proof. unfold intBits. destruct IntSize; lia. Qed.

(** The errors of [parseValue]: a malformed value or an unsupported type *)
Lemma parseValue_error_class (s : string) (t : type) (e : error) :
  parseValue s t = Err e → errClass e = MalformedValue ∨ errClass e = UnsupportedType.
Proof.
  unfold parseValue, numResult.
  destruct (kind t); try (intros [= <-]; by right).
  - destruct (Atoi s); [done|]. intros [= <-]. by left.
  - destruct (ParseInt10 s 64); [done|]. intros [= <-]. by left.
  - destruct (ParseFloat s); [done|]. intros [= <-]. by left.
  - destruct (ParseBool s); [done|]. intros [= <-]. by left.
Qed.

(** X21.  The round trip of the coercion for the kinds whose parsing and
    formatting are modelled here.  Coercing the canonical string of a
    string, of an [int] or [int64] in the range of its type, or of a bool
    ([strconv.Itoa], [FormatInt], [FormatBool]) back to its type gives the
    value.  For a defined type the coercion goes by the kind: it gives the
    value of the predeclared type, not one of the defined type.  Coercing
    any token to a type of another kind fails with the unsupported-type
    error naming the type. *)
Theorem parseValue_roundtrip_basic :
  (∀ (formatFloat : float64 → string) (v : value) (t : type),
     primitiveType v = Some t → t ≠ TFloat64 → inRange v →
     parseValue (render formatFloat v) t = Ok v)
  ∧ (∀ (s name : string) (b : basic),
       parseValue s (TNamed name b) = parseValue s (basicType b))
  ∧ (∀ (s : string) (t : type),
       kind t ∉ [KString; KInt; KInt64; KFloat64; KBool] →
       parseValue s t = Err (EUnsupportedType (TypeString t))
       ∧ errClass (EUnsupportedType (TypeString t)) = UnsupportedType).
Proof.
  split_and!.
  - intros formatFloat v t Ht Hnf Hrange.
    destruct v; try done; injection Ht as <-; unfold parseValue, numResult;
      cbn [kind render].
    + done.
    + unfold Atoi. rewrite ParseInt10_Itoa; [done|apply intBits_range|done].
    + rewrite ParseInt10_Itoa; [done|lia|]. cbn in Hrange. lia.
    + done.
    + by rewrite ParseBool_FormatBool.
  - intros s name b. unfold parseValue. by destruct b.
  - intros s t Hk. split; [|done]. unfold parseValue.
    destruct t as [| | | | |e|n st|n|n b]; try done; try destruct b; exfalso; apply Hk;
      cbn [kind]; repeat first [by left | right].
Qed.
End Coercion.

(** ** The binder does not panic *)

Section NoPanic.
Context `{GoRuntime}.
Implicit Types (st fs : list (StructField type)) (m : FieldMaps) (sv : list value).








(** [parseValue] makes a value of the predeclared type of the kind. *)
Lemma parseValue_hasType s t v : parseValue s t = Ok v → hasType v (unnamed t).
Proof.
  unfold parseValue, numResult, hasType.
  destruct t as [| | | | |e|n st|n|n b]; try destruct b; cbn [kind unnamed basicType]; try done.
  all: try (by intros [= <-]).
  all: match goal with |- context [match ?r with inl _ => _ | inr _ => _ end] =>
         destruct r; [|done] end; by intros [= <-].
Qed.

Lemma unnamed_not_defined t : defined t = false → unnamed t = t.
Proof. by destruct t. Qed.

(** What [reflect]'s [Set] does with a parsed value. *)
Lemma reflect_Set_parsed s t v canSet :
  parseValue s t = Ok v →
  reflect_Set canSet t v =
    if negb canSet then
      Panicked "reflect: reflect.Value.Set using value obtained using unexported field"
    else if defined t then
      Panicked ("reflect.Set: value of type " +:+ typeName v
                  +:+ " is not assignable to type " +:+ TypeString t)
    else Ok v.
Proof.
  intros Hp. unfold reflect_Set. destruct canSet; [|done]. cbn [negb].
  pose proof (parseValue_hasType _ _ _ Hp) as Ht. unfold hasType in Ht.
  destruct (defined t) eqn:Hd.
  - destruct t; try done. cbn [unnamed] in Ht.
    assert (hasTypeb v (TNamed name under) = false) as ->; [|done].
    revert Hp. unfold parseValue, numResult. destruct under; cbn [kind]; try (by intros [= <-]).
    all: match goal with |- context [match ?r with inl _ => _ | inr _ => _ end] =>
           destruct r; [|done] end; by intros [= <-].
  - rewrite (unnamed_not_defined _ Hd) in Ht. by rewrite Ht.
Qed.

(** [parseAndSetField] on a field: the error of the parse; a panic of
    [reflect] when the parsed value is not assignable (a defined type) or
    the field is not exported; the struct with the parsed value in the
    field otherwise. *)
Lemma parseAndSetField_cases st sv fi tok f :
  st !! fi = Some f →
  parseAndSetField st sv fi tok =
    match FType f with
    | TPtr e =>
      match parseValue tok e with
      | Ok v =>
        if defined e then
          Panicked ("reflect.Set: value of type " +:+ typeName v
                      +:+ " is not assignable to type " +:+ TypeString e)
        else if exported f then Ok (<[fi := VPtr v]> sv)
        else Panicked "reflect: reflect.Value.Set using value obtained using unexported field"
      | Err e => Err e
      | Panicked m => Panicked m
      end
    | t =>
      match parseValue tok t with
      | Ok v =>
        if negb (exported f) then
          Panicked "reflect: reflect.Value.Set using value obtained using unexported field"
        else if defined t then
          Panicked ("reflect.Set: value of type " +:+ typeName v
                      +:+ " is not assignable to type " +:+ TypeString t)
        else Ok (<[fi := v]> sv)
      | Err e => Err e
      | Panicked m => Panicked m
      end
    end.
Proof.
  intros Hf. unfold parseAndSetField, fieldType, settable. rewrite Hf.
  destruct (FType f) as [| | | | |e|n st'|n|n b] eqn:Hft.
  6:{ destruct (parseValue tok e) as [v| |] eqn:Hp; [|done..].
      rewrite (reflect_Set_parsed _ _ _ true Hp). cbn [negb].
      destruct (defined e) eqn:Hd; [done|].
      unfold reflect_Set. destruct (exported f); [|done]. cbn [negb hasTypeb].
      pose proof (parseValue_hasType _ _ _ Hp) as Ht. unfold hasType in Ht.
      rewrite (unnamed_not_defined _ Hd) in Ht. by rewrite Ht. }
  all: match goal with |- context [parseValue ?s ?t] =>
         destruct (parseValue s t) as [v| |] eqn:Hp; [|done..];
         rewrite (reflect_Set_parsed _ _ _ (exported f) Hp);
         destruct (exported f); cbn [negb]; [|done];
         by destruct (defined t) end.
Qed.


(** [setBoolField] on a bool or *bool field: the field set to true, or a
    panic of [reflect] when the field is not exported. *)
Lemma setBoolField_cases st sv fi f :
  st !! fi = Some f → isBoolField (FType f) = true →
  setBoolField st sv fi =
    if exported f then
      Ok (<[fi := match FType f with
                  | TPtr (TNamed n _) => VPtr (VNamed n (VBool true))
                  | TPtr _ => VPtr (VBool true)
                  | TNamed n _ => VNamed n (VBool true)
                  | _ => VBool true
                  end]> sv)
    else
      Panicked (match FType f with
                | TPtr _ =>
                  "reflect: reflect.Value.Set using value obtained using unexported field"
                | _ =>
                  "reflect: reflect.Value.SetBool using value obtained using unexported field"
                end).
Proof.
  intros Hf Hb. unfold setBoolField, fieldType, settable. rewrite Hf.
  destruct (FType f) as [| | | | |e|n st'|n|n b] eqn:Hft; try done.
  - cbn. unfold reflect_SetBool. by destruct (exported f).
  - unfold isBoolField in Hb. cbn [kind] in Hb. rewrite bool_decide_eq_false_2 in Hb by done.
    cbn [orb] in Hb. rewrite bool_decide_eq_false_2 by done. rewrite Hb.
    unfold reflect_SetBool, reflect_Set. cbn [negb].
    apply bool_decide_eq_true in Hb.
    destruct e as [| | | | |e'|n' st''|n'|n' b']; try done.
    + by destruct (exported f).
    + destruct b'; try done. destruct (exported f); [|done].
      cbn [negb hasTypeb basicType]. by rewrite bool_decide_eq_true_2.
  - destruct b; try done. cbn. unfold reflect_SetBool. by destruct (exported f).
Qed.









End NoPanic.

(** ** The positional phase of the struct binder *)

Section Positional.
Context `{GoRuntime}.
Implicit Types (st : list (StructField type)) (pos : gmap Z nat)
  (sv : list value) (raw : list string) (ps : list Z) (p : Z).

Lemma maxPosition_fold (l : list (Z * nat)) :
  let M := foldr (λ kv max, if max <? kv.1 then kv.1 else max) (-1) l in
  -1 ≤ M ∧ (∀ kv, kv ∈ l → kv.1 ≤ M) ∧ (M = -1 ∨ ∃ kv, kv ∈ l ∧ kv.1 = M).
Proof.
  induction l as [|kv l (IH1 & IH2 & IH3)]; cbn.
  - split_and!; [lia| |by left]. intros kv Hkv. by apply elem_of_nil in Hkv.
  - destruct (Z.ltb_spec (foldr (λ kv max, if max <? kv.1 then kv.1 else max) (-1) l) kv.1).
    + split_and!; [lia| |].
      * intros kv' [->|Hin]%elem_of_cons; [lia|]. specialize (IH2 _ Hin). lia.
      * right. exists kv. split; [left|done].
    + split_and!; [done| |].
      * intros kv' [->|Hin]%elem_of_cons; [lia|]. by apply IH2.
      * destruct IH3 as [?|(kv' & Hin & ?)]; [by left|].
        right. exists kv'. split; [by right|done].
Qed.

(** [maxPosition] is the greatest declared index, or -1 when all are
    below. *)
Lemma maxPosition_spec pos :
  -1 ≤ maxPosition pos
  ∧ (∀ p, is_Some (pos !! p) → p ≤ maxPosition pos)
  ∧ (maxPosition pos = -1 ∨ is_Some (pos !! maxPosition pos)).
Proof.
  unfold maxPosition.
  destruct (maxPosition_fold (map_to_list pos)) as (H1 & H2 & H3).
  split_and!; [done| |].
  - intros p [fi Hp]. apply (H2 (p, fi)). by apply elem_of_map_to_list.
  - destruct H3 as [?|([k fi] & Hin & Hk)]; [by left|].
    right. cbn in Hk. rewrite <- Hk. apply elem_of_map_to_list in Hin. eauto.
Qed.

(** With a greatest declared index [M], the loop runs over 0..M. *)
Lemma positions_visited pos M :
  is_Some (pos !! M) → (∀ p, is_Some (pos !! p) → p ≤ M) →
  seqZ 0 (maxPosition pos + 1) = seqZ 0 (M + 1).
Proof.
  intros HM Hmax. destruct (maxPosition_spec pos) as (H1 & H2 & H3).
  specialize (H2 _ HM). destruct H3 as [Hm|Hs].
  - rewrite Hm. cbn. assert (M + 1 ≤ 0) by lia.
    unfold seqZ. replace (Z.to_nat (M + 1)) with 0%nat by lia. done.
  - specialize (Hmax _ Hs). by replace M with (maxPosition pos) by lia.
Qed.

Lemma maxInt_pos `{GoRuntime} : 0 < maxInt.
Proof.
  unfold maxInt, intBits. destruct IntSize; [change (32 - 1) with 31|change (64 - 1) with 63];
    lia.
Qed.

Lemma maxPosition_below `{GoRuntime} pos M :
  (∀ p, is_Some (pos !! p) → p ≤ M) → M < maxInt → maxPosition pos < maxInt.
Proof.
  intros Hmax Hb. destruct (maxPosition_spec pos) as (_ & _ & [->|Hs]).
  - pose proof maxInt_pos. lia.
  - specialize (Hmax _ Hs). lia.
Qed.

Lemma size_pos_nonempty pos M : is_Some (pos !! M) → (0 <? size pos)%nat = true.
Proof.
  intros [fi HM]. apply Nat.ltb_lt.
  destruct (decide (size pos = 0%nat)) as [Hz|]; [|lia].
  apply map_size_empty_iff in Hz. subst. by rewrite lookup_empty in HM.
Qed.

(** The number of tokens the positional loop takes: one for every
    position that has a field, none for a gap. *)
Lemma positionalLoop_count st pos raw ps sv c sv' c' :
  positionalLoop st pos raw ps sv c = Ok (sv', c') →
  c' = (c + length (filter (λ p, is_Some (pos !! p)) ps))%nat.
Proof.
  revert sv c. induction ps as [|p ps IH]; intros sv c; cbn [positionalLoop].
  - intros [= _ <-]. cbn. lia.
  - rewrite filter_cons. destruct (pos !! p) as [fi|] eqn:Hp.
    + rewrite decide_True by eauto.
      destruct (raw !! c); [|done].
      destruct (parseAndSetField st sv fi s); [|done..].
      intros ->%IH. cbn. lia.
    + rewrite decide_False by (by intros [? ?]). apply IH.
Qed.

(** A successful [parseAndSetField] stores the coerced token in the field,
    behind a pointer when the field has pointer type, and leaves the other
    fields as they are. *)
Lemma parseAndSetField_Ok st sv fi tok sv' :
  parseAndSetField st sv fi tok = Ok sv' →
  ∃ f v, st !! fi = Some f ∧ bindable f = true
    ∧ parseValue tok (match FType f with TPtr e => e | t => t end) = Ok v
    ∧ sv' = <[fi := match FType f with TPtr _ => VPtr v | _ => v end]> sv.
Proof.
  destruct (st !! fi) as [f|] eqn:Hf.
  2:{ unfold parseAndSetField, fieldType. by rewrite Hf. }
  rewrite (parseAndSetField_cases st sv fi tok f Hf). unfold bindable.
  intros Hp. exists f.
  destruct (FType f) as [| | | | |e|n st'|n|n b];
    match type of Hp with
    | context [parseValue tok ?t] =>
      destruct (parseValue tok t) as [v| |]; [|done..]
    end; exists v; destruct (exported f); try done; cbn [negb defined] in *; try done;
    try (injection Hp as <-; done).
  - destruct (defined e); [done|]. by injection Hp as <-.
  - by destruct (defined e).
Qed.

(** A loop that returns normally has found a token at every position with
    a field. *)
Lemma positionalLoop_tokens st pos raw ps : ∀ sv c sv' c',
  positionalLoop st pos raw ps sv c = Ok (sv', c') →
  (c ≤ length raw)%nat → (c' ≤ length raw)%nat.
Proof.
  induction ps as [|p ps IH]; intros sv c sv' c'; cbn [positionalLoop].
  - by intros [= _ <-].
  - destruct (pos !! p) as [fi|]; [|apply IH].
    destruct (raw !! c) as [tok|] eqn:Htok; [|done].
    destruct (parseAndSetField st sv fi tok) as [sv1| |]; [|done..].
    intros Hl _. apply (IH _ _ _ _ Hl). apply lookup_lt_Some in Htok. lia.
Qed.

Lemma filter_rounds {A} (P : A → Prop) `{∀ x, Decision (P x)} (l : list A) (x : A) (n : nat) :
  x ∈ l → P x → (n ≤ length (filter P (mjoin (replicate n l))))%nat.
Proof.
  intros Hin HP. induction n as [|n IH]; [lia|].
  cbn [replicate]. change (mjoin (l :: replicate n l)) with (l ++ mjoin (replicate n l)).
  rewrite filter_app, length_app.
  assert (1 ≤ length (filter P l))%nat; [|lia].
  assert (x ∈ filter P l) as Hx by (by apply list_elem_of_filter).
  destruct (filter P l); [by apply elem_of_nil in Hx|cbn; lia].
Qed.

Lemma maxInt_in_round : maxInt ∈ seqZ (- 2 ^ (intBits - 1)) (2 ^ intBits).
Proof.
  apply elem_of_seqZ. unfold maxInt.
  assert (2 ^ intBits = 2 * 2 ^ (intBits - 1)) as ->.
  { rewrite <- Z.pow_succ_r by (pose proof intBits_range; lia). f_equal. lia. }
  assert (0 < 2 ^ (intBits - 1)) by (apply Z.pow_pos_nonneg; pose proof intBits_range; lia).
  lia.
Qed.

(** With the greatest [int] declared as a position, the counter of the
    loop wraps around and the loop does not return normally: the rounds
    listed take more tokens than there are. *)
Lemma wrapped_loop_fails st pos raw ps0 sv sv' c' :
  is_Some (pos !! maxInt) →
  positionalLoop st pos raw (ps0 ++ wrappedRounds raw) sv 0 ≠ Ok (sv', c').
Proof.
  intros Hmax Hok.
  pose proof (positionalLoop_tokens _ _ _ _ _ _ _ _ Hok ltac:(lia)) as Hle.
  apply positionalLoop_count in Hok. rewrite filter_app, length_app in Hok.
  pose proof (filter_rounds (λ p, is_Some (pos !! p)) _ maxInt (S (length raw))
                maxInt_in_round Hmax) as Hrounds.
  unfold wrappedRounds in Hok. lia.
Qed.

Lemma positionalLoop_gaps st pos raw (ps : list Z) sv c :
  Forall (λ p, pos !! p = None) ps →
  positionalLoop st pos raw ps sv c = Ok (sv, c).
Proof.
  induction 1 as [|p ps Hp _ IH]; cbn [positionalLoop]; [done|]. by rewrite Hp.
Qed.

Lemma positionalLoop_short st pos raw (ps1 ps2 : list Z) p sv c :
  Forall (λ q, pos !! q = None) ps1 → is_Some (pos !! p) → (length raw ≤ c)%nat →
  positionalLoop st pos raw (ps1 ++ p :: ps2) sv c = Err (ENotEnoughPositional p).
Proof.
  intros Hgaps [fi Hp] Hc. induction Hgaps as [|q ps1 Hq _ IH]; cbn [app positionalLoop].
  - by rewrite Hp, (lookup_ge_None_2 raw c Hc).
  - by rewrite Hq.
Qed.

Lemma positionalLoop_skip st pos raw (ps1 ps2 : list Z) sv c :
  Forall (λ q, pos !! q = None) ps1 →
  positionalLoop st pos raw (ps1 ++ ps2) sv c = positionalLoop st pos raw ps2 sv c.
Proof.
  induction 1 as [|q ps1 Hq _ IH]; cbn [app positionalLoop]; [done|]. by rewrite Hq.
Qed.

Lemma round_split :
  seqZ (- 2 ^ (intBits - 1)) (2 ^ intBits)
  = seqZ (- 2 ^ (intBits - 1)) (2 ^ intBits - 1) ++ [maxInt].
Proof.
  assert (2 ^ intBits = 2 * 2 ^ (intBits - 1)) as Hpow.
  { rewrite <- Z.pow_succ_r by (pose proof intBits_range; lia). f_equal. lia. }
  assert (0 < 2 ^ (intBits - 1)) by (apply Z.pow_pos_nonneg; pose proof intBits_range; lia).
  replace (2 ^ intBits) with ((2 ^ intBits - 1) + 1) at 1 by lia.
  rewrite seqZ_app by lia. f_equal.
  rewrite seqZ_cons by lia. rewrite seqZ_nil by lia. f_equal. unfold maxInt. lia.
Qed.

(** The run of the loop for a struct type whose only position is the
    greatest [int], on one token: the first pass stores the token, and the
    pass after the counter has wrapped around finds no token left. *)
Lemma wrapped_loop_one_token st pos tok sv fi sv1 :
  (∀ p, is_Some (pos !! p) → p = maxInt) → pos !! maxInt = Some fi →
  parseAndSetField st sv fi tok = Ok sv1 →
  positionalLoop st pos [tok] (seqZ 0 (maxInt + 1)) sv 0 = Ok (sv1, 1%nat)
  ∧ positionalLoop st pos [tok] (seqZ 0 (maxInt + 1) ++ wrappedRounds [tok]) sv 0
    = Err (ENotEnoughPositional maxInt).
Proof.
  intros Honly Hmax Hset. pose proof maxInt_pos as Hpos.
  assert (Hgaps : ∀ lo n, lo + n ≤ maxInt → Forall (λ q, pos !! q = None) (seqZ lo n)).
  { intros lo n Hle. apply Forall_seqZ. intros q Hq.
    destruct (pos !! q) eqn:Hpq; [|done].
    assert (q = maxInt) by (apply Honly; eauto). lia. }
  assert (seqZ 0 (maxInt + 1) = seqZ 0 maxInt ++ [maxInt]) as ->.
  { rewrite seqZ_app by lia. by f_equal. }
  split.
  - rewrite positionalLoop_skip by (apply Hgaps; lia).
    cbn [positionalLoop]. rewrite Hmax. cbn [lookup list_lookup]. by rewrite Hset.
  - rewrite <- app_assoc, positionalLoop_skip by (apply Hgaps; lia).
    cbn [app positionalLoop]. rewrite Hmax. cbn [lookup list_lookup]. rewrite Hset.
    unfold wrappedRounds. cbn [length replicate].
    change (mjoin (?l :: ?ls)) with (l ++ mjoin ls).
    rewrite round_split, <- app_assoc. cbn [app].
    apply positionalLoop_short; [|by eexists|cbn; lia].
    apply Hgaps. unfold maxInt.
    assert (2 ^ intBits = 2 * 2 ^ (intBits - 1)) as ->; [|lia].
    rewrite <- Z.pow_succ_r by (pose proof intBits_range; lia). f_equal. lia.
Qed.

(** C7, as amended.  For a record type with a declared positional index,
    let [M] be the greatest one, and let it be below [math.MaxInt].  The
    binder visits the positions 0, 1, ..., M in this order before it scans
    options.  At a position with a field one token is taken from the cursor
    and coerced into the field (the cursor moves by one); when no token is
    left the binder fails with the insufficient-arguments error for that
    position; a position without a field is passed over, cursor and struct
    unchanged.  So the loop takes as many tokens as there are positions
    with a field. *)
Theorem positional_phase st raw name M :
  let m := buildFieldMaps st in
  let pos := posFields m in
  is_Some (pos !! M) → (∀ p, is_Some (pos !! p) → p ≤ M) → M < maxInt →
  (* the positions visited, in order *)
  parseStructArgs raw (TStruct name st) =
    match positionalLoop st pos raw (seqZ 0 (M + 1)) (map (λ f, zero (FType f)) st) 0 with
    | Ok (sv1, consumed) =>
      match scanOptions st m (drop consumed raw) sv1 consumed with
      | Ok (sv2, _) => Ok (VStruct sv2, consumed)
      | Err e => Err e
      | Panicked msg => Panicked msg
      end
    | Err e => Err e
    | Panicked msg => Panicked msg
    end
  ∧ (∀ k : nat, Z.of_nat k ≤ M → seqZ 0 (M + 1) !! k = Some (Z.of_nat k))
  (* a position without a field *)
  ∧ (∀ p ps sv c, pos !! p = None →
       positionalLoop st pos raw (p :: ps) sv c = positionalLoop st pos raw ps sv c)
  (* a position with a field, no token left *)
  ∧ (∀ p ps sv c fi, pos !! p = Some fi → (length raw ≤ c)%nat →
       positionalLoop st pos raw (p :: ps) sv c = Err (ENotEnoughPositional p)
       ∧ errClass (ENotEnoughPositional p) = InsufficientArgs)
  (* a position with a field and a token *)
  ∧ (∀ p ps sv c fi tok, pos !! p = Some fi → raw !! c = Some tok →
       positionalLoop st pos raw (p :: ps) sv c =
         match parseAndSetField st sv fi tok with
         | Ok sv' => positionalLoop st pos raw ps sv' (S c)
         | Err e => Err (EPositional p e)
         | Panicked msg => Panicked msg
         end)
  (* the coercion into the field *)
  ∧ (∀ sv fi tok sv', parseAndSetField st sv fi tok = Ok sv' →
       ∃ f v, st !! fi = Some f ∧ bindable f = true
         ∧ parseValue tok (match FType f with TPtr e => e | t => t end) = Ok v
         ∧ sv' = <[fi := match FType f with TPtr _ => VPtr v | _ => v end]> sv)
  (* the tokens taken *)
  ∧ (∀ ps sv c sv' c', positionalLoop st pos raw ps sv c = Ok (sv', c') →
       c' = (c + length (filter (λ p, is_Some (pos !! p)) ps))%nat).
Proof.
  intros m pos HM Hmax Hbound. split_and!.
  - unfold parseStructArgs. fold m. fold pos.
    rewrite (size_pos_nonempty _ _ HM), (positions_visited _ _ HM Hmax).
    rewrite (proj2 (Z.eqb_neq (maxPosition pos) maxInt)), app_nil_r.
    2:{ pose proof (maxPosition_below _ _ Hmax Hbound). lia. }
    destruct (positionalLoop st pos raw (seqZ 0 (M + 1)) _ 0) as [[sv1 c]| |]; [|done..].
    by destruct (scanOptions st m (drop c raw) sv1 c) as [[sv2 ?]| |].
  - intros k Hk. rewrite lookup_seqZ. split; lia.
  - intros p ps sv c Hp. cbn [positionalLoop]. by rewrite Hp.
  - intros p ps sv c fi Hp Hc. cbn [positionalLoop].
    by rewrite Hp, (lookup_ge_None_2 raw c Hc).
  - intros p ps sv c fi tok Hp Htok. cbn [positionalLoop]. rewrite Hp, Htok.
    by destruct (parseAndSetField st sv fi tok).
  - intros sv fi tok sv'. apply parseAndSetField_Ok.
  - intros ps sv c sv' c'. apply positionalLoop_count.
Qed.

(** The count returned by the binder is the number of positions with a
    field: it does not depend on the option scan. *)
Lemma parseStructArgs_count raw name st (v : value) (c : nat) :
  parseStructArgs raw (TStruct name st) = Ok (v, c) →
  let pos := posFields (buildFieldMaps st) in
  c = length (filter (λ p, is_Some (pos !! p)) (seqZ 0 (maxPosition pos + 1))).
Proof.
  intros Hp pos. unfold parseStructArgs in Hp. fold pos in Hp.
  destruct (0 <? size pos)%nat eqn:Hsz.
  - destruct (positionalLoop _ _ _ _ _ _) as [[sv1 c1]| |] eqn:Hl; [|done..].
    destruct (Z.eqb_spec (maxPosition pos) maxInt) as [Heq|Hne].
    { exfalso. apply wrapped_loop_fails in Hl; [done|].
      destruct (maxPosition_spec pos) as (_ & _ & [Hm|Hs]); [|by rewrite <- Heq].
      rewrite Hm in Heq. pose proof maxInt_pos. lia. }
    rewrite app_nil_r in Hl. apply positionalLoop_count in Hl.
    destruct (scanOptions _ _ _ _ _) as [[sv2 ?]| |]; [|done..].
    injection Hp as _ <-. by rewrite Hl.
  - destruct (scanOptions _ _ _ _ _) as [[sv2 ?]| |]; [|done..].
    injection Hp as _ <-.
    apply Nat.ltb_ge in Hsz. assert (pos = ∅) as ->.
    { apply map_size_empty_iff. lia. }
    done.
Qed.
End Positional.

Section PositionalExamples.
Local Existing Instance testRuntime.

Lemma GapArgs_positions :
  posFields (buildFieldMaps GapArgs) = <[0 := 0%nat]> (<[2 := 1%nat]> ∅).
Proof. by vm_compute. Qed.

Lemma GapArgs_max p : is_Some (posFields (buildFieldMaps GapArgs) !! p) → p ≤ 2.
Proof.
  rewrite GapArgs_positions. intros [fi Hp].
  destruct (decide (p = 0)) as [->|]; [lia|]. rewrite lookup_insert_ne in Hp by done.
  destruct (decide (p = 2)) as [->|]; [lia|]. rewrite lookup_insert_ne in Hp by done.
  by rewrite lookup_empty in Hp.
Qed.

Lemma GapArgs_has_2 : is_Some (posFields (buildFieldMaps GapArgs) !! 2).
Proof. exists 1%nat. by vm_compute. Qed.

Lemma LastArgs_positions :
  posFields (buildFieldMaps LastArgs) = {[ maxInt := 0%nat ]}.
Proof. by vm_compute. Qed.

(** C7 as stated fails for a record type that declares the greatest
    [int] as a positional index: the loop visits the positions from 0 to
    this index and stores the token of the one position with a field, but
    the test [p <= max] still holds, the counter wraps around, and on the
    next visit of the position no token is left; the binder fails, with
    one token for one positional field. *)
Lemma positional_phase_wrap_counterexample :
  posFields (buildFieldMaps LastArgs) !! maxInt = Some 0%nat
  ∧ (∀ p, is_Some (posFields (buildFieldMaps LastArgs) !! p) → p = maxInt)
  ∧ positionalLoop LastArgs (posFields (buildFieldMaps LastArgs)) ["x"]
      (seqZ 0 (maxInt + 1)) [VString ""] 0
    = Ok ([VString "x"], 1%nat)
  ∧ parseStructArgs ["x"] (TStruct "main.LastArgs" LastArgs)
    = Err (ENotEnoughPositional maxInt).
Proof.
  assert (Hmax : posFields (buildFieldMaps LastArgs) !! maxInt = Some 0%nat).
  { rewrite LastArgs_positions. apply lookup_singleton_eq. }
  assert (Honly : ∀ p, is_Some (posFields (buildFieldMaps LastArgs) !! p) → p = maxInt).
  { intros p [fi Hp]. rewrite LastArgs_positions in Hp.
    by apply lookup_singleton_Some in Hp as [<- _]. }
  destruct (wrapped_loop_one_token LastArgs (posFields (buildFieldMaps LastArgs)) "x"
              [VString ""] 0 [VString "x"] Honly Hmax eq_refl) as [Hpass Hwrap].
  split_and!; [done..|].
  unfold parseStructArgs. cbv zeta.
  assert ((0 <? size (posFields (buildFieldMaps LastArgs)))%nat = true) as ->.
  { rewrite LastArgs_positions. by rewrite map_size_singleton. }
  assert (maxPosition (posFields (buildFieldMaps LastArgs)) = maxInt) as ->
    by (by vm_compute).
  rewrite Z.eqb_refl.
  change (map (λ f, zero (FType f)) LastArgs) with [VString ""].
  by rewrite Hwrap.
Qed.

Lemma positional_phase_witness :
  parseStructArgs ["a.txt"; "7"; "--verbose"] (TStruct "GapArgs" GapArgs)
    = Ok (VStruct [VString "a.txt"; VInt 7; VBool true], 2%nat)
  ∧ parseStructArgs ["a.txt"] (TStruct "GapArgs" GapArgs)
    = Err (ENotEnoughPositional 2).
Proof.
  split.
  - destruct (positional_phase GapArgs ["a.txt"; "7"; "--verbose"] "GapArgs" 2
                GapArgs_has_2 GapArgs_max eq_refl) as (Hrun & _).
    refine (eq_trans Hrun _). reflexivity.
  - destruct (positional_phase GapArgs ["a.txt"] "GapArgs" 2
                GapArgs_has_2 GapArgs_max eq_refl) as (Hrun & _).
    refine (eq_trans Hrun _). reflexivity.
Defined.
End PositionalExamples.

(** ** The option scan of the struct binder *)

Section OptionScan.
Context `{GoRuntime}.
Implicit Types (st : list (StructField type)) (m : FieldMaps)
  (sv : list value) (name v : string) (rest : list string) (i fi : nat).

(** The scan on a token [name=v], where [name] is a long option name. *)
Lemma scan_long_with_value st m name v rest sv i :
  HasPrefix name "--" = true → Index name "=" = None →
  scanOptions st m ((name +:+ "=" +:+ v) :: rest) sv i =
    match longMap m !! name with
    | Some fi =>
      match parseAndSetField st sv fi v with
      | Err e => Err (EOptionValue name e)
      | Panicked msg => Panicked msg
      | Ok sv' => scanOptions st m rest sv' (i + 1)
      end
    | None => scanOptions st m rest sv (i + 1)
    end.
Proof.
  intros Hpre Hidx. cbn [scanOptions].
  rewrite (HasPrefix_app _ _ Hpre).
  change (name +:+ "=" +:+ v) with (name +:+ String "=" v).
  rewrite (Index_name_eq _ _ Hidx), slice_to_name_eq, slice_from_name_eq.
  done.
Qed.

(** The scan on a token [name] without "=", a long option name. *)
Lemma scan_long_bare st m name rest sv i :
  HasPrefix name "--" = true → Index name "=" = None →
  scanOptions st m (name :: rest) sv i =
    match longMap m !! name with
    | Some fi =>
      match fieldType st fi with
      | Err e => Err e
      | Panicked msg => Panicked msg
      | Ok ft =>
        if isBoolField ft then
          match setBoolField st sv fi with
          | Err e => Err e
          | Panicked msg => Panicked msg
          | Ok sv' => scanOptions st m rest sv' (i + 1)
          end
        else
          match rest with
          | [] => Err (EMissingValue name)
          | v :: rest' =>
            match parseAndSetField st sv fi v with
            | Err e => Err (EOptionValue name e)
            | Panicked msg => Panicked msg
            | Ok sv' => scanOptions st m rest' sv' (i + 2)
            end
          end
      end
    | None => Err (EUnknownOption name)
    end.
Proof. intros Hpre Hidx. cbn [scanOptions]. by rewrite Hpre, Hidx. Qed.

(** C4.  In the option scan, a token [name=value] whose name (a long
    option name, starting with "--" and without "=") is not registered is
    skipped: the scan goes on with the next token and the same struct.
    The same unknown name without "=" makes the scan fail with the
    unknown-option error.  A registered long option that is not a boolean
    takes the next token as its value, and fails with the missing-value
    error when no token follows. *)
Theorem scan_long_option_cases st m name sv i :
  HasPrefix name "--" = true → Index name "=" = None →
  (longMap m !! name = None →
     (∀ v rest, scanOptions st m ((name +:+ "=" +:+ v) :: rest) sv i
                = scanOptions st m rest sv (i + 1))
     ∧ (∀ rest, scanOptions st m (name :: rest) sv i = Err (EUnknownOption name))
     ∧ errClass (EUnknownOption name) = UnknownOption)
  ∧ (∀ fi ft,
       longMap m !! name = Some fi → fieldType st fi = Ok ft →
       isBoolField ft = false →
       scanOptions st m [name] sv i = Err (EMissingValue name)
       ∧ errClass (EMissingValue name) = MissingOptionValue
       ∧ ∀ v rest, scanOptions st m (name :: v :: rest) sv i =
           match parseAndSetField st sv fi v with
           | Ok sv' => scanOptions st m rest sv' (i + 2)
           | Err e => Err (EOptionValue name e)
           | Panicked msg => Panicked msg
           end).
Proof.
  intros Hpre Hidx. split.
  - intros Hnone. split_and!; [| |done].
    + intros v rest. by rewrite scan_long_with_value, Hnone.
    + intros rest. by rewrite scan_long_bare, Hnone.
  - intros fi ft Hfi Hft Hnb. split_and!; [|done|].
    + by rewrite scan_long_bare, Hfi, Hft, Hnb.
    + intros v rest. rewrite scan_long_bare, Hfi, Hft, Hnb by done.
      by destruct (parseAndSetField st sv fi v).
Qed.


Lemma parseAndSetField_bool st sv fi f v :
  st !! fi = Some f → exported f = true → FType f = TBool ∨ FType f = TPtr TBool →
  parseAndSetField st sv fi v =
    match ParseBool v with
    | inl b => Ok (<[fi := boolValue (FType f) b]> sv)
    | inr k => Err (ENum "ParseBool" v k)
    end.
Proof.
  intros Hf Hex Hft. rewrite (parseAndSetField_cases st sv fi v f Hf), Hex.
  destruct Hft as [-> | ->]; cbn [negb defined boolValue]; unfold parseValue; cbn [kind];
    unfold numResult; by destruct (ParseBool v).
Qed.

Lemma setBoolField_bool st sv fi f :
  st !! fi = Some f → exported f = true → FType f = TBool ∨ FType f = TPtr TBool →
  setBoolField st sv fi = Ok (<[fi := boolValue (FType f) true]> sv).
Proof.
  intros Hf Hex Hft. rewrite (setBoolField_cases st sv fi f Hf), Hex.
  - by destruct Hft as [-> | ->].
  - by destruct Hft as [-> | ->].
Qed.


(** C10, as amended.  A token [name=value] for a registered boolean (or
    pointer to boolean) field that the binder can set (the field is
    exported and its type is [bool] or [*bool]) parses the value as a
    boolean and assigns it: with "false" the field becomes false, with
    "notabool" the scan fails with the parse error of the value.  The bare
    [name] sets the field to true. *)
Theorem scan_bool_option_with_value st m name sv i fi f :
  HasPrefix name "--" = true → Index name "=" = None →
  longMap m !! name = Some fi → st !! fi = Some f →
  exported f = true → FType f = TBool ∨ FType f = TPtr TBool →
  let store b := <[fi := boolValue (FType f) b]> sv in
  (∀ v rest, scanOptions st m ((name +:+ "=" +:+ v) :: rest) sv i =
     match ParseBool v with
     | inl b => scanOptions st m rest (store b) (i + 1)
     | inr k => Err (EOptionValue name (ENum "ParseBool" v k))
     end)
  ∧ (∀ rest, scanOptions st m ((name +:+ "=false") :: rest) sv i
             = scanOptions st m rest (store false) (i + 1))
  ∧ (∀ rest, scanOptions st m ((name +:+ "=notabool") :: rest) sv i
             = Err (EOptionValue name (ENum "ParseBool" "notabool" ErrSyntax)))
  ∧ (∀ rest, scanOptions st m (name :: rest) sv i
             = scanOptions st m rest (store true) (i + 1))
  ∧ (length sv = length st → ∀ b, store b !! fi = Some (boolValue (FType f) b)).
Proof.
  intros Hpre Hidx Hfi Hf Hex Hft store.
  assert (Hgen : ∀ v rest,
    scanOptions st m ((name +:+ "=" +:+ v) :: rest) sv i =
      match ParseBool v with
      | inl b => scanOptions st m rest (store b) (i + 1)
      | inr k => Err (EOptionValue name (ENum "ParseBool" v k))
      end).
  { intros v rest.
    rewrite scan_long_with_value, Hfi, (parseAndSetField_bool _ _ _ f) by done.
    by destruct (ParseBool v). }
  split_and!.
  - exact Hgen.
  - intros rest. exact (Hgen "false" rest).
  - intros rest. exact (Hgen "notabool" rest).
  - intros rest. rewrite scan_long_bare by done. rewrite Hfi. unfold fieldType. rewrite Hf.
    assert (isBoolField (FType f) = true) as -> by (by destruct Hft as [-> | ->]).
    by rewrite (setBoolField_bool _ _ _ f).
  - intros Hlen b. apply list_lookup_insert_eq. rewrite Hlen.
    by eapply lookup_lt_Some.
Qed.
End OptionScan.

Section OptionScanExamples.
Local Existing Instance testRuntime.
Local Abbreviation st := CreateTextArgs.
Local Abbreviation m := CreateTextArgs_maps.
Local Abbreviation sv := CreateTextArgs_zero.

Lemma scan_long_option_cases_witness :
  (scanOptions st m ["--bogus=1"; "--usemarkdown"] sv 0
     = scanOptions st m ["--usemarkdown"] sv 1
   ∧ scanOptions st m ["--bogus"; "--usemarkdown"] sv 0
     = Err (EUnknownOption "--bogus"))
  ∧ (scanOptions st m ["--out"] sv 0 = Err (EMissingValue "--out")
     ∧ scanOptions st m ["--out"; "x.txt"; "--usemarkdown"] sv 0
       = Ok ([VString ""; VString "x.txt"; VBool true], 3%nat)).
Proof.
  split.
  - destruct (scan_long_option_cases st m "--bogus" sv 0 eq_refl eq_refl)
      as [Hunknown _].
    destruct (Hunknown eq_refl) as (Hskip & Hfail & _).
    split; [exact (Hskip "1" ["--usemarkdown"]) | exact (Hfail ["--usemarkdown"])].
  - destruct (scan_long_option_cases st m "--out" sv 0 eq_refl eq_refl)
      as [_ Hknown].
    destruct (Hknown 1%nat TString eq_refl eq_refl eq_refl) as (Hmissing & _ & Hvalue).
    split; [exact Hmissing|].
    refine (eq_trans (Hvalue "x.txt" ["--usemarkdown"]) _). reflexivity.
Defined.

(** C10 as stated fails for a boolean field the binder cannot set.  For a
    field that is not exported, and for a field of a defined bool type,
    [name=value] parses the value and then [reflect]'s [Set] panics; the
    bare name sets the field of the defined type to true. *)
Lemma scan_bool_option_panic_counterexample :
  longMap (buildFieldMaps FlagArgs) !! "--verbose" = Some 0%nat
  ∧ longMap (buildFieldMaps FlagArgs) !! "--force" = Some 1%nat
  ∧ isBoolField TBool = true
  ∧ isBoolField (TNamed "main.Flag" BBool) = true
  ∧ parseStructArgs ["--verbose=false"] (TStruct "main.FlagArgs" FlagArgs)
    = Panicked "reflect: reflect.Value.Set using value obtained using unexported field"
  ∧ parseStructArgs ["--force=false"] (TStruct "main.FlagArgs" FlagArgs)
    = Panicked "reflect.Set: value of type bool is not assignable to type main.Flag"
  ∧ parseStructArgs ["--force"] (TStruct "main.FlagArgs" FlagArgs)
    = Ok (VStruct [VBool false; VNamed "main.Flag" (VBool true)], 0%nat).
Proof. split_and!; by vm_compute. Qed.

Lemma scan_bool_option_with_value_witness :
  scanOptions st m ["--usemarkdown=false"] (<[2%nat := VBool true]> sv) 0
    = Ok ([VString ""; VString ""; VBool false], 1%nat)
  ∧ scanOptions st m ["--usemarkdown=notabool"] sv 0
    = Err (EOptionValue "--usemarkdown" (ENum "ParseBool" "notabool" ErrSyntax))
  ∧ scanOptions st m ["--usemarkdown"] sv 0
    = Ok ([VString ""; VString ""; VBool true], 1%nat).
Proof.
  destruct (scan_bool_option_with_value st m "--usemarkdown"
              (<[2%nat := VBool true]> sv) 0 2
              (mkField "UseMarkdown" TBool [("flag", ""); ("long", "--usemarkdown")])
              eq_refl eq_refl eq_refl eq_refl eq_refl (or_introl eq_refl))
    as (_ & Hfalse & _ & _ & _).
  destruct (scan_bool_option_with_value st m "--usemarkdown" sv 0 2
              (mkField "UseMarkdown" TBool [("flag", ""); ("long", "--usemarkdown")])
              eq_refl eq_refl eq_refl eq_refl eq_refl (or_introl eq_refl))
    as (_ & _ & Hbad & Hbare & _).
  split_and!.
  - refine (eq_trans (Hfalse []) _). reflexivity.
  - exact (Hbad []).
  - refine (eq_trans (Hbare []) _). reflexivity.
Defined.
End OptionScanExamples.

(** ** The count returned by the struct binder *)

Section TokenCount.
Local Existing Instance testRuntime.

(** C1 fails on the code.  The binder processes three tokens (one
    positional, two options: the option loop stops at index 3) and returns
    the count 1, the positional tokens only.  In [Run] the cursor is
    advanced by that count, so a parameter after the struct is bound to an
    option token the binder has already processed. *)
Lemma parseStructArgs_count_omits_options :
  parseStructArgs ["hello.txt"; "--out=out.txt"; "--usemarkdown"]
      (TStruct "cliapp.CreateTextArgs" CreateTextArgs)
    = Ok (VStruct [VString "hello.txt"; VString "out.txt"; VBool true], 1%nat)
  ∧ scanOptions CreateTextArgs CreateTextArgs_maps ["--out=out.txt"; "--usemarkdown"]
      [VString "hello.txt"; VString ""; VBool false] 1
    = Ok ([VString "hello.txt"; VString "out.txt"; VBool true], 3%nat)
  ∧ Run createApp testEnv (Some ["create"; "hello.txt"; "--usemarkdown"; "note"])
    = mkResult [Invoke [VStruct [VString "hello.txt"; VString ""; VBool true];
                        VString "--usemarkdown"]]
               (Return None).
Proof. split_and!; by vm_compute. Qed.
End TokenCount.

(** ** Command resolution *)

Section Resolve.
Context `{GoRuntime}.
Implicit Types (a : App) (E : Env) (args rest : list string) (h : handler)
  (best : Best) (L : list (string * handler)).

Lemma range_cmds_elem a E site name h :
  (name, h) ∈ range_cmds E site a ↔ cmds a !! name = Some h.
Proof.
  unfold range_cmds. rewrite shuffle_Permutation. apply elem_of_map_to_list.
Qed.

Lemma matchStep_unfold args best name h :
  matchStep args best (name, h) =
  if isCandidate args name && (bestLen best <? length (Fields name))%nat
  then mkBest name h (length (Fields name)) else best.
Proof.
  unfold matchStep, isCandidate. cbn zeta.
  destruct (length (Fields name) =? 0)%nat; [done|]. cbn [negb andb].
  destruct (Nat.ltb_spec (length args) (length (Fields name))) as [Hlt|Hge].
  - by rewrite (proj2 (Nat.leb_gt _ _)).
  - by rewrite (proj2 (Nat.leb_le _ _)).
Qed.

(** What the matching loop leaves: the first entry, in the order of the
    iteration, among the candidates with the most tokens. *)
Lemma matching_loop args L best0 :
  let best := foldl (matchStep args) best0 L in
  (bestLen best0 ≤ bestLen best)%nat
  ∧ (∀ name h, (name, h) ∈ L → isCandidate args name = true →
       (length (Fields name) ≤ bestLen best)%nat)
  ∧ (best = best0
     ∨ ∃ name h, (name, h) ∈ L ∧ isCandidate args name = true
         ∧ best = mkBest name h (length (Fields name))
         ∧ (bestLen best0 < bestLen best)%nat).
Proof.
  revert best0. induction L as [|[name h] L IH]; intros best0; cbn [foldl].
  - split_and!; [done| |by left]. intros ?? Hin. by apply elem_of_nil in Hin.
  - specialize (IH (matchStep args best0 (name, h))).
    cbn zeta in IH. destruct IH as (IH1 & IH2 & IH3).
    set (best := foldl (matchStep args) (matchStep args best0 (name, h)) L) in *.
    rewrite matchStep_unfold in IH1, IH3.
    destruct (isCandidate args name) eqn:Hc; cbn [andb] in *.
    + destruct (Nat.ltb_spec (bestLen best0) (length (Fields name))) as [Hlt|Hge].
      * cbn [bestLen] in *. split_and!; [lia| |].
        -- intros n' h' [[= -> ->]|Hin]%elem_of_cons Hc'; [done|]. by apply (IH2 n' h').
        -- right. destruct IH3 as [->|(n' & h' & Hin & Hc' & -> & Hlt')].
           ++ exists name, h. split_and!; [left|done|done|done].
           ++ exists n', h'. split_and!; [by right|done|done|cbn in *; lia].
      * split_and!; [done| |].
        -- intros n' h' [[= -> ->]|Hin]%elem_of_cons Hc'; [lia|]. by apply (IH2 n' h').
        -- destruct IH3 as [->|(n' & h' & Hin & Hc' & -> & Hlt')]; [by left|].
           right. exists n', h'. split_and!; [by right|done..].
    + split_and!; [done| |].
      * intros n' h' [[= -> ->]|Hin]%elem_of_cons Hc'; [congruence|]. by apply (IH2 n' h').
      * destruct IH3 as [->|(n' & h' & Hin & Hc' & -> & Hlt')]; [by left|].
        right. exists n', h'. split_and!; [by right|done..].
Qed.

Lemma isCandidate_two ta tb rest name :
  Fields name = [ta; tb] → isCandidate (ta :: tb :: rest) name = true.
Proof.
  intros Hf. unfold isCandidate. rewrite Hf. cbn.
  by rewrite !decide_True.
Qed.

(** The selected entry when a two-token path matches. *)
Lemma resolve_at_least_two a E first ta tb rest n2 h2 :
  cmds a !! n2 = Some h2 → Fields n2 = [ta; tb] →
  let args := ta :: tb :: rest in
  ∃ best, resolve a E first args = Ok best
    ∧ (2 ≤ bestLen best)%nat
    ∧ longestCandidate a args best.
Proof.
  intros Hn2 Hf2 args. unfold resolve.
  destruct (matching_loop args (range_cmds E 0 a) (mkBest "" zero_handler 0))
    as (_ & Hmax & Hsel).
  set (best := foldl (matchStep args) (mkBest "" zero_handler 0) (range_cmds E 0 a)) in *.
  assert (2 ≤ bestLen best)%nat as Hge.
  { specialize (Hmax n2 h2). rewrite Hf2 in Hmax. apply Hmax.
    - by apply range_cmds_elem.
    - by apply isCandidate_two. }
  destruct Hsel as [Heq|(name & h & Hin & Hc & Heq & _)].
  { rewrite Heq in Hge. cbn in Hge. lia. }
  exists best. rewrite (proj2 (Nat.eqb_neq _ _)) by lia.
  split_and!; [done|done|]. unfold longestCandidate.
  rewrite Heq in *. cbn [bestLen bestName bestHandler] in *.
  split_and!; [by apply range_cmds_elem in Hin|done|done|].
  intros name' h' Hlook Hc'. apply (Hmax name' h'); [|done].
  by apply range_cmds_elem.
Qed.

(** C2, as amended.  With a one-token path and a two-token path
    registered whose tokens begin the input, resolution selects the
    candidate with the greatest matched token-count: a registered path
    whose tokens begin the input, with its own handler and its number of
    tokens as length, and no registered path whose tokens begin the input
    has more tokens.  That count is at least two, so the one-token path is
    never selected; and when no other registered path of two or more
    tokens is a prefix of the input, the selection is the two-token path,
    its handler and the length 2.  In a run whose first token is not a
    help word, the tokens of the selected path are stripped, and the rest
    is bound (or the help of the command is shown, when the rest begins
    with "-h" or "--help"). *)
Theorem resolve_prefers_two_token_path a E ta tb rest n1 n2 h1 h2 :
  cmds a !! n1 = Some h1 → cmds a !! n2 = Some h2 →
  Fields n1 = [ta] → Fields n2 = [ta; tb] →
  let args := ta :: tb :: rest in
  (∃ best, resolve a E ta args = Ok best
     ∧ (2 ≤ bestLen best)%nat ∧ bestName best ≠ n1
     ∧ cmds a !! bestName best = Some (bestHandler best)
     ∧ isCandidate args (bestName best) = true
     ∧ bestLen best = length (Fields (bestName best))
     ∧ (∀ name h, cmds a !! name = Some h → isCandidate args name = true →
          (length (Fields name) ≤ bestLen best)%nat)
     ∧ (isHelpWord ta = false →
        prepare a E (Some args) =
          let rest' := drop (bestLen best) args in
          if asksHelp rest'
          then commandHelp a E (bestName best) (bestHandler best)
          else match bindArgs (bestName best) (bestHandler best) rest' with
               | Err e => Failed e
               | Panicked msg => Crashed msg
               | Ok parsed => Ready (bestHandler best) parsed
               end))
  ∧ ((∀ name h, cmds a !! name = Some h → name ≠ n2 →
        isCandidate args name = true → (length (Fields name) < 2)%nat) →
     resolve a E ta args = Ok (mkBest n2 h2 2)
     ∧ (isHelpWord ta = false →
        prepare a E (Some args) =
          if asksHelp rest
          then commandHelp a E n2 h2
          else match bindArgs n2 h2 rest with
               | Err e => Failed e
               | Panicked msg => Crashed msg
               | Ok parsed => Ready h2 parsed
               end)).
Proof.
  intros Hn1 Hn2 Hf1 Hf2 args.
  destruct (resolve_at_least_two a E ta ta tb rest n2 h2 Hn2 Hf2)
    as (best & Hres & Hge & Hlook & Hc & Hlen & Hmax).
  fold args in Hres, Hc, Hmax.
  split.
  - exists best. split_and!; [done|done| |done|done|done|done|].
    + intros Heq. rewrite Heq, Hf1 in Hlen. cbn in Hlen. lia.
    + intros Hhelp. unfold prepare. cbn [effectiveArgs]. unfold args at 1.
      fold args. by rewrite Hhelp, Hres.
  - intros Honly.
    assert (best = mkBest n2 h2 2) as ->.
    { destruct best as [name h n]. cbn [bestLen bestName bestHandler] in *.
      destruct (decide (name = n2)) as [->|Hne].
      - rewrite Hn2 in Hlook. injection Hlook as <-.
        rewrite Hf2 in Hlen. by rewrite Hlen.
      - specialize (Honly name h Hlook Hne Hc). lia. }
    split; [done|]. intros Hhelp.
    unfold prepare. cbn [effectiveArgs]. unfold args at 1.
    fold args. rewrite Hhelp, Hres. cbn [bestLen bestName bestHandler].
    done.
Qed.
End Resolve.

Section ResolveExamples.
Local Existing Instance testRuntime.

(** C2 as stated fails in two ways.  With "a b c" registered as well, the
    input a b c selects the three-token path, with length 3.  And when the
    one-token path is a help word, as with "help" and "help me", the input
    help me shows the global help: no path is selected, no token is
    stripped and no handler is called. *)
Lemma resolve_two_token_path_counterexample :
  (cmds pathsApp !! "a" = Some (handlerOf (say "A") "")
   ∧ cmds pathsApp !! "a b" = Some (handlerOf (say "AB") "")
   ∧ selected (resolve pathsApp testEnv "a" ["a"; "b"; "c"]) = Some ("a b c", 3%nat)
   ∧ selected (resolve pathsApp testEnv "a" ["a"; "b"; "c"]) ≠ Some ("a b", 2%nat)
   ∧ Run pathsApp testEnv (Some ["a"; "b"; "c"])
     = mkResult [Invoke []; Fprint Stdout "ABC"] (Return None))
  ∧ (cmds helpPathsApp !! "help" = Some (handlerOf (say "H") "")
     ∧ cmds helpPathsApp !! "help me" = Some (handlerOf (say "HM") "")
     ∧ prepare helpPathsApp testEnv (Some ["help"; "me"])
       = ShowHelp (printHelp helpPathsApp testEnv)
     ∧ Forall (λ ev, isInvoke ev = false)
         (trace (Run helpPathsApp testEnv (Some ["help"; "me"])))
     ∧ outcome (Run helpPathsApp testEnv (Some ["help"; "me"])) = Return None).
Proof.
  split; split_and!; try (by vm_compute).
  vm_compute. repeat constructor.
Qed.

Lemma twoPathsApp_cmds :
  cmds twoPathsApp
  = <["a b" := handlerOf (say "AB") ""]> (<["a" := handlerOf (say "A") ""]> ∅).
Proof. by vm_compute. Qed.

Lemma twoPathsApp_a : cmds twoPathsApp !! "a" = Some (handlerOf (say "A") "").
Proof. by vm_compute. Qed.

Lemma twoPathsApp_a_b : cmds twoPathsApp !! "a b" = Some (handlerOf (say "AB") "").
Proof. by vm_compute. Qed.

Lemma Fields_a : Fields "a" = ["a"].
Proof. by vm_compute. Qed.

Lemma Fields_a_b : Fields "a b" = ["a"; "b"].
Proof. by vm_compute. Qed.

Lemma twoPathsApp_only name h :
  cmds twoPathsApp !! name = Some h → name ≠ "a b" →
  isCandidate ["a"; "b"] name = true → (length (Fields name) < 2)%nat.
Proof.
  rewrite twoPathsApp_cmds. intros Hlook Hne _.
  rewrite lookup_insert_ne in Hlook by done.
  destruct (decide (name = "a")) as [->|Hne'].
  - rewrite Fields_a. cbn. lia.
  - rewrite lookup_insert_ne in Hlook by done. by rewrite lookup_empty in Hlook.
Qed.

Lemma resolve_prefers_two_token_path_witness :
  resolve twoPathsApp testEnv "a" ["a"; "b"]
    = Ok (mkBest "a b" (handlerOf (say "AB") "") 2)
  ∧ prepare twoPathsApp testEnv (Some ["a"; "b"]) = Ready (handlerOf (say "AB") "") [].
Proof.
  destruct (resolve_prefers_two_token_path twoPathsApp testEnv "a" "b" [] "a" "a b"
              (handlerOf (say "A") "") (handlerOf (say "AB") "")
              twoPathsApp_a twoPathsApp_a_b Fields_a Fields_a_b) as [_ Hsel].
  destruct (Hsel twoPathsApp_only) as [Hres Hprep].
  split; [exact Hres|].
  refine (eq_trans (Hprep _) _); by vm_compute.
Defined.
End ResolveExamples.

(** ** Help *)

Section Help.
Context `{GoRuntime}.
Implicit Types (a : App) (E : Env) (h : handler).

Lemma toLog_Fprintln a s : toLog a (Fprintln (Log (opts a)) s).
Proof. by eexists. Qed.

Lemma toLog_Fprint a s : toLog a (Fprint (Log (opts a)) s).
Proof. by eexists. Qed.

Lemma printCommonOptions_toLog a : Forall (toLog a) (printCommonOptions a).
Proof. repeat constructor; apply toLog_Fprintln. Qed.

Lemma printHelp_toLog a E : Forall (toLog a) (printHelp a E).
Proof.
  unfold printHelp. rewrite !Forall_app. split_and!.
  - destruct (root a); repeat constructor; apply toLog_Fprintln.
  - repeat constructor; apply toLog_Fprintln.
  - apply Forall_forall. intros ev [[name h'] [<- _]]%list_elem_of_In%in_map_iff.
    destruct (decide (help h' = "")); apply toLog_Fprint.
  - repeat constructor; apply toLog_Fprintln.
  - apply printCommonOptions_toLog.
Qed.

Lemma optionLines_toLog a ts : Forall (toLog a) (optionLines (Log (opts a)) ts).
Proof.
  unfold optionLines. apply Forall_forall.
  intros ev (t & _ & Hev)%list_elem_of_In%in_flat_map.
  destruct (structOf t) as [st|]; [|done].
  apply in_flat_map in Hev as (f & _ & Hev).
  destruct (Lookup (Tag f) "arg"); [done|].
  destruct (decide _); destruct Hev as [<-|[]]; apply toLog_Fprint.
Qed.

Lemma printCommandHelp_toLog a E name h :
  Forall (toLog a) (printCommandHelp a E name h).
Proof.
  unfold printCommandHelp. apply Forall_app. split.
  { destruct (decide (help h = "")); repeat constructor; apply toLog_Fprintln. }
  destruct (_ && _).
  - rewrite !Forall_app. split_and!.
    + repeat constructor; (apply toLog_Fprintln || apply toLog_Fprint).
    + apply Forall_forall. intros ev (i & t & -> & _)%elem_of_lookup_imap.
      apply toLog_Fprint.
    + repeat constructor; apply toLog_Fprintln.
    + apply printCommonOptions_toLog.
  - destruct (collectPositional (targs h)) as [posMap maxPos].
    rewrite !Forall_app. split_and!.
    + destruct (0 <=? maxPos); repeat constructor;
        (apply toLog_Fprintln || apply toLog_Fprint).
    + destruct (0 <=? maxPos); [|done]. rewrite !Forall_app. split_and!.
      * repeat constructor; apply toLog_Fprintln.
      * apply Forall_forall. intros ev (i & <- & _)%list_elem_of_In%in_map_iff.
        apply toLog_Fprint.
      * repeat constructor; apply toLog_Fprintln.
    + destruct (decide (name = "")); [|done]. rewrite !Forall_app. split_and!.
      * repeat constructor; apply toLog_Fprintln.
      * apply Forall_forall. intros ev (entry & <- & _)%list_elem_of_In%in_map_iff.
        apply toLog_Fprint.
      * repeat constructor; apply toLog_Fprintln.
    + repeat constructor; apply toLog_Fprintln.
    + apply optionLines_toLog.
Qed.

Lemma printHelp_nonempty a E : printHelp a E ≠ [].
Proof. unfold printHelp. by destruct (root a). Qed.

Lemma printCommandHelp_nonempty a E name h : printCommandHelp a E name h ≠ [].
Proof.
  unfold printCommandHelp. intros [_ Hnil]%app_eq_nil. revert Hnil.
  destruct (_ && _); [done|].
  destruct (collectPositional (targs h)) as [posMap maxPos]. done.
Qed.

End Help.

Section HelpText.
Context `{GoRuntime}.
Implicit Types (a : App) (E : Env) (h : handler) (w : Writer)
  (st fs : list (StructField type)) (f : StructField type).

(** The width computed by the first loop of [printHelp]. *)
Lemma width_loop (l : list (string * handler)) : ∀ m0,
  let M := foldl (λ max (entry : string * handler),
                    if (max <? len entry.1)%nat then len entry.1 else max) m0 l in
  (m0 ≤ M)%nat ∧ (∀ entry, entry ∈ l → (len entry.1 ≤ M)%nat)
  ∧ (M = m0 ∨ ∃ entry, entry ∈ l ∧ len entry.1 = M).
Proof.
  induction l as [|e l IH]; intros m0; cbn [foldl]; cbn zeta.
  - split_and!; [done| |by left]. intros entry Hin. by apply elem_of_nil in Hin.
  - specialize (IH (if (m0 <? len e.1)%nat then len e.1 else m0)). cbn zeta in IH.
    destruct IH as (H1 & H2 & H3). set (M := foldl _ _ l) in *.
    destruct (Nat.ltb_spec m0 (len e.1)) as [Hlt|Hge].
    + split_and!; [lia| |].
      * intros entry [->|Hin]%elem_of_cons; [done|by apply H2].
      * right. destruct H3 as [->|(entry & Hin & Hlen)].
        -- exists e. split; [left|done].
        -- exists entry. split; [by right|done].
    + split_and!; [done| |].
      * intros entry [->|Hin]%elem_of_cons; [lia|by apply H2].
      * destruct H3 as [->|(entry & Hin & Hlen)]; [by left|].
        right. exists entry. split; [by right|done].
Qed.

(** One round of the loop of [printCommandHelp] over the fields. *)
Lemma collect_step (acc : gmap Z string * Z) f :
  (let '(posMap, maxPos) := acc in
   match Lookup (Tag f) "arg" with
   | Some v =>
     match Atoi v with
     | inl n =>
       let d := match Lookup (Tag f) "help" with
                | Some d => if decide (d = "") then toWords (Name f) else d
                | None => toWords (Name f)
                end in
       (<[n := d]> posMap, if maxPos <? n then n else maxPos)
     | inr _ => acc
     end
   | None => acc
   end)
  = match Lookup (Tag f) "arg" with
    | Some v =>
      match Atoi v with
      | inl n => (<[n := argName f]> acc.1, if acc.2 <? n then n else acc.2)
      | inr _ => acc
      end
    | None => acc
    end.
Proof. destruct acc as [posMap maxPos]. unfold argName. done. Qed.

(** The greatest key of the table the loop has built, or -1. *)
Lemma collect_max st :
  let r := foldl (λ (acc : gmap Z string * Z) f,
             match Lookup (Tag f) "arg" with
             | Some v =>
               match Atoi v with
               | inl n => (<[n := argName f]> acc.1, if acc.2 <? n then n else acc.2)
               | inr _ => acc
               end
             | None => acc
             end) (∅, -1) st in
  -1 ≤ r.2 ∧ (∀ n, is_Some (r.1 !! n) → n ≤ r.2) ∧ (r.2 = -1 ∨ is_Some (r.1 !! r.2)).
Proof.
  induction st as [|f st IH] using rev_ind; cbn zeta.
  - cbn. split_and!; [done| |by left]. intros n [d Hd]. by rewrite lookup_empty in Hd.
  - rewrite foldl_app. cbn [foldl]. cbn zeta in IH. destruct IH as (H1 & H2 & H3).
    set (r := foldl _ _ st) in *.
    destruct (Lookup (Tag f) "arg") as [v|]; [|done].
    destruct (Atoi v) as [n|]; [|done]. cbn [fst snd].
    destruct (Z.ltb_spec r.2 n) as [Hlt|Hge].
    + split_and!; [lia| |right; by rewrite lookup_insert_eq].
      intros p [d Hd]. destruct (decide (n = p)) as [->|Hne]; [lia|].
      rewrite lookup_insert_ne in Hd by done. specialize (H2 p (ex_intro _ d Hd)). lia.
    + split_and!; [done| |].
      * intros p [d Hd]. destruct (decide (n = p)) as [->|Hne]; [lia|].
        rewrite lookup_insert_ne in Hd by done. by apply H2; exists d.
      * destruct H3 as [Hm|[d Hd]]; [by left|]. right.
        destruct (decide (n = r.2)) as [->|Hne]; [by rewrite lookup_insert_eq|].
        rewrite lookup_insert_ne by done. by exists d.
Qed.


(** The table and the greatest position [printCommandHelp] collects come
    from one loop over the fields of all struct parameters. *)
Lemma collectPositional_fields (ts : list type) :
  collectPositional ts
  = foldl (λ (acc : gmap Z string * Z) f,
             match Lookup (Tag f) "arg" with
             | Some v =>
               match Atoi v with
               | inl n => (<[n := argName f]> acc.1, if acc.2 <? n then n else acc.2)
               | inr _ => acc
               end
             | None => acc
             end) (∅, -1) (paramFields ts).
Proof.
  unfold collectPositional, paramFields.
  generalize ((∅, -1) : gmap Z string * Z).
  induction ts as [|t ts IH]; intros acc; [done|].
  cbn [foldl flat_map]. rewrite foldl_app, IH. f_equal.
  destruct (structOf t) as [st|]; [|done]. change (default [] (Some st)) with st. clear IH.
  revert acc. induction st as [|f st IHst]; intros acc; [done|].
  cbn [foldl]. rewrite collect_step. apply IHst.
Qed.

(** A position has a name in the table when a field declares it, and the
    name is that of the last field that does. *)
Lemma collect_names fs n :
  (foldl (λ (acc : gmap Z string * Z) f,
            match Lookup (Tag f) "arg" with
            | Some v =>
              match Atoi v with
              | inl n => (<[n := argName f]> acc.1, if acc.2 <? n then n else acc.2)
              | inr _ => acc
              end
            | None => acc
            end) (∅, -1) fs).1 !! n
  = argName <$> last (filter (λ f, declaresPos f n = true) fs).
Proof.
  induction fs as [|f fs IH] using rev_ind; [done|].
  rewrite foldl_app, filter_app. cbn [foldl]. set (r := foldl _ _ fs) in *.
  rewrite filter_cons, filter_nil.
  destruct (declaresPos f n) eqn:Hd; unfold declaresPos in Hd.
  - rewrite decide_True by done. rewrite last_snoc.
    destruct (Lookup (Tag f) "arg") as [v|]; [|done].
    destruct (Atoi v) as [p|]; [|done]. apply bool_decide_eq_true in Hd as ->.
    cbn [fst]. by rewrite lookup_insert_eq.
  - rewrite decide_False by done. rewrite app_nil_r, <- IH.
    destruct (Lookup (Tag f) "arg") as [v|]; [|done].
    destruct (Atoi v) as [p|]; [|done]. apply bool_decide_eq_false in Hd.
    cbn [fst]. by rewrite lookup_insert_ne.
Qed.

Lemma last_filter_Some {A} (P : A → Prop) `{∀ x, Decision (P x)} (l : list A) :
  is_Some (last (filter P l)) ↔ ∃ x, x ∈ l ∧ P x.
Proof.
  split.
  - intros [x Hx]. exists x. apply last_Some in Hx as [l' Hl'].
    assert (x ∈ filter P l) as [HP Hin]%list_elem_of_filter; [|done].
    rewrite Hl'. apply elem_of_app. right. by left.
  - intros (x & Hin & HP).
    assert (x ∈ filter P l) as Hx by (by apply list_elem_of_filter).
    destruct (filter P l) as [|y l' _] using rev_ind; [by apply elem_of_nil in Hx|].
    rewrite last_snoc. by eexists.
Qed.

Lemma collect_greatest fs :
  greatestPosition fs
    (foldl (λ (acc : gmap Z string * Z) f,
              match Lookup (Tag f) "arg" with
              | Some v =>
                match Atoi v with
                | inl n => (<[n := argName f]> acc.1, if acc.2 <? n then n else acc.2)
                | inr _ => acc
                end
              | None => acc
              end) (∅, -1) fs).2.
Proof.
  pose proof (collect_max fs) as (Hge & Hub & Hatt). cbn zeta in *.
  pose proof (collect_names fs) as Hnames.
  set (r := foldl _ _ fs) in *.
  assert (Hdom : ∀ n, is_Some (r.1 !! n) ↔ ∃ f, f ∈ fs ∧ declaresPos f n = true).
  { intros n. rewrite Hnames, fmap_is_Some. apply last_filter_Some. }
  split.
  - intros f n Hin Hd. apply Hub, Hdom. eauto.
  - destruct Hatt as [?|Hs]; [by left|].
    destruct (decide (r.2 = -1)) as [?|Hne]; [by left|].
    right. split; [lia|]. by apply Hdom.
Qed.

(** The option lines of [printCommandHelp]: the line of every field
    without [arg] tag, parameter after parameter. *)
Lemma optionLines_fields w (ts : list type) :
  optionLines w ts
  = map (optionLine w) (filter (λ f, Lookup (Tag f) "arg" = None) (paramFields ts)).
Proof.
  unfold optionLines, paramFields. induction ts as [|t ts IH]; [done|].
  cbn [flat_map]. rewrite filter_app, map_app, IH. f_equal.
  destruct (structOf t) as [st|]; [|done]. change (default [] (Some st)) with st. clear IH.
  induction st as [|f st IHst]; [done|].
  cbn [flat_map]. rewrite filter_cons, IHst. cbn beta.
  destruct (Lookup (Tag f) "arg") as [v|].
  - rewrite decide_False by done. done.
  - destruct (decide (@None string = None)) as [_|?]; [|done]. cbn [map app]. f_equal.
    unfold optionLine, helpShortName, helpLongName. cbn zeta.
    by destruct (decide (default "" (Lookup (Tag f) "short") = "")).
Qed.

Lemma declaresPos_inv f n :
  declaresPos f n = true → ∃ v, Lookup (Tag f) "arg" = Some v ∧ Atoi v = inl n.
Proof.
  unfold declaresPos. destruct (Lookup (Tag f) "arg") as [v|]; [|done].
  destruct (Atoi v) as [p|] eqn:Ha; [|done]. intros <-%bool_decide_eq_true. eauto.
Qed.

Lemma existsb_forallb_negb {A} (p : A → bool) (l : list A) :
  forallb (λ x, negb (p x)) l = negb (existsb p l).
Proof. induction l as [|x l IH]; [done|]. cbn. rewrite IH. by destruct (p x). Qed.

(** The name the help shows for a position, from the table. *)
Lemma positionName_table fs n :
  (let name := default "" ((foldl (λ (acc : gmap Z string * Z) f,
            match Lookup (Tag f) "arg" with
            | Some v =>
              match Atoi v with
              | inl n => (<[n := argName f]> acc.1, if acc.2 <? n then n else acc.2)
              | inr _ => acc
              end
            | None => acc
            end) (∅, -1) fs).1 !! n) in
   if decide (name = "") then "arg" +:+ Itoa n else name)
  = positionName fs n.
Proof.
  cbn zeta. rewrite collect_names. unfold positionName.
  destruct (last (filter _ fs)) as [f|]; cbn [fmap option_fmap option_map default]; [done|].
  by rewrite decide_True.
Qed.

(** The loop over the positions ends when every declared position is
    below [math.MaxInt], and only then when it is reached. *)
Lemma helpEnds_bound h :
  (∀ f n, f ∈ paramFields (targs h) → declaresPos f n = true → n < maxInt) →
  helpEnds h = true.
Proof.
  intros Hbound. unfold helpEnds. rewrite collectPositional_fields.
  destruct (collect_greatest (paramFields (targs h))) as [_ Hatt].
  apply orb_true_iff. right. apply negb_true_iff, Z.eqb_neq.
  pose proof maxInt_pos.
  destruct Hatt as [->|(_ & f & Hin & Hd)]; [lia|].
  specialize (Hbound f _ Hin Hd). lia.
Qed.

(** C6, as amended.  When the arguments of a run are empty, or begin with
    "-h", "--help" or "help", and every position that a struct parameter
    of the root handler declares is below [math.MaxInt] (so that the loop
    over the positions ends), no command is matched and no handler is
    called: run writes a help text to the log and returns nil.

    Without root handler the text is the global help: the usage line, the
    list of the commands with one line for each registered command in some
    order, the names padded to the greatest length of a name when a help
    text follows, and the common options.

    With a root handler it is the help of this handler, as
    [printCommandHelp] prints it under the empty name: its help text if it
    has one; the usage line with the name of the program; for a handler
    without struct parameter one line for each parameter with its index and
    type label, then the common options; and otherwise one line for each
    position from 0 to the greatest position that a field declares, with
    the name of the last field declaring the position, then the registered
    commands with their numbers of parameters, in some order, and the
    options: the help option and the line of every field without [arg]
    tag. *)
Theorem run_help a E args toks :
  effectiveArgs E args = Some toks →
  toks = [] ∨ (∃ first rest, toks = first :: rest
                 ∧ first ∈ ["-h"; "--help"; "help"]) →
  (∀ r f n, root a = Some r → f ∈ paramFields (targs r) →
     declaresPos f n = true → n < maxInt) →
  let w := Log (opts a) in
  let out := trace (Run a E args) in
  Run a E args =
    mkResult (match root a with
              | Some r => printCommandHelp a E "" r
              | None => printHelp a E
              end) (Return None)
  ∧ Forall (toLog a) out
  ∧ Forall (λ ev, isInvoke ev = false) out
  ∧ out ≠ []
  ∧ outcome (Run a E args) = Return None
  ∧ (root a = None →
     ∃ (M : nat) (lines : list event),
       out = [ Fprintln w "Usage: [options...]"; Fprintln w ""; Fprintln w "Commands:" ]
             ++ lines
             ++ [ Fprintln w ""; Fprintln w "Options:";
                  Fprintln w "  -h|--help               Show this help" ]
       ∧ lines ≡ₚ map (commandLine w M) (map_to_list (cmds a))
       ∧ (∀ name h, cmds a !! name = Some h → (len name ≤ M)%nat)
       ∧ (M = 0%nat ∨ ∃ name h, cmds a !! name = Some h ∧ len name = M))
  ∧ (∀ r, root a = Some r →
     let fs := paramFields (targs r) in
     let helpLines :=
       if decide (help r = "") then [] else [ Fprintln w (help r); Fprintln w "" ] in
     (targs r ≠ [] → existsb isStructParam (targs r) = false →
        out = helpLines
              ++ [ Fprint w ("Usage: " +:+ progName E +:+ " <args...>" +:+ nl);
                   Fprintln w ""; Fprintln w "Arguments:" ]
              ++ imap (parameterLine w) (targs r)
              ++ [ Fprintln w ""; Fprintln w "Options:";
                   Fprintln w "  -h|--help               Show this help" ])
     ∧ (targs r = [] ∨ existsb isStructParam (targs r) = true →
        ∃ (M : Z) (cmdLines : list event),
          greatestPosition fs M
          ∧ cmdLines ≡ₚ map (subcommandLine w) (map_to_list (cmds a))
          ∧ out = helpLines
                  ++ [ Fprint w ("Usage: " +:+ progName E
                                   +:+ (if 0 <=? M then " <args...> [options...]"
                                        else " [options...]") +:+ nl);
                       Fprintln w ""; Fprintln w "" ]
                  ++ (if 0 <=? M
                      then [ Fprintln w "Arguments:" ]
                           ++ map (positionLine w fs) (seqZ 0 (M + 1))
                           ++ [ Fprintln w "" ]
                      else [])
                  ++ [ Fprintln w "Commands:" ] ++ cmdLines ++ [ Fprintln w "" ]
                  ++ [ Fprintln w "Options:";
                       Fprintln w "  -h|--help               Show this help" ]
                  ++ map (optionLine w) (filter (λ f, Lookup (Tag f) "arg" = None) fs))).
Proof.
  intros Heff Htoks Hbound w out. subst out.
  assert (showRootHelp a E = ShowHelp (rootHelp a E)) as Hshow.
  { unfold showRootHelp, rootHelp, commandHelp.
    destruct (root a) as [r|] eqn:Hroot; [|done].
    by rewrite (helpEnds_bound r (λ f n, Hbound r f n eq_refl)). }
  assert (Run a E args = mkResult (rootHelp a E) (Return None)) as Hrun.
  { unfold Run, prepare. rewrite Heff.
    destruct Htoks as [->|(first & rest & -> & Hin)]; [by rewrite Hshow|].
    assert (isHelpWord first = true) as ->; [|by rewrite Hshow].
    unfold isHelpWord. set_unfold in Hin.
    destruct Hin as [->|[->|[->|[]]]]; done. }
  rewrite Hrun. unfold rootHelp. cbn [trace outcome].
  assert (Forall (toLog a) (match root a with
                            | Some r => printCommandHelp a E "" r
                            | None => printHelp a E
                            end)) as Hlog.
  { destruct (root a); [apply printCommandHelp_toLog|apply printHelp_toLog]. }
  split_and!; [done|done| | |done| |].
  - eapply Forall_impl; [exact Hlog|]. by intros ev [text ->].
  - destruct (root a); [apply printCommandHelp_nonempty|apply printHelp_nonempty].
  - intros Hroot. rewrite Hroot. unfold printHelp. rewrite Hroot. fold w.
    pose proof (width_loop (range_cmds E 1 a) 0%nat) as Hw. cbn zeta in Hw.
    set (M := foldl _ 0%nat (range_cmds E 1 a)) in *. destruct Hw as (_ & Hub & Hatt).
    exists M, (map (commandLine w M) (range_cmds E 2 a)). split_and!.
    + done.
    + unfold range_cmds. by rewrite shuffle_Permutation.
    + intros name h Hc. apply (Hub (name, h)). by apply range_cmds_elem.
    + destruct Hatt as [?|([name h] & Hin & Hlen)]; [by left|].
      right. exists name, h. split; [by apply range_cmds_elem in Hin|done].
  - intros r Hroot. rewrite Hroot. cbn zeta. unfold printCommandHelp. fold w.
    rewrite existsb_forallb_negb. split.
    + intros Hne Hprim. rewrite Hprim. cbn [negb andb].
      destruct (targs r) as [|t ts] eqn:Hts; [done|]. cbn [length Nat.ltb Nat.leb].
      done.
    + intros Hstruct.
      assert (negb (existsb isStructParam (targs r)) && (0 <? length (targs r))%nat = false)
        as ->.
      { destruct Hstruct as [-> | ->]; [|done]. by rewrite andb_false_r. }
      rewrite collectPositional_fields.
      pose proof (collect_greatest (paramFields (targs r))) as Hgreat.
      pose proof (positionName_table (paramFields (targs r))) as Hname.
      set (acc := foldl _ _ (paramFields (targs r))) in *.
      destruct acc as [posMap maxPos] eqn:Hacc. cbn [fst snd] in *.
      exists maxPos, (map (subcommandLine w) (range_cmds E 3 a)). split_and!.
      * done.
      * unfold range_cmds. by rewrite shuffle_Permutation.
      * rewrite optionLines_fields.
        destruct (decide (@eq string "" "")) as [_|?]; [|done].
        assert (map (λ i : Z,
                       Fprint w ("  [" +:+ fmt_d i +:+ "] "
                                   +:+ (if decide (default "" (posMap !! i) = "")
                                        then "arg" +:+ Itoa i
                                        else default "" (posMap !! i)) +:+ nl))
                    (seqZ 0 (maxPos + 1))
                = map (positionLine w (paramFields (targs r))) (seqZ 0 (maxPos + 1)))
          as ->.
        { apply map_ext. intros i. unfold positionLine, fmt_d. by rewrite <- Hname. }
        rewrite <- !app_assoc. by destruct (0 <=? maxPos).
Qed.
End HelpText.

Section HelpExamples.
Local Existing Instance testRuntime.

Lemma echoApp_positions r f n :
  root echoApp = Some r → f ∈ paramFields (targs r) → declaresPos f n = true → n < maxInt.
Proof. by intros [=]. Qed.

Lemma createRootApp_positions r f n :
  root createRootApp = Some r → f ∈ paramFields (targs r) → declaresPos f n = true →
  n < maxInt.
Proof.
  assert (root createRootApp = Some (handlerOf create "Create a text file")) as ->
    by (by vm_compute).
  intros [= <-]. change (paramFields (targs (handlerOf create "Create a text file")))
    with CreateTextArgs.
  unfold CreateTextArgs. intros Hin (v & Hl & Ha)%declaresPos_inv.
  repeat (apply elem_of_cons in Hin as [->|Hin]); [| | |by apply elem_of_nil in Hin];
    vm_compute in Hl; try done.
  injection Hl as <-. vm_compute in Ha. by injection Ha as <-.
Qed.

(** C6 as stated fails for a root handler with a struct field that
    declares the greatest [int] as its position: the loop of
    [printCommandHelp] over the positions does not end, and run does not
    return. *)
Lemma run_help_no_return_counterexample :
  root lastApp = Some (handlerOf takeLast "")
  ∧ declaresPos (mkField "Last" TString [("arg", "9223372036854775807")]) maxInt = true
  ∧ Run lastApp testEnv (Some [])
    = mkResult [ Fprint Stdout ("Usage: prog <args...> [options...]" +:+ nl);
                 Fprint Stdout nl;
                 Fprint Stdout nl;
                 Fprint Stdout ("Arguments:" +:+ nl) ] NoReturn
  ∧ outcome (Run lastApp testEnv (Some ["--help"])) = NoReturn
  ∧ ∀ err, outcome (Run lastApp testEnv (Some [])) ≠ Return err.
Proof. split_and!; by vm_compute. Qed.

Lemma run_help_witness :
  Run echoApp testEnv (Some [])
    = mkResult [ Fprint Stdout ("Usage: [options...]" +:+ nl);
                 Fprint Stdout nl;
                 Fprint Stdout ("Commands:" +:+ nl);
                 Fprint Stdout ("  echo" +:+ nl);
                 Fprint Stdout nl;
                 Fprint Stdout ("Options:" +:+ nl);
                 Fprint Stdout ("  -h|--help               Show this help" +:+ nl) ]
               (Return None)
  ∧ outcome (Run echoApp testEnv (Some ["help"; "echo"])) = Return None
  ∧ Run createRootApp testEnv (Some ["--help"])
    = mkResult [ Fprint Stdout ("Create a text file" +:+ nl);
                 Fprint Stdout nl;
                 Fprint Stdout ("Usage: prog <args...> [options...]" +:+ nl);
                 Fprint Stdout nl;
                 Fprint Stdout nl;
                 Fprint Stdout ("Arguments:" +:+ nl);
                 Fprint Stdout ("  [0] input" +:+ nl);
                 Fprint Stdout nl;
                 Fprint Stdout ("Commands:" +:+ nl);
                 Fprint Stdout ("  echo (args: 1)" +:+ nl);
                 Fprint Stdout nl;
                 Fprint Stdout ("Options:" +:+ nl);
                 Fprint Stdout ("  -h|--help               Show this help" +:+ nl);
                 Fprint Stdout ("  -o|--out <string>    " +:+ nl);
                 Fprint Stdout ("  --usemarkdown    " +:+ nl) ]
               (Return None).
Proof.
  split_and!.
  - destruct (run_help echoApp testEnv (Some []) [] eq_refl (or_introl eq_refl)
                echoApp_positions) as (Hrun & _).
    refine (eq_trans Hrun _). by vm_compute.
  - destruct (run_help echoApp testEnv (Some ["help"; "echo"]) ["help"; "echo"] eq_refl)
      as (_ & _ & _ & _ & Hout & _); [|exact echoApp_positions|exact Hout].
    right. exists "help", ["echo"]. split; [done|]. set_solver.
  - destruct (run_help createRootApp testEnv (Some ["--help"]) ["--help"] eq_refl)
      as (Hrun & _); [|exact createRootApp_positions|].
    { right. exists "--help", []. split; [done|]. set_solver. }
    refine (eq_trans Hrun _). by vm_compute.
Defined.
End HelpExamples.

(** ** Pure positional mode *)

Section PositionalMode.
Context `{GoRuntime}.
Implicit Types (a : App) (E : Env) (h : handler) (rawArgs : list string).

Lemma bindPositional_error_class name rawArgs ts i parsed e :
  bindPositional name rawArgs ts i parsed = Err e →
  errClass e = MalformedValue ∨ errClass e = UnsupportedType.
Proof.
  revert i parsed. induction ts as [|t ts IH]; intros i parsed; cbn [bindPositional]; [done|].
  destruct (rawArgs !! i) as [tok|]; [|done].
  destruct (parseValue tok t) as [v|e'|] eqn:Hp; [apply IH| |done].
  intros [= <-]. cbn [errClass]. by eapply parseValue_error_class.
Qed.

Lemma find_prefix_Some rawArgs tok :
  List.find (λ arg, HasPrefix arg "--") rawArgs = Some tok →
  tok ∈ rawArgs ∧ HasPrefix tok "--" = true.
Proof. intros [Hin Hp]%find_some. split; [by apply list_elem_of_In|done]. Qed.

Lemma find_prefix_None rawArgs :
  List.find (λ arg, HasPrefix arg "--") rawArgs = None ↔
  Forall (λ arg, HasPrefix arg "--" = false) rawArgs.
Proof.
  split.
  - intros Hn. apply Forall_forall. intros x Hx.
    apply (find_none _ _ Hn). by apply list_elem_of_In.
  - intros Hall. destruct (List.find _ rawArgs) as [tok|] eqn:Hf; [|done].
    apply find_prefix_Some in Hf as [Hin Hp].
    rewrite Forall_forall in Hall. specialize (Hall _ Hin). congruence.
Qed.

(** The errors of [bindArgs] for a handler without struct parameter. *)
Lemma bindArgs_positional_mode name h rawArgs :
  existsb isStructParam (targs h) = false →
  (∀ tok, List.find (λ arg, HasPrefix arg "--") rawArgs = Some tok →
     bindArgs name h rawArgs = Err (EUnknownOption tok))
  ∧ (List.find (λ arg, HasPrefix arg "--") rawArgs = None →
     length rawArgs ≠ length (targs h) →
     bindArgs name h rawArgs = Err (EWrongNumber name (length (targs h)) (length rawArgs)))
  ∧ (∀ e, bindArgs name h rawArgs = Err e → errClass e = ArgCountMismatch →
     List.find (λ arg, HasPrefix arg "--") rawArgs = None
     ∧ length rawArgs ≠ length (targs h)).
Proof.
  intros Hpos. unfold bindArgs. rewrite Hpos. split_and!.
  - by intros tok ->.
  - intros -> Hne. by rewrite (proj2 (Nat.eqb_neq _ _) Hne).
  - intros e. destruct (List.find _ rawArgs) as [tok|]; [by intros [= <-]|].
    destruct (Nat.eqb_spec (length rawArgs) (length (targs h))) as [Heq|Hne]; cbn [negb].
    + intros [?|?]%bindPositional_error_class; congruence.
    + done.
Qed.

(** C3, as amended.  For a handler without record-typed parameter, in a
    run whose first token is not "-h", "--help" or "help" (the run then
    shows the help of the root handler, or the global help, and matches no
    command) and whose first remaining token is not "-h" or "--help"
    (which shows the help of the command instead): when a remaining token
    begins with "--", run fails with the unknown-option error for the first
    such token, whatever the number of tokens, also when it equals the
    number of parameters; and run fails with the wrong-number-of-arguments
    error exactly when no token begins with "--" and the numbers differ. *)
Theorem positional_mode_rejections a E args toks first best :
  effectiveArgs E args = Some toks → head toks = Some first →
  isHelpWord first = false → resolve a E first toks = Ok best →
  let h := bestHandler best in
  let rawArgs := drop (bestLen best) toks in
  existsb isStructParam (targs h) = false →
  asksHelp rawArgs = false →
  (∀ tok, List.find (λ arg, HasPrefix arg "--") rawArgs = Some tok →
     tok ∈ rawArgs ∧ HasPrefix tok "--" = true
     ∧ prepare a E args = Failed (EUnknownOption tok)
     ∧ Run a E args = handleError a (Some (EUnknownOption tok))
     ∧ errClass (EUnknownOption tok) = UnknownOption)
  ∧ (Forall (λ arg, HasPrefix arg "--" = false) rawArgs →
     length rawArgs ≠ length (targs h) →
     let e := EWrongNumber (bestName best) (length (targs h)) (length rawArgs) in
     prepare a E args = Failed e ∧ Run a E args = handleError a (Some e)
     ∧ errClass e = ArgCountMismatch)
  ∧ (∀ e, prepare a E args = Failed e → errClass e = ArgCountMismatch →
     Forall (λ arg, HasPrefix arg "--" = false) rawArgs
     ∧ length rawArgs ≠ length (targs h)).
Proof.
  intros Heff Hhead Hword Hres h rawArgs Hpos Hhelp.
  destruct toks as [|first' toks']; [done|]. injection Hhead as ->.
  assert (Hprep : prepare a E args =
            match bindArgs (bestName best) h rawArgs with
            | Err e => Failed e
            | Panicked m => Crashed m
            | Ok parsed => Ready h parsed
            end).
  { unfold prepare. rewrite Heff, Hword, Hres. fold h rawArgs. by rewrite Hhelp. }
  destruct (bindArgs_positional_mode (bestName best) h rawArgs Hpos)
    as (Hopt & Hnum & Honly).
  split_and!.
  - intros tok Hfind. destruct (find_prefix_Some _ _ Hfind) as [Hin Hp].
    assert (prepare a E args = Failed (EUnknownOption tok)) as Hf.
    { by rewrite Hprep, (Hopt _ Hfind). }
    split_and!; [done..| |done]. unfold Run. by rewrite Hf.
  - intros Hnone%find_prefix_None Hne e.
    assert (prepare a E args = Failed e) as Hf.
    { by rewrite Hprep, (Hnum Hnone Hne). }
    split_and!; [done| |done]. unfold Run. by rewrite Hf.
  - intros e He Hclass. rewrite Hprep in He.
    destruct (bindArgs (bestName best) h rawArgs) as [|e'|] eqn:Hb; [done| |done].
    injection He as ->. destruct (Honly _ eq_refl Hclass) as [Hnone Hne].
    by apply find_prefix_None in Hnone.
Qed.
End PositionalMode.

Section PositionalModeExamples.
Local Existing Instance testRuntime.

(** C3 as stated fails in two ways.  "--help" begins with "--", and as
    the first remaining token it shows the help of the command; run
    returns nil.  And when the first token of the run is a help word, no
    command is matched at all: with a root handler of two string
    parameters, the tokens help --bogus are as many as the parameters and
    one of them begins with "--", yet the run shows the help of the root
    handler and returns nil. *)
Lemma positional_mode_help_counterexample :
  (existsb isStructParam (targs (handlerOf echo "")) = false
   ∧ HasPrefix "--help" "--" = true
   ∧ prepare echoApp testEnv (Some ["echo"; "--help"])
     = ShowHelp (printCommandHelp echoApp testEnv "echo" (handlerOf echo ""))
   ∧ outcome (Run echoApp testEnv (Some ["echo"; "--help"])) = Return None)
  ∧ (root copyApp = Some (handlerOf copy "Copy a file")
     ∧ cmds copyApp = ∅
     ∧ existsb isStructParam (targs (handlerOf copy "Copy a file")) = false
     ∧ length (targs (handlerOf copy "Copy a file")) = 2%nat
     ∧ HasPrefix "--bogus" "--" = true
     ∧ asksHelp ["help"; "--bogus"] = false
     ∧ prepare copyApp testEnv (Some ["help"; "--bogus"])
       = ShowHelp (printCommandHelp copyApp testEnv "" (handlerOf copy "Copy a file"))
     ∧ outcome (Run copyApp testEnv (Some ["help"; "--bogus"])) = Return None
     ∧ Run copyApp testEnv (Some ["copy"; "--bogus"])
       = mkResult [] (Return (Some (EUnknownOption "--bogus")))).
Proof. split; split_and!; by vm_compute. Qed.

Lemma echoApp_resolve tail :
  resolve echoApp testEnv "echo" ("echo" :: tail) = Ok (mkBest "echo" (handlerOf echo "") 1).
Proof. destruct tail; by vm_compute. Qed.

Lemma positional_mode_rejections_witness :
  Run echoApp testEnv (Some ["echo"; "--bogus"])
    = mkResult [] (Return (Some (EUnknownOption "--bogus")))
  ∧ Run echoApp testEnv (Some ["echo"])
    = mkResult [] (Return (Some (EWrongNumber "echo" 1 0))).
Proof.
  split.
  - destruct (positional_mode_rejections echoApp testEnv (Some ["echo"; "--bogus"])
                ["echo"; "--bogus"] "echo" _ eq_refl eq_refl eq_refl
                (echoApp_resolve ["--bogus"]) eq_refl eq_refl) as (Hopt & _).
    destruct (Hopt "--bogus" eq_refl) as (_ & _ & _ & Hrun & _).
    exact Hrun.
  - destruct (positional_mode_rejections echoApp testEnv (Some ["echo"])
                ["echo"] "echo" _ eq_refl eq_refl eq_refl
                (echoApp_resolve []) eq_refl eq_refl) as (_ & Hnum & _).
    destruct (Hnum (Forall_nil_2 _) (λ Heq : 0%nat = 1%nat, O_S _ Heq)) as (_ & Hrun & _).
    exact Hrun.
Defined.
End PositionalModeExamples.

(** ** The two ends of a help request *)

Section HelpRuns.
Context `{GoRuntime}.

Lemma commandHelp_cases (a : App) (E : Env) name (h : handler) :
  commandHelp a E name h = ShowHelp (printCommandHelp a E name h)
  ∨ commandHelp a E name h = HelpForever (printCommandHelp_start a E name h).
Proof. unfold commandHelp. destruct (helpEnds h); eauto. Qed.

Lemma showRootHelp_cases (a : App) (E : Env) :
  showRootHelp a E = ShowHelp (rootHelp a E)
  ∨ ∃ r, root a = Some r
         ∧ showRootHelp a E = HelpForever (printCommandHelp_start a E "" r).
Proof.
  unfold showRootHelp, rootHelp. destruct (root a) as [r|]; [|by left].
  destruct (commandHelp_cases a E "" r) as [-> | ->]; eauto.
Qed.
Lemma commandHelp_ShowHelp (a : App) (E : Env) name (h : handler) lines :
  commandHelp a E name h = ShowHelp lines → lines = printCommandHelp a E name h.
Proof. destruct (commandHelp_cases a E name h) as [-> | ->]; by intros [= <-]. Qed.

Lemma showRootHelp_ShowHelp (a : App) (E : Env) lines :
  showRootHelp a E = ShowHelp lines → lines = rootHelp a E.
Proof. destruct (showRootHelp_cases a E) as [->|(r & _ & ->)]; by intros [= <-]. Qed.
End HelpRuns.

(** A help request in the goal or in [H]: neither a failure, nor a call,
    nor a crash. *)
Ltac help_request :=
  match goal with
  | |- context [showRootHelp ?a ?E] =>
    let r := fresh "r" in
    by destruct (showRootHelp_cases a E) as [->|(r & _ & ->)]
  | |- context [commandHelp ?a ?E ?n ?h] =>
    by destruct (commandHelp_cases a E n h) as [-> | ->]
  end.

(** ** Failures and the handler *)

Section Failures.
Context `{GoRuntime}.
Implicit Types (a : App) (E : Env) (h : handler) (e : error)
  (st : list (StructField type)) (sv : list value).

Lemma fieldType_not_Err st fi e : fieldType st fi ≠ Err e.
Proof. unfold fieldType. by destruct (st !! fi). Qed.

Lemma parseAndSetField_error_class st sv fi v e :
  parseAndSetField st sv fi v = Err e →
  errClass e = MalformedValue ∨ errClass e = UnsupportedType.
Proof.
  destruct (st !! fi) as [f|] eqn:Hf.
  2:{ unfold parseAndSetField, fieldType. by rewrite Hf. }
  rewrite (parseAndSetField_cases st sv fi v f Hf).
  destruct (FType f) as [| | | | |e0|n st'|n|n b]; lazy beta iota zeta;
    match goal with
    | |- context [parseValue v ?t] =>
      destruct (parseValue v t) as [?|e'|] eqn:Hp;
        [by repeat case_match| |done]
    end; intros [= <-]; by eapply parseValue_error_class.
Qed.

Lemma setBoolField_not_Err st sv fi e : setBoolField st sv fi ≠ Err e.
Proof.
  unfold setBoolField, fieldType, reflect_SetBool, reflect_Set.
  destruct (st !! fi) as [f|]; [|done]. repeat case_match; done.
Qed.

Lemma positionalLoop_error_class st pos raw ps sv c e :
  positionalLoop st pos raw ps sv c = Err e → errClass e ≠ OtherError.
Proof.
  revert sv c. induction ps as [|p ps IH]; intros sv c; cbn [positionalLoop]; [done|].
  destruct (pos !! p) as [fi|]; [|apply IH].
  destruct (raw !! c) as [tok|]; [|by intros [= <-]].
  destruct (parseAndSetField st sv fi tok) as [sv'|e'|] eqn:Hp; [apply IH| |done].
  intros [= <-]. cbn [errClass].
  destruct (parseAndSetField_error_class _ _ _ _ _ Hp); congruence.
Qed.

Lemma scanOptions_error_class st m toks sv i e :
  scanOptions st m toks sv i = Err e → errClass e ≠ OtherError.
Proof.
  revert sv i. induction toks as [toks IH] using (induction_ltof1 _ length).
  unfold ltof in IH. intros sv i. destruct toks as [|tok rest]; [done|].
  assert (Hopt : ∀ tbl : gmap string nat,
    match tbl !! tok with
    | Some fi =>
      match fieldType st fi with
      | Err e => Err e
      | Panicked msg => Panicked msg
      | Ok ft =>
        if isBoolField ft then
          match setBoolField st sv fi with
          | Err e => Err e
          | Panicked msg => Panicked msg
          | Ok sv' => scanOptions st m rest sv' (i + 1)
          end
        else
          match rest with
          | [] => Err (EMissingValue tok)
          | v :: rest' =>
            match parseAndSetField st sv fi v with
            | Err e => Err (EOptionValue tok e)
            | Panicked msg => Panicked msg
            | Ok sv' => scanOptions st m rest' sv' (i + 2)
            end
          end
      end
    | None => Err (EUnknownOption tok)
    end = Err e → errClass e ≠ OtherError).
  { intros tbl. destruct (tbl !! tok) as [fi|]; [|by intros [= <-]].
    destruct (fieldType st fi) as [ft|e'|] eqn:Hft; [| |done].
    - destruct (isBoolField ft).
      { pose proof (setBoolField_not_Err st sv fi) as Hne.
        destruct (setBoolField st sv fi) as [sv'|e'|]; [apply IH; cbn; lia| |done].
        by destruct (Hne e'). }
      destruct rest as [|v rest']; [by intros [= <-]|].
      destruct (parseAndSetField st sv fi v) as [sv'|e'|] eqn:Hp;
        [apply IH; cbn; lia| |done].
      intros [= <-]. cbn [errClass].
      destruct (parseAndSetField_error_class _ _ _ _ _ Hp); congruence.
    - by apply fieldType_not_Err in Hft. }
  cbn [scanOptions]. destruct (HasPrefix tok "--").
  - destruct (Index tok "=") as [eq|]; [|apply Hopt].
    destruct (longMap m !! slice_to tok eq) as [fi|]; [|apply IH; cbn; lia].
    destruct (parseAndSetField st sv fi _) as [sv'|e'|] eqn:Hp;
      [apply IH; cbn; lia| |done].
    intros [= <-]. cbn [errClass].
    destruct (parseAndSetField_error_class _ _ _ _ _ Hp); congruence.
  - destruct (_ && _); [apply Hopt|done].
Qed.

Lemma parseStructArgs_error_class raw name st e :
  parseStructArgs raw (TStruct name st) = Err e → errClass e ≠ OtherError.
Proof.
  unfold parseStructArgs.
  set (positional := if (0 <? size _)%nat then _ else _).
  destruct positional as [[sv1 c]|e'|] eqn:Hpos; [| |done].
  - destruct (scanOptions st _ (drop c raw) sv1 c) as [[sv2 ?]|e'|] eqn:Hs; [done| |done].
    intros [= <-]. by eapply scanOptions_error_class.
  - intros [= <-]. subst positional.
    destruct (0 <? size _)%nat; [|done]. by eapply positionalLoop_error_class.
Qed.

Lemma bindStructMode_error_class name n rawArgs ts i ri parsed e :
  bindStructMode name n rawArgs ts i ri parsed = Err e → errClass e ≠ OtherError.
Proof.
  revert i ri parsed. induction ts as [|t ts IH]; intros i ri parsed;
    cbn [bindStructMode]; [done|].
  destruct (isStructParam t) eqn:Hs.
  - assert (∃ sname st, (match t with TPtr e0 => (e0, true) | _ => (t, false) end).1
                        = TStruct sname st) as (sname & st & Hst).
    { unfold isStructParam, structOf in Hs.
      destruct t as [| | | | |[]| | |]; try done; eauto. }
    destruct (match t with TPtr e0 => (e0, true) | _ => (t, false) end)
      as [structType wantPtr]. cbn in Hst. subst structType.
    destruct (parseStructArgs _ _) as [[sv nused]|e'|] eqn:Hp; [apply IH| |done].
    intros [= <-]. cbn [errClass]. by eapply parseStructArgs_error_class.
  - destruct (rawArgs !! ri) as [tok|]; [|by intros [= <-]].
    destruct (parseValue tok t) as [v|e'|] eqn:Hp; [apply IH| |done].
    intros [= <-]. cbn [errClass].
    destruct (parseValue_error_class _ _ _ Hp); congruence.
Qed.

Lemma bindArgs_error_class name h rawArgs e :
  bindArgs name h rawArgs = Err e → errClass e ≠ OtherError.
Proof.
  unfold bindArgs. destruct (existsb isStructParam (targs h)).
  - apply bindStructMode_error_class.
  - destruct (List.find _ rawArgs); [by intros [= <-]|].
    destruct (negb _); [by intros [= <-]|].
    intros [?|?]%bindPositional_error_class; congruence.
Qed.

Lemma resolve_error a E first args e :
  resolve a E first args = Err e → e = EUnknownCommand first ∧ root a = None.
Proof.
  unfold resolve. destruct (_ =? _)%nat; [|done].
  destruct (root a); [done|]. by intros [= <-].
Qed.

(** Every error [Run] hands to [handleError] is a resolution, coercion or
    binding error of the taxonomy. *)
Lemma prepare_failure_class a E args e :
  prepare a E args = Failed e →
  errClass e ∈ [UnknownCommand; UnknownOption; ArgCountMismatch; MalformedValue;
                UnsupportedType; MissingOptionValue; InsufficientArgs].
Proof.
  intros Hprep. assert (errClass e ≠ OtherError) as Hc.
  { revert Hprep. unfold prepare.
    destruct (effectiveArgs E args) as [[|first toks]|]; [help_request| |done].
    destruct (isHelpWord first); [help_request|].
    destruct (resolve a E first (first :: toks)) as [best|e'|] eqn:Hr; [| |done].
    - destruct (asksHelp _); [help_request|].
      destruct (bindArgs _ _ _) as [parsed|e'|] eqn:Hb; [done| |done].
      intros [= <-]. by eapply bindArgs_error_class.
    - intros [= <-]. by apply resolve_error in Hr as [-> _]. }
  destruct (errClass e); try done; repeat first [by left | right].
Qed.

Lemma handleError_no_call a (err : option error) :
  Forall (λ ev, isInvoke ev = false) (trace (handleError a err)).
Proof.
  unfold handleError. destruct err as [e|]; [|constructor].
  destruct (ExitOnError (opts a)); repeat constructor.
Qed.

Lemma toLog_no_call a (lines : list event) :
  Forall (toLog a) lines → Forall (λ ev, isInvoke ev = false) lines.
Proof. intros Hl. eapply Forall_impl; [done|]. by intros ev [text ->]. Qed.

Lemma printCommandHelp_start_toLog a E name h :
  Forall (toLog a) (printCommandHelp_start a E name h).
Proof.
  unfold printCommandHelp_start. apply Forall_app. split.
  - destruct (decide (help h = "")); repeat constructor; apply toLog_Fprintln.
  - repeat constructor; (apply toLog_Fprintln || apply toLog_Fprint).
Qed.

(** The lines of a help request, ended or not, go to the log. *)
Lemma prepare_help_toLog a E args lines :
  prepare a E args = ShowHelp lines ∨ prepare a E args = HelpForever lines →
  Forall (toLog a) lines.
Proof.
  unfold prepare.
  assert (∀ name h, commandHelp a E name h = ShowHelp lines
                    ∨ commandHelp a E name h = HelpForever lines →
                    Forall (toLog a) lines) as Hcmd.
  { intros name h. destruct (commandHelp_cases a E name h) as [-> | ->];
      (intros [[= <-]|[= <-]];
       [apply printCommandHelp_toLog || apply printCommandHelp_start_toLog]). }
  assert (showRootHelp a E = ShowHelp lines ∨ showRootHelp a E = HelpForever lines →
          Forall (toLog a) lines) as Hroot.
  { unfold showRootHelp. destruct (root a); [apply Hcmd|].
    intros [[= <-]|[=]]. apply printHelp_toLog. }
  destruct (effectiveArgs E args) as [[|first toks]|]; [done| |by intros [|]].
  destruct (isHelpWord first); [done|].
  destruct (resolve a E first (first :: toks)) as [best| |]; [|by intros [|]..].
  destruct (asksHelp _); [apply Hcmd|].
  destruct (bindArgs _ _ _); by intros [|].
Qed.

(** The events of a call: the call itself, then what the function
    writes; none when [reflect] refuses the call. *)
Lemma invoke_trace h parsed :
  trace (invoke h parsed) = []
  ∨ ∃ written, trace (invoke h parsed)
               = Invoke parsed :: map (λ ws : Writer * string, Fprint ws.1 ws.2) written.
Proof.
  unfold invoke. destruct (fn h) as [f|]; [|by left].
  destruct (callCheck parsed (In f)); [by left|].
  destruct (Call f parsed) as [written last]. right. exists written.
  destruct (expectsError h); [|done]. destruct (nilable _); [|done]. by destruct last.
Qed.

Lemma invoke_calls h parsed parsed' :
  Invoke parsed ∈ trace (invoke h parsed') → parsed = parsed'.
Proof.
  destruct (invoke_trace h parsed') as [->|[written ->]].
  - by intros ?%elem_of_nil.
  - intros [[= ->]|Hin]%elem_of_cons; [done|].
    apply list_elem_of_fmap in Hin as (? & ? & _). done.
Qed.

(** C9, as amended.  When resolution or binding fails with an error (of
    one of the classes of the taxonomy), run hands this error to
    [handleError] and does nothing else: the handler function is not
    called.  What becomes of the error is the choice of [ExitOnError]:
    unset, run returns the error and writes nothing; set, run writes the
    message and a newline to the error writer and the process exits with
    status 1.  A failing resolution and a failing binding both end this
    way.  Conversely the handler is called only with the arguments of a
    binding that succeeded. *)
Theorem failed_run_never_invokes a E args :
  (∀ e, prepare a E args = Failed e →
     Run a E args = handleError a (Some e)
     ∧ Forall (λ ev, isInvoke ev = false) (trace (Run a E args))
     ∧ (ExitOnError (opts a) = false → Run a E args = mkResult [] (Return (Some e)))
     ∧ (ExitOnError (opts a) = true →
          Run a E args = mkResult [Fprint (errorWriter a) (Error e +:+ nl)] (Exit 1))
     ∧ errClass e ∈ [UnknownCommand; UnknownOption; ArgCountMismatch; MalformedValue;
                     UnsupportedType; MissingOptionValue; InsufficientArgs])
  ∧ (∀ toks first, effectiveArgs E args = Some toks → head toks = Some first →
       isHelpWord first = false →
       (∀ e, resolve a E first toks = Err e → prepare a E args = Failed e)
       ∧ (∀ best e, resolve a E first toks = Ok best →
            asksHelp (drop (bestLen best) toks) = false →
            bindArgs (bestName best) (bestHandler best) (drop (bestLen best) toks) = Err e →
            prepare a E args = Failed e))
  ∧ (∀ parsed, Invoke parsed ∈ trace (Run a E args) →
       ∃ h, prepare a E args = Ready h parsed).
Proof.
  split_and!.
  - intros e He. unfold Run. rewrite He. split_and!.
    + done.
    + apply handleError_no_call.
    + intros Hex. unfold handleError. by rewrite Hex.
    + intros Hex. unfold handleError, errorWriter. by rewrite Hex.
    + by eapply prepare_failure_class.
  - intros toks first Heff Hhead Hword.
    destruct toks as [|first' toks]; [done|]. injection Hhead as ->.
    unfold prepare. rewrite Heff, Hword. split.
    + by intros e ->.
    + by intros best e -> -> ->.
  - intros parsed Hin. unfold Run in Hin.
    destruct (prepare a E args) as [lines|lines|e|h parsed'|m] eqn:Hprep.
    + pose proof (prepare_help_toLog a E args lines (or_introl Hprep)) as Hl.
      apply toLog_no_call in Hl. rewrite Forall_forall in Hl. by specialize (Hl _ Hin).
    + pose proof (prepare_help_toLog a E args lines (or_intror Hprep)) as Hl.
      apply toLog_no_call in Hl. rewrite Forall_forall in Hl. by specialize (Hl _ Hin).
    + pose proof (handleError_no_call a (Some e)) as Hno.
      rewrite Forall_forall in Hno. by specialize (Hno _ Hin).
    + exists h. by apply invoke_calls in Hin as ->.
    + by apply elem_of_nil in Hin.
Qed.
End Failures.

Section FailuresExamples.
Local Existing Instance testRuntime.

(** C9 as stated fails: with [ExitOnError] set, as in [cliapp.Default],
    run does not return the error of a failed resolution: it writes the
    message and the process exits with status 1. *)
Lemma failed_run_exit_counterexample :
  ExitOnError (opts errorApp) = true
  ∧ prepare errorApp testEnv (Some ["nope"]) = Failed (EUnknownCommand "nope")
  ∧ Run errorApp testEnv (Some ["nope"])
    = mkResult [Fprint Stderr ("unknown command: nope" +:+ nl)] (Exit 1)
  ∧ ∀ err, outcome (Run errorApp testEnv (Some ["nope"])) ≠ Return err.
Proof.
  split; [by vm_compute|]. split; [by vm_compute|]. split; [by vm_compute|].
  intros err. by vm_compute.
Qed.

Lemma failed_run_never_invokes_witness :
  Run errorApp testEnv (Some ["nope"])
    = mkResult [Fprint Stderr ("unknown command: nope" +:+ nl)] (Exit 1)
  ∧ Run createApp testEnv (Some ["create"; "hello.txt"; "--out"])
    = mkResult [] (Return (Some (EStructArg 1 "create" (EMissingValue "--out")))).
Proof.
  split.
  - destruct (failed_run_never_invokes errorApp testEnv (Some ["nope"])) as (Hfail & _).
    destruct (Hfail (EUnknownCommand "nope") eq_refl) as (_ & _ & _ & Hexit & _).
    exact (Hexit eq_refl).
  - destruct (failed_run_never_invokes createApp testEnv
                (Some ["create"; "hello.txt"; "--out"])) as (Hfail & _).
    destruct (Hfail (EStructArg 1 "create" (EMissingValue "--out")) eq_refl)
      as (_ & _ & Hret & _).
    exact (Hret eq_refl).
Defined.
End FailuresExamples.

(** ** The error of a handler *)

Section HandlerError.
Local Existing Instance testRuntime.

(** C5 fails on the code.  With [ExitOnError] set, the error a handler
    returns is returned by [Run]: nothing is written to the error writer
    and the process does not exit, while a resolution failure of the same
    application is written and exits with status 1. *)
Lemma handler_error_bypasses_handleError :
  ExitOnError (opts errorApp) = true
  ∧ Run errorApp testEnv (Some ["error"])
    = mkResult [Invoke []] (Return (Some (EUser "something wrong!")))
  ∧ Run errorApp testEnv (Some ["nope"])
    = mkResult [Fprint Stderr ("unknown command: nope" +:+ nl)] (Exit 1).
Proof. split_and!; by vm_compute. Qed.
End HandlerError.

(** What [Run] does with the error of a handler, for every application:
    [handleError] is not on that path. *)
Lemma invoke_error `{GoRuntime} (h : handler) (f : Func) parsed written err :
  fn h = Some f → expectsError h = true →
  callCheck parsed (In f) = None → nilable (OutKind f) = true →
  Call f parsed = (written, Some err) →
  invoke h parsed
  = mkResult (Invoke parsed :: map (λ ws : Writer * string, Fprint ws.1 ws.2) written)
             (Return (Some err)).
Proof. intros Hf He Hk Hn Hc. unfold invoke. by rewrite Hf, Hk, Hc, He, Hn. Qed.
(* ===================================================================== *)
(** * Part III.  Further properties of the program                       *)
(* ===================================================================== *)

(** ** Registration *)

Section Registration.
Context `{GoRuntime}.
Implicit Types (a : App) (h : handler) (f : Func) (rest : list any).

(** [Add] succeeds on the two call shapes with a function, and then the
    result is the application with the handler of the function put under
    the name. *)
Lemma Add_Ok a name rest a' :
  Add a name rest = Ok a' →
  ∃ f help, (rest = [AnyFunc f] ∧ help = "" ∨ rest = [AnyString help; AnyFunc f])
    ∧ a' = if decide (name = "")
           then mkApp (cmds a) (Some (handlerOf f help)) (opts a)
           else mkApp (<[name := handlerOf f help]> (cmds a)) (root a) (opts a).
Proof.
  unfold Add, handlerOf. intros Hadd.
  destruct rest as [|x [|y [|z rest]]]; try done.
  - destruct x as [|f|]; try done. exists f, "". split; [by left|].
    destruct (decide (name = "")); by injection Hadd as <-.
  - destruct x as [s| |]; try done.
    destruct y as [|f|]; try done. exists f, s. split; [by right|].
    destruct (decide (name = "")); by injection Hadd as <-.
  - by destruct x.
Qed.

(** X1.  An application made by [New] has the writers of the options,
    with [Stdout] in place of a nil log writer and [Stderr] in place of a
    nil error writer, the [ExitOnError] flag of the options, no handler and
    no root.  [Add] keeps this shape: a successful registration leaves the
    options as they are and puts the handler of the function (the function
    with its parameter types, its error flag and the help text) under the
    name in the command map, or as the root when the name is empty, and
    changes nothing else; so every registered handler and the root hold a
    function together with its parameter types and error flag, and the
    empty name is not a key of the command map. *)
Theorem New_Add_wellFormed :
  (∀ o : Options, wellFormed (New o)
     ∧ cmds (New o) = ∅ ∧ root (New o) = None
     ∧ ExitOnError (opts (New o)) = ExitOnError o
     ∧ Log (opts (New o)) = (if decide (Log o = nilWriter) then Stdout else Log o)
     ∧ LogError (opts (New o))
       = (if decide (LogError o = nilWriter) then Stderr else LogError o))
  ∧ (∀ a name rest a', wellFormed a → Add a name rest = Ok a' →
       wellFormed a' ∧ opts a' = opts a
       ∧ ∃ f help,
           (rest = [AnyFunc f] ∧ help = "" ∨ rest = [AnyString help; AnyFunc f])
           ∧ let h := mkHandler (Some f) (In f) (OutError f) help in
             (name = "" → root a' = Some h ∧ cmds a' = cmds a)
             ∧ (name ≠ "" → cmds a' = <[name := h]> (cmds a) ∧ root a' = root a)).
Proof.
  split.
  - intros o. unfold wellFormed, New. cbn [opts cmds root Log LogError ExitOnError].
    split_and!; try done.
    + by destruct (decide (Log o = nilWriter)).
    + by destruct (decide (LogError o = nilWriter)).
  - intros a name rest a' (Hlog & Herr & Hcmds & Hroot & Hempty) Hadd.
    apply Add_Ok in Hadd as (f & help & Hshape & ->).
    assert (fromAdd (handlerOf f help)) as Hh by (by exists f).
    unfold wellFormed.
    destruct (decide (name = "")) as [->|Hne]; cbn [opts cmds root].
    + split_and!; try done.
      * by intros h [= <-].
      * exists f, help. split; [done|]. cbn zeta. split; [done|]. by intros [].
    + split_and!; try done.
      * intros n h. destruct (decide (name = n)) as [->|Hn].
        -- rewrite lookup_insert_eq. by intros [= <-].
        -- rewrite lookup_insert_ne by done. apply Hcmds.
      * by rewrite lookup_insert_ne.
      * exists f, help. split; [done|]. cbn zeta. split; [by intros ->|done].
Qed.

(** X2.  How registrations compose.  Two successful registrations under
    different names give the same application in either order; a second
    registration under the same name replaces the first, as if the first
    had not been made. *)
Theorem Add_compose a n1 n2 rest1 rest2 a1 a2 :
  Add a n1 rest1 = Ok a1 → Add a n2 rest2 = Ok a2 →
  (n1 ≠ n2 → Add a1 n2 rest2 = Add a2 n1 rest1)
  ∧ (n1 = n2 → Add a1 n2 rest2 = Ok a2).
Proof.
  intros H1 H2.
  pose proof H1 as (f1 & help1 & Hshape1 & Ha1)%Add_Ok.
  pose proof H2 as (f2 & help2 & Hshape2 & Ha2)%Add_Ok.
  assert (Hadd : ∀ b name rest f help,
    (rest = [AnyFunc f] ∧ help = "" ∨ rest = [AnyString help; AnyFunc f]) →
    Add b name rest =
      Ok (if decide (name = "")
          then mkApp (cmds b) (Some (handlerOf f help)) (opts b)
          else mkApp (<[name := handlerOf f help]> (cmds b)) (root b) (opts b))).
  { intros b name rest f help [[-> ->]| ->]; unfold Add, handlerOf;
      by destruct (decide (name = "")). }
  split.
  - intros Hne.
    rewrite (Hadd a1 n2 rest2 f2 help2 Hshape2), (Hadd a2 n1 rest1 f1 help1 Hshape1).
    subst a1 a2. f_equal.
    destruct (decide (n1 = "")), (decide (n2 = "")); cbn [cmds root opts];
      try done; [congruence|].
    f_equal. by apply insert_insert_ne.
  - intros <-. rewrite (Hadd a1 n1 rest2 f2 help2 Hshape2). subst a1 a2. f_equal.
    destruct (decide (n1 = "")); cbn [cmds root opts]; [done|].
    f_equal. apply insert_insert_eq.
Qed.
End Registration.

Section RegistrationExamples.
Local Existing Instance testRuntime.

Lemma Add_compose_witness :
  Add (register (New (mkOptions false Stdout Stderr)) [("a", [AnyFunc (say "A")])])
      "b" [AnyString "says B"; AnyFunc (say "B")]
  = Add (register (New (mkOptions false Stdout Stderr))
           [("b", [AnyString "says B"; AnyFunc (say "B")])])
      "a" [AnyFunc (say "A")]
  ∧ Add (register (New (mkOptions false Stdout Stderr)) [("a", [AnyFunc (say "A")])])
      "a" [AnyFunc (say "B")]
    = Ok (register (New (mkOptions false Stdout Stderr)) [("a", [AnyFunc (say "B")])]).
Proof.
  split.
  - refine (proj1 (Add_compose (New (mkOptions false Stdout Stderr)) "a" "b"
                     [AnyFunc (say "A")] [AnyString "says B"; AnyFunc (say "B")]
                     _ _ eq_refl eq_refl) _).
    done.
  - exact (proj2 (Add_compose (New (mkOptions false Stdout Stderr)) "a" "a"
                    [AnyFunc (say "A")] [AnyFunc (say "B")]
                    _ _ eq_refl eq_refl) eq_refl).
Defined.
End RegistrationExamples.

(** ** Resolution in general *)

Section ResolveGeneral.
Context `{GoRuntime}.
Implicit Types (a : App) (E : Env) (args : list string) (h : handler) (best : Best).

Lemma isCandidate_nonempty args name :
  isCandidate args name = true → (0 < length (Fields name))%nat.
Proof.
  unfold isCandidate. cbn zeta. destruct (Fields name); [done|]. cbn. lia.
Qed.

(** The matching loop from the initial state, over the command map. *)
Lemma matching_loop_cmds a E args :
  let best := foldl (matchStep args) (mkBest "" zero_handler 0) (range_cmds E 0 a) in
  (bestLen best = 0%nat ∧ noCandidate a args)
  ∨ ((0 < bestLen best)%nat ∧ longestCandidate a args best).
Proof.
  destruct (matching_loop args (range_cmds E 0 a) (mkBest "" zero_handler 0))
    as (_ & Hmax & Hsel).
  cbn zeta. set (best := foldl _ _ _) in *.
  destruct Hsel as [Heq|(name & h & Hin & Hc & Heq & Hlt)].
  - left. rewrite Heq. split; [done|]. intros name h Hlook.
    destruct (isCandidate args name) eqn:Hc; [|done].
    apply range_cmds_elem with (E := E) (site := 0%nat) in Hlook.
    specialize (Hmax _ _ Hlook Hc). rewrite Heq in Hmax. cbn in Hmax.
    apply isCandidate_nonempty in Hc. lia.
  - right. split; [cbn in Hlt; lia|]. unfold longestCandidate.
    rewrite Heq. cbn [bestName bestHandler bestLen]. split_and!; try done.
    + by apply range_cmds_elem in Hin.
    + intros n' h' Hlook Hc'. rewrite Heq in Hmax. apply (Hmax n' h'); [|done].
      by apply range_cmds_elem.
Qed.

(** X3.  Resolution is a longest-prefix match.  When some registered name
    is a candidate (its tokens are a non-empty prefix of the arguments),
    the result is a registered candidate with the most tokens, with its
    own handler and its number of tokens as the length.  When none is, the
    result is the root handler with length 0, so that all arguments remain
    for it; and without a root handler it is the unknown-command error
    naming the first argument. *)
Theorem resolve_longest_prefix a E first args :
  ((∃ name h, cmds a !! name = Some h ∧ isCandidate args name = true) →
     ∃ best, resolve a E first args = Ok best ∧ (0 < bestLen best)%nat
       ∧ longestCandidate a args best)
  ∧ (noCandidate a args → ∀ r, root a = Some r →
       resolve a E first args = Ok (mkBest "(root)" r 0))
  ∧ (noCandidate a args → root a = None →
       resolve a E first args = Err (EUnknownCommand first)
       ∧ errClass (EUnknownCommand first) = UnknownCommand).
Proof.
  unfold resolve.
  destruct (matching_loop_cmds a E args) as [[Hz Hno]|[Hpos Hbest]];
    set (best := foldl _ _ _) in *.
  - rewrite Hz. cbn [Nat.eqb]. split_and!.
    + intros (name & h & Hlook & Hc). by rewrite (Hno _ _ Hlook) in Hc.
    + by intros _ r ->.
    + by intros _ ->.
  - rewrite (proj2 (Nat.eqb_neq _ _)) by lia.
    destruct Hbest as (Hlook & Hc & Hrest). split_and!.
    + intros _. exists best. by split_and!.
    + intros Hno. by rewrite (Hno _ _ Hlook) in Hc.
    + intros Hno. by rewrite (Hno _ _ Hlook) in Hc.
Qed.

(** X4.  When no two registered candidates have the same number of tokens,
    the result of the resolution does not depend on the order in which the
    command map is iterated. *)
Theorem resolve_order_independent a E E' first args :
  (∀ n1 h1 n2 h2, cmds a !! n1 = Some h1 → cmds a !! n2 = Some h2 →
     isCandidate args n1 = true → isCandidate args n2 = true →
     length (Fields n1) = length (Fields n2) → n1 = n2) →
  resolve a E first args = resolve a E' first args.
Proof.
  intros Huniq. unfold resolve.
  destruct (matching_loop_cmds a E args) as [[Hz Hno]|[Hpos Hbest]];
    destruct (matching_loop_cmds a E' args) as [[Hz' Hno']|[Hpos' Hbest']];
    set (best := foldl _ _ (range_cmds E 0 a)) in *;
    set (best' := foldl _ _ (range_cmds E' 0 a)) in *.
  - by rewrite Hz, Hz'.
  - destruct Hbest' as (Hlook & Hc & _). by rewrite (Hno _ _ Hlook) in Hc.
  - destruct Hbest as (Hlook & Hc & _). by rewrite (Hno' _ _ Hlook) in Hc.
  - rewrite !(proj2 (Nat.eqb_neq _ _)) by lia. f_equal.
    destruct Hbest as (Hlook & Hc & Hlen & Hmax).
    destruct Hbest' as (Hlook' & Hc' & Hlen' & Hmax').
    pose proof (Hmax _ _ Hlook' Hc') as Hle. pose proof (Hmax' _ _ Hlook Hc) as Hle'.
    assert (bestName best = bestName best') as Hname.
    { apply (Huniq _ _ _ _ Hlook Hlook' Hc Hc'). lia. }
    destruct best as [n h l], best' as [n' h' l'].
    cbn [bestName bestHandler bestLen] in *. subst n'.
    rewrite Hlook in Hlook'. injection Hlook' as <-. by rewrite Hlen, Hlen'.
Qed.
End ResolveGeneral.

Section ResolveGeneralExamples.
Local Existing Instance testRuntime.

Lemma pathsApp_names name h :
  cmds pathsApp !! name = Some h → name = "a" ∨ name = "a b" ∨ name = "a b c".
Proof.
  assert (cmds pathsApp
          = <["a b c" := handlerOf (say "ABC") ""]>
              (<["a b" := handlerOf (say "AB") ""]>
                 (<["a" := handlerOf (say "A") ""]> ∅))) as -> by (by vm_compute).
  intros Hlook.
  destruct (decide (name = "a b c")); [by auto|]. rewrite lookup_insert_ne in Hlook by done.
  destruct (decide (name = "a b")); [by auto|]. rewrite lookup_insert_ne in Hlook by done.
  destruct (decide (name = "a")); [by auto|]. rewrite lookup_insert_ne in Hlook by done.
  by rewrite lookup_empty in Hlook.
Qed.

Lemma pathsApp_distinct_lengths n1 h1 n2 h2 :
  cmds pathsApp !! n1 = Some h1 → cmds pathsApp !! n2 = Some h2 →
  isCandidate ["a"; "b"] n1 = true → isCandidate ["a"; "b"] n2 = true →
  length (Fields n1) = length (Fields n2) → n1 = n2.
Proof.
  intros [->|[->| ->]]%pathsApp_names [->|[->| ->]]%pathsApp_names; by vm_compute.
Qed.

Lemma resolve_order_independent_witness :
  resolve pathsApp testEnv "a" ["a"; "b"]
  = resolve pathsApp (mkEnv ["prog"] (λ _, [2%nat; 0%nat])) "a" ["a"; "b"].
Proof.
  exact (resolve_order_independent pathsApp testEnv (mkEnv ["prog"] (λ _, [2%nat; 0%nat]))
           "a" ["a"; "b"] pathsApp_distinct_lengths).
Defined.
End ResolveGeneralExamples.

(** ** Binding in pure positional mode *)

Section PositionalBinding.
Context `{GoRuntime}.
Implicit Types (h : handler) (ts : list type) (toks pre rawArgs : list string)
  (parsed vs : list value).

(** The loop of the positional branch, started after the tokens [pre]
    with the values [bound] already in place. *)
Lemma bindPositional_Ok name ts : ∀ pre toks bound rest0 parsed,
  length bound = length pre → length toks = length ts → length rest0 = length ts →
  bindPositional name (pre ++ toks) ts (length pre) (bound ++ rest0) = Ok parsed ↔
  ∃ vs, Forall3 (λ tok t v, parseValue tok t = Ok v) toks ts vs ∧ parsed = bound ++ vs.
Proof.
  induction ts as [|t ts IH]; intros pre toks bound rest0 parsed Hb Ht Hr.
  - destruct toks; [|done]. destruct rest0; [|done]. cbn [bindPositional]. split.
    + intros [= <-]. exists []. split; [constructor|done].
    + intros (vs & Hvs & ->). by inversion Hvs.
  - destruct toks as [|tok toks]; [done|]. destruct rest0 as [|x rest0]; [done|].
    cbn [bindPositional]. rewrite list_lookup_middle by done.
    assert (<[length pre := (default x (match parseValue tok t with Ok v => Some v | _ => None end))]>
              (bound ++ x :: rest0)
            = (bound ++ [default x (match parseValue tok t with Ok v => Some v | _ => None end)])
              ++ rest0) as Hins.
    { rewrite insert_app_r_alt by lia. rewrite <- Hb, Nat.sub_diag. cbn.
      by rewrite <- app_assoc. }
    destruct (parseValue tok t) as [v|e|m] eqn:Hp.
    + cbn in Hins. rewrite Hins.
      replace (pre ++ tok :: toks) with ((pre ++ [tok]) ++ toks) by (by rewrite <- app_assoc).
      replace (S (length pre)) with (length (pre ++ [tok])) by (rewrite length_app; cbn; lia).
      rewrite IH; [|rewrite !length_app; cbn; lia|cbn in Ht; lia|cbn in Hr; lia].
      split.
      * intros (vs & Hvs & ->). exists (v :: vs). split; [by constructor|].
        by rewrite <- app_assoc.
      * intros (vs & Hvs & ->). inversion Hvs as [|????? vs' Hv Hvs']; subst.
        rewrite Hp in Hv. injection Hv as <-. exists vs'. split; [done|].
        by rewrite <- app_assoc.
    + split; [done|]. intros (vs & Hvs & _). inversion Hvs; congruence.
    + split; [done|]. intros (vs & Hvs & _). inversion Hvs; congruence.
Qed.

(** The first token that fails to parse gives the error. *)
Lemma bindPositional_Err name ts : ∀ pre toks bound rest0 err,
  length bound = length pre → length toks = length ts → length rest0 = length ts →
  bindPositional name (pre ++ toks) ts (length pre) (bound ++ rest0) = Err err →
  ∃ j tok t e, toks !! j = Some tok ∧ ts !! j = Some t ∧ parseValue tok t = Err e
    ∧ err = EArg (length pre + j + 1) name e
    ∧ ∀ j' tok' t', (j' < j)%nat → toks !! j' = Some tok' → ts !! j' = Some t' →
        ∃ v, parseValue tok' t' = Ok v.
Proof.
  induction ts as [|t ts IH]; intros pre toks bound rest0 err Hb Ht Hr.
  - by destruct toks.
  - destruct toks as [|tok toks]; [done|]. destruct rest0 as [|x rest0]; [done|].
    cbn [bindPositional]. rewrite list_lookup_middle by done.
    destruct (parseValue tok t) as [v|e|m] eqn:Hp; [| |done].
    + rewrite insert_app_r_alt by lia. rewrite <- Hb, Nat.sub_diag. cbn [insert list_insert].
      replace (pre ++ tok :: toks) with ((pre ++ [tok]) ++ toks) by (by rewrite <- app_assoc).
      replace (bound ++ v :: rest0) with ((bound ++ [v]) ++ rest0) by (by rewrite <- app_assoc).
      replace (S (length bound)) with (length (pre ++ [tok])) by (rewrite length_app; cbn; lia).
      intros Herr. apply IH in Herr as (j & tok' & t' & e & Htok & Ht' & Hpe & -> & Hbefore);
        [|rewrite !length_app; cbn; lia|cbn in Ht; lia|cbn in Hr; lia].
      exists (S j), tok', t', e. split_and!; try done.
      * rewrite length_app. cbn. f_equal. lia.
      * intros [|j'] tok'' t'' Hlt; cbn.
        -- intros [= <-] [= <-]. eauto.
        -- apply Hbefore. lia.
    + intros [= <-]. exists 0%nat, tok, t, e. split_and!; try done.
      * f_equal. lia.
      * intros j' ?? Hlt. lia.
Qed.

(** X7.  For a handler without struct parameter, binding succeeds exactly
    when no token begins with "--" and there is one token for each
    parameter, each parsing to the type of its parameter; the parsed
    arguments are then these values, in the same order.  When a token fails
    to parse, the error carries the 1-based index of the first such token
    and the error of its parse. *)
Theorem bindArgs_positional name h rawArgs :
  existsb isStructParam (targs h) = false →
  (∀ parsed, bindArgs name h rawArgs = Ok parsed ↔
     Forall (λ arg, HasPrefix arg "--" = false) rawArgs
     ∧ Forall3 (λ tok t v, parseValue tok t = Ok v) rawArgs (targs h) parsed)
  ∧ (∀ k e, bindArgs name h rawArgs = Err (EArg k name e) →
       ∃ j tok t, k = S j ∧ rawArgs !! j = Some tok ∧ targs h !! j = Some t
         ∧ parseValue tok t = Err e
         ∧ ∀ j' tok' t', (j' < j)%nat → rawArgs !! j' = Some tok' →
             targs h !! j' = Some t' → ∃ v, parseValue tok' t' = Ok v).
Proof.
  intros Hpos. unfold bindArgs. rewrite Hpos. split.
  - intros parsed. destruct (List.find _ rawArgs) as [tok|] eqn:Hfind.
    + split; [done|]. intros [Hall _]. apply find_prefix_None in Hall. congruence.
    + apply find_prefix_None in Hfind.
      destruct (Nat.eqb_spec (length rawArgs) (length (targs h))) as [Hlen|Hlen]; cbn [negb].
      * pose proof (bindPositional_Ok name (targs h) [] rawArgs []
                      (replicate (length (targs h)) VInvalid) parsed eq_refl Hlen
                      (length_replicate _ _)) as Hiff.
        cbn in Hiff. rewrite Hiff. split.
        -- by intros (vs & Hvs & ->).
        -- intros [_ Hvs]. by exists parsed.
      * split; [done|]. intros [_ Hvs]. by apply Forall3_length_lm in Hvs.
  - intros k e. destruct (List.find _ rawArgs); [done|].
    destruct (Nat.eqb_spec (length rawArgs) (length (targs h))) as [Hlen|Hlen]; cbn [negb];
      [|done].
    intros Herr.
    apply (bindPositional_Err name (targs h) [] rawArgs []
             (replicate (length (targs h)) VInvalid) _ eq_refl Hlen
             (length_replicate _ _)) in Herr
      as (j & tok & t & e' & Htok & Ht & Hp & Heq & Hbefore).
    injection Heq as -> ->. exists j, tok, t. split_and!; try done. cbn. lia.
Qed.
End PositionalBinding.

Section PositionalBindingExamples.
Local Existing Instance testRuntime.

Lemma bindArgs_positional_witness :
  bindArgs "add" (handlerOf add "") ["2"; "3"] = Ok [VInt 2; VInt 3].
Proof.
  destruct (bindArgs_positional "add" (handlerOf add "") ["2"; "3"] eq_refl) as [Hok _].
  apply Hok. split.
  - by repeat constructor.
  - by repeat constructor.
Defined.
End PositionalBindingExamples.

(** ** The values the binder makes have the types of the parameters *)

Section Typing.
Context `{GoRuntime}.














End Typing.

(** ** Panics and exits of a run *)

Section RunOutcome.
Context `{GoRuntime}.
Implicit Types (a : App) (E : Env) (h : handler) (e : error).




(** A call ends in a return or in a panic of [reflect], never in an exit. *)
Lemma invoke_outcome h parsed code : outcome (invoke h parsed) ≠ Exit code.
Proof.
  unfold invoke. destruct (fn h) as [f|]; [|done].
  destruct (callCheck parsed (In f)); [done|].
  destruct (Call f parsed) as [written last].
  destruct (expectsError h); [|done]. destruct (nilable (OutKind f)); [|done].
  by destruct last.
Qed.




(** X6.  A run ends the process only through [handleError]: only when
    [ExitOnError] is set, only with status 1, only for an error of
    resolution or binding, and after it has written just the message of
    this error and a newline to the error writer.  With [ExitOnError]
    unset, such an error is returned and nothing is written. *)
Theorem Run_exit a E args :
  (∀ code, outcome (Run a E args) = Exit code →
     code = 1 ∧ ExitOnError (opts a) = true
     ∧ ∃ e, prepare a E args = Failed e
         ∧ trace (Run a E args) = [Fprint (errorWriter a) (Error e +:+ nl)])
  ∧ (ExitOnError (opts a) = false → ∀ e, prepare a E args = Failed e →
       Run a E args = mkResult [] (Return (Some e))).
Proof.
  unfold Run. split.
  - intros code. destruct (prepare a E args) as [lines|lines|e|h parsed|m] eqn:Hprep.
    + done.
    + done.
    + unfold handleError, errorWriter.
      destruct (ExitOnError (opts a)); [|done]. cbn [outcome trace].
      intros [= <-]. split_and!; [done|done|]. by exists e.
    + intros Hex. by apply invoke_outcome in Hex.
    + done.
  - intros Hno e ->. unfold handleError. by rewrite Hno.
Qed.
End RunOutcome.

Section RunOutcomeExamples.
Local Existing Instance testRuntime.





End RunOutcomeExamples.

(** ** What a handler is called with *)

Section TypedCall.
Context `{GoRuntime}.


End TypedCall.

Section TypedCallExamples.
Local Existing Instance testRuntime.

End TypedCallExamples.

(** ** Short options and the end of the option scan *)

Section ShortOptions.
Context `{GoRuntime}.
Implicit Types (st : list (StructField type)) (m : FieldMaps)
  (sv : list value) (x v tok : string) (rest : list string) (i fi : nat).

(** A short option token: it starts with one dash only and has a second
    character. *)
Lemma short_token_shape x :
  HasPrefix x "--" = false → HasPrefix x "-" = true → (2 ≤ len x)%nat →
  ∃ c s, x = String "-" (String c s) ∧ c ≠ "-"%char.
Proof.
  unfold HasPrefix, len.
  destruct x as [|a [|c s]]; cbn [String.prefix String.length]; try done; try lia.
  destruct (Ascii.ascii_dec "-" a) as [<-|]; [|done].
  destruct (Ascii.ascii_dec "-" c) as [<-|Hc].
  - by destruct s.
  - intros _ _ _. eauto.
Qed.

Lemma scan_short st m x rest sv i :
  HasPrefix x "--" = false → HasPrefix x "-" = true → (2 ≤ len x)%nat →
  scanOptions st m (x :: rest) sv i =
    match shortMap m !! x with
    | Some fi =>
      match fieldType st fi with
      | Err e => Err e
      | Panicked msg => Panicked msg
      | Ok ft =>
        if isBoolField ft then
          match setBoolField st sv fi with
          | Err e => Err e
          | Panicked msg => Panicked msg
          | Ok sv' => scanOptions st m rest sv' (i + 1)
          end
        else
          match rest with
          | [] => Err (EMissingValue x)
          | v :: rest' =>
            match parseAndSetField st sv fi v with
            | Err e => Err (EOptionValue x e)
            | Panicked msg => Panicked msg
            | Ok sv' => scanOptions st m rest' sv' (i + 2)
            end
          end
      end
    | None => Err (EUnknownOption x)
    end.
Proof.
  intros Hlong Hshort Hlen. cbn [scanOptions]. rewrite Hlong, Hshort.
  by rewrite (proj2 (Nat.leb_le _ _) Hlen).
Qed.

(** X9.  A token that starts with one dash and has a second character is
    a short option, looked up as it stands in the table of short names.
    It is never split at "=": the token [x=v] is an unknown option unless
    that whole token is a short name, whether or not [x] is one (a long
    option [--name=v] is split, and skipped when unknown).  An unknown
    short option fails the scan.  A known one of a field of kind bool, or
    pointer to bool, goes through [setBoolField]: an exported field of
    type bool or *bool is set to true, and [reflect] panics when the field
    is not exported.  For another field the next token is taken as value,
    and the scan fails with the missing-value error when there is none.  A
    token without leading dash, and the token "-", end the scan: the struct
    stays as it is and the tokens from there on are not looked at. *)
Theorem scan_short_option_cases st m x sv i :
  HasPrefix x "--" = false → HasPrefix x "-" = true → (2 ≤ len x)%nat →
  (shortMap m !! x = None →
     ∀ rest, scanOptions st m (x :: rest) sv i = Err (EUnknownOption x))
  ∧ (∀ v rest, shortMap m !! (x +:+ "=" +:+ v) = None →
       scanOptions st m ((x +:+ "=" +:+ v) :: rest) sv i
       = Err (EUnknownOption (x +:+ "=" +:+ v)))
  ∧ (∀ fi f, shortMap m !! x = Some fi → st !! fi = Some f →
       (isBoolField (FType f) = true →
          (∀ rest, scanOptions st m (x :: rest) sv i =
             match setBoolField st sv fi with
             | Ok sv' => scanOptions st m rest sv' (i + 1)
             | Err e => Err e
             | Panicked msg => Panicked msg
             end)
          ∧ (exported f = true → FType f = TBool ∨ FType f = TPtr TBool →
               ∀ rest, scanOptions st m (x :: rest) sv i
                       = scanOptions st m rest (<[fi := boolValue (FType f) true]> sv)
                           (i + 1))
          ∧ (exported f = false →
               ∀ rest, scanOptions st m (x :: rest) sv i =
                 Panicked
                   (match FType f with
                    | TPtr _ =>
                      "reflect: reflect.Value.Set using value obtained using unexported field"
                    | _ =>
                      "reflect: reflect.Value.SetBool using value obtained using unexported field"
                    end)))
       ∧ (isBoolField (FType f) = false →
            scanOptions st m [x] sv i = Err (EMissingValue x)
            ∧ ∀ v rest, scanOptions st m (x :: v :: rest) sv i =
                match parseAndSetField st sv fi v with
                | Ok sv' => scanOptions st m rest sv' (i + 2)
                | Err e => Err (EOptionValue x e)
                | Panicked msg => Panicked msg
                end))
  ∧ (∀ tok rest, HasPrefix tok "-" = false ∨ tok = "-" →
       scanOptions st m (tok :: rest) sv i = Ok (sv, i)).
Proof.
  intros Hlong Hshort Hlen. split_and!.
  - intros Hnone rest. by rewrite scan_short, Hnone.
  - intros v rest Hnone.
    destruct (short_token_shape x Hlong Hshort Hlen) as (c & s & -> & Hc).
    change (String "-" (String c s) +:+ "=" +:+ v)
      with (String "-" (String c (s +:+ "=" +:+ v))) in *.
    rewrite scan_short, Hnone; [done| | |].
    + unfold HasPrefix. cbn [String.prefix].
      destruct (Ascii.ascii_dec "-" "-"); [|done].
      destruct (Ascii.ascii_dec "-" c) as [<-|]; [by destruct Hc|done].
    + unfold HasPrefix. cbn [String.prefix].
      by destruct (Ascii.ascii_dec "-" "-").
    + unfold len. cbn [String.length]. lia.
  - intros fi f Hfi Hf.
    assert (fieldType st fi = Ok (FType f)) as Hft by (unfold fieldType; by rewrite Hf).
    split.
    + intros Hb.
      assert (∀ rest, scanOptions st m (x :: rest) sv i =
                match setBoolField st sv fi with
                | Ok sv' => scanOptions st m rest sv' (i + 1)
                | Err e => Err e
                | Panicked msg => Panicked msg
                end) as Hscan.
      { intros rest. rewrite scan_short, Hfi, Hft, Hb by done.
        by destruct (setBoolField st sv fi). }
      split_and!; [done| |].
      * intros Hex Hty rest. by rewrite Hscan, (setBoolField_bool st sv fi f).
      * intros Hex rest. by rewrite Hscan, (setBoolField_cases st sv fi f), Hex.
    + intros Hnb. split.
      * by rewrite scan_short, Hfi, Hft, Hnb.
      * intros v rest. rewrite scan_short, Hfi, Hft, Hnb by done.
        by destruct (parseAndSetField st sv fi v).
  - intros tok rest [Hbare| ->]; cbn [scanOptions].
    + assert (HasPrefix tok "--" = false) as ->.
      { unfold HasPrefix in *.
        destruct tok as [|a [|b s]]; cbn [String.prefix] in *; try done;
          by destruct (Ascii.ascii_dec "-" a). }
      by rewrite Hbare.
    + done.
Qed.
End ShortOptions.

Section ShortOptionsExamples.
Local Existing Instance testRuntime.
Local Abbreviation st := CreateTextArgs.
Local Abbreviation m := CreateTextArgs_maps.
Local Abbreviation sv := CreateTextArgs_zero.

Lemma scan_short_option_cases_witness :
  scanOptions st m ["-o=x.txt"] sv 0 = Err (EUnknownOption "-o=x.txt")
  ∧ scanOptions st m ["-o"] sv 0 = Err (EMissingValue "-o")
  ∧ scanOptions st m ["-o"; "x.txt"; "stop"; "--bogus"] sv 0
    = Ok ([VString ""; VString "x.txt"; VBool false], 2%nat).
Proof.
  destruct (scan_short_option_cases st m "-o" sv 0 eq_refl eq_refl (le_n 2))
    as (_ & Hwhole & Hknown & _).
  destruct (Hknown 1%nat _ eq_refl eq_refl) as [_ Hvalue].
  destruct (Hvalue eq_refl) as [Hmissing Hnext].
  split_and!.
  - exact (Hwhole "x.txt" [] eq_refl).
  - exact Hmissing.
  - refine (eq_trans (Hnext "x.txt" ["stop"; "--bogus"]) _). reflexivity.
Defined.
End ShortOptionsExamples.

(** ** The lookup tables of a struct type *)

Section LastWins.
Context {K V T : Type} `{Countable K}.
Variables (declares : StructField type → K → bool) (val : nat → StructField type → V)
  (run : list (StructField type) → T) (step : T → nat → StructField type → T)
  (tbl : T → gmap K V).
Hypothesis run_nil : tbl (run []) = ∅.
Hypothesis run_snoc : ∀ st f, run (st ++ [f]) = step (run st) (length st) f.
Hypothesis step_spec : ∀ s i f k,
  tbl (step s i f) !! k = if declares f k then Some (val i f) else tbl s !! k.

(** A loop over the fields that writes [val i f] under every key the field
    declares leaves, under each key, the value of the last field declaring
    it. *)
Lemma run_last_wins st k x :
  tbl (run st) !! k = Some x ↔
  ∃ fi f, lastDeclaring declares st k fi f ∧ x = val fi f.
Proof.
  revert x. induction st as [|f st IH] using rev_ind; intros x.
  - rewrite run_nil, lookup_empty. split; [done|].
    by intros (fi & f & (Hf & _) & _).
  - rewrite run_snoc, step_spec. destruct (declares f k) eqn:Hd.
    + split.
      * intros [= <-]. exists (length st), f. split; [|done]. split_and!; [|done|].
        -- by apply list_lookup_middle.
        -- intros j f' Hj Hf'. apply lookup_lt_Some in Hf'.
           rewrite length_app in Hf'. cbn in Hf'. lia.
      * intros (fi & f0 & (Hf0 & Hd0 & Hlast) & ->).
        destruct (decide (fi = length st)) as [->|Hne].
        -- rewrite list_lookup_middle in Hf0 by done. by injection Hf0 as <-.
        -- pose proof (lookup_lt_Some _ _ _ Hf0) as Hlt.
           rewrite length_app in Hlt. cbn in Hlt.
           rewrite (Hlast (length st) f) in Hd; [done|lia|by apply list_lookup_middle].
    + rewrite IH. split.
      * intros (fi & f0 & (Hf0 & Hd0 & Hlast) & ->). exists fi, f0. split; [|done].
        pose proof (lookup_lt_Some _ _ _ Hf0) as Hlt.
        split_and!; [by rewrite lookup_app_l|done|].
        intros j f' Hj Hf'. destruct (decide (j < length st)%nat) as [Hjl|Hjl].
        -- rewrite lookup_app_l in Hf' by done. by eapply Hlast.
        -- pose proof (lookup_lt_Some _ _ _ Hf') as Hjlt.
           rewrite length_app in Hjlt. cbn in Hjlt.
           assert (j = length st) as -> by lia.
           rewrite list_lookup_middle in Hf' by done. by injection Hf' as <-.
      * intros (fi & f0 & (Hf0 & Hd0 & Hlast) & ->). exists fi, f0. split; [|done].
        pose proof (lookup_lt_Some _ _ _ Hf0) as Hlt.
        rewrite length_app in Hlt. cbn in Hlt.
        destruct (decide (fi = length st)) as [->|Hne].
        { rewrite list_lookup_middle in Hf0 by done. injection Hf0 as <-. congruence. }
        rewrite lookup_app_l in Hf0 by lia. split_and!; [done..|].
        intros j f' Hj Hf'. apply (Hlast j f' Hj).
        rewrite lookup_app_l; [done|]. by eapply lookup_lt_Some.
Qed.

(** A key that some field declares is in the table. *)
Lemma run_declared st k i f :
  st !! i = Some f → declares f k = true → is_Some (tbl (run st) !! k).
Proof.
  revert i. induction st as [|f0 st IH] using rev_ind; intros i Hf Hd; [done|].
  rewrite run_snoc, step_spec. destruct (declares f0 k) eqn:Hd0; [done|].
  destruct (decide (i < length st)%nat) as [Hlt|Hge].
  - rewrite lookup_app_l in Hf by done. by eapply IH.
  - pose proof (lookup_lt_Some _ _ _ Hf) as Hi. rewrite length_app in Hi. cbn in Hi.
    assert (i = length st) as -> by lia.
    rewrite list_lookup_middle in Hf by done. injection Hf as <-. congruence.
Qed.
End LastWins.

Section FieldTables.
Context `{GoRuntime}.
Implicit Types (st : list (StructField type)) (m : FieldMaps) (f : StructField type).

Lemma buildFieldLoop_snoc st f : ∀ i m,
  buildFieldLoop (st ++ [f]) i m = buildFieldStep (buildFieldLoop st i m) (i + length st) f.
Proof.
  induction st as [|f0 st IH]; intros i m; cbn [app buildFieldLoop length].
  - by rewrite Nat.add_0_r.
  - rewrite IH. f_equal. lia.
Qed.

Lemma buildFieldStep_pos m i f n :
  posFields (buildFieldStep m i f) !! n
  = if declaresPos f n then Some i else posFields m !! n.
Proof.
  unfold buildFieldStep, declaresPos.
  destruct (Lookup (Tag f) "arg") as [v|]; cbn [posFields]; [|done].
  destruct (Atoi v) as [p|]; cbn [posFields]; [|done].
  case_bool_decide as Hp.
  - subst. by rewrite lookup_insert_eq.
  - by rewrite lookup_insert_ne.
Qed.

Lemma buildFieldStep_long m i f k :
  longMap (buildFieldStep m i f) !! k
  = if declaresLong f k then Some i else longMap m !! k.
Proof.
  unfold buildFieldStep, declaresLong.
  destruct (Lookup (Tag f) "long") as [v|]; cbn [longMap].
  - case_bool_decide as Hk.
    + subst. by rewrite lookup_insert_eq.
    + rewrite lookup_insert_ne by done.
      destruct (Lookup (Tag f) "arg") as [a|]; cbn [longMap].
      * by destruct (Atoi a).
      * by rewrite lookup_insert_ne.
  - destruct (Lookup (Tag f) "arg") as [a|]; cbn [longMap].
    + by destruct (Atoi a).
    + case_bool_decide as Hk.
      * subst. by rewrite lookup_insert_eq.
      * by rewrite lookup_insert_ne.
Qed.

Lemma buildFieldStep_short m i f k :
  shortMap (buildFieldStep m i f) !! k
  = if declaresShort f k then Some i else shortMap m !! k.
Proof.
  unfold buildFieldStep, declaresShort.
  destruct (Lookup (Tag f) "short") as [v|]; cbn [shortMap].
  - case_bool_decide as Hk.
    + injection Hk as ->. by rewrite lookup_insert_eq.
    + assert (v ≠ k) by congruence. rewrite lookup_insert_ne by done.
      destruct (Lookup (Tag f) "arg") as [a|]; cbn [shortMap].
      * by destruct (Atoi a).
      * by rewrite lookup_insert_ne.
  - rewrite bool_decide_eq_false_2 by done.
    destruct (Lookup (Tag f) "arg") as [a|]; cbn [shortMap]; [|done].
    by destruct (Atoi a).
Qed.

Lemma buildFieldMaps_snoc st f :
  buildFieldMaps (st ++ [f]) = buildFieldStep (buildFieldMaps st) (length st) f.
Proof. unfold buildFieldMaps. by rewrite buildFieldLoop_snoc. Qed.

(** X10.  The three tables [buildFieldMaps] makes for a struct type.  A
    position, a long name or a short name is a key exactly when some field
    declares it, and it maps to the index of the last field that does: a
    later field takes a key over from an earlier one.  (A field with an
    [arg] tag declares a position when the tag is an integer, and a long
    name only through a [long] tag; a field without [arg] tag declares its
    [long] tag, or else "--" and the kebab-case form of its name.) *)
Theorem buildFieldMaps_last_wins st :
  (∀ n fi, posFields (buildFieldMaps st) !! n = Some fi
           ↔ ∃ f, lastDeclaring declaresPos st n fi f)
  ∧ (∀ k fi, longMap (buildFieldMaps st) !! k = Some fi
             ↔ ∃ f, lastDeclaring declaresLong st k fi f)
  ∧ (∀ k fi, shortMap (buildFieldMaps st) !! k = Some fi
             ↔ ∃ f, lastDeclaring declaresShort st k fi f).
Proof.
  split_and!.
  - intros n fi.
    rewrite (run_last_wins declaresPos (λ i _, i) buildFieldMaps buildFieldStep posFields
               eq_refl buildFieldMaps_snoc buildFieldStep_pos st n fi).
    split.
    + intros (fi' & f & Hl & ->). eauto.
    + intros [f Hl]. eauto.
  - intros k fi.
    rewrite (run_last_wins declaresLong (λ i _, i) buildFieldMaps buildFieldStep longMap
               eq_refl buildFieldMaps_snoc buildFieldStep_long st k fi).
    split.
    + intros (fi' & f & Hl & ->). eauto.
    + intros [f Hl]. eauto.
  - intros k fi.
    rewrite (run_last_wins declaresShort (λ i _, i) buildFieldMaps buildFieldStep shortMap
               eq_refl buildFieldMaps_snoc buildFieldStep_short st k fi).
    split.
    + intros (fi' & f & Hl & ->). eauto.
    + intros [f Hl]. eauto.
Qed.
End FieldTables.

(** ** The help of a command and the struct binder *)

Section HelpPositions.
Context `{GoRuntime}.
Implicit Types (st : list (StructField type)) (f : StructField type).

Lemma collectPositional_struct t st :
  structOf t = Some st →
  collectPositional [t]
  = foldl (λ (acc : gmap Z string * Z) f,
             match Lookup (Tag f) "arg" with
             | Some v =>
               match Atoi v with
               | inl n => (<[n := argName f]> acc.1, if acc.2 <? n then n else acc.2)
               | inr _ => acc
               end
             | None => acc
             end) (∅, -1) st.
Proof.
  intros Hst. unfold collectPositional. cbn [foldl]. rewrite Hst. clear Hst.
  generalize ((∅, -1) : gmap Z string * Z). induction st as [|f st IH]; intros acc; [done|].
  cbn [foldl]. rewrite collect_step. apply IH.
Qed.

(** X11.  For a handler whose parameters are one struct (or a pointer to
    one), the positions the help of the command lists are those of the
    binder: the greatest position [printCommandHelp] finds is the one up
    to which [parseStructArgs] counts, and the help names a position after
    the field the binder fills from it (the [help] tag of the field when
    it is not empty, the words of the field name otherwise); a position
    without field has no name in the help, as it has no field in the
    binder. *)
Theorem help_positions_agree t st :
  structOf t = Some st →
  (collectPositional [t]).2 = maxPosition (posFields (buildFieldMaps st))
  ∧ ∀ n d, (collectPositional [t]).1 !! n = Some d ↔
      ∃ fi f, posFields (buildFieldMaps st) !! n = Some fi
              ∧ st !! fi = Some f ∧ d = argName f.
Proof.
  intros Hst. rewrite (collectPositional_struct t st Hst).
  pose proof (collect_max st) as Hmax. cbn zeta in Hmax.
  set (g := λ (acc : gmap Z string * Z) f, _) in *.
  assert (Hnames : ∀ n d, (foldl g (∅, -1) st).1 !! n = Some d ↔
      ∃ fi f, posFields (buildFieldMaps st) !! n = Some fi
              ∧ st !! fi = Some f ∧ d = argName f).
  { intros n d.
    rewrite (run_last_wins declaresPos (λ _ f, argName f) (foldl g (∅, -1))
               (λ s _ f, g s f) fst eq_refl).
    - split.
      + intros (fi & f & Hl & ->). exists fi, f. split_and!; [|apply Hl|done].
        apply (run_last_wins declaresPos (λ i _, i) buildFieldMaps buildFieldStep posFields
                 eq_refl buildFieldMaps_snoc buildFieldStep_pos). eauto.
      + intros (fi & f & Hfi & Hf & ->).
        apply (run_last_wins declaresPos (λ i _, i) buildFieldMaps buildFieldStep posFields
                 eq_refl buildFieldMaps_snoc buildFieldStep_pos) in Hfi
          as (fi' & f' & Hl & ->).
        exists fi', f'. split; [done|]. destruct Hl as [Hf' _]. congruence.
    - intros st' f. by rewrite foldl_app.
    - intros s i f k. unfold g, declaresPos.
      destruct (Lookup (Tag f) "arg") as [v|]; [|done].
      destruct (Atoi v) as [p|]; [|done]. cbn [fst].
      case_bool_decide as Hp.
      + subst. by rewrite lookup_insert_eq.
      + by rewrite lookup_insert_ne. }
  split; [|exact Hnames].
  destruct Hmax as (H1 & H2 & H3).
  destruct (maxPosition_spec (posFields (buildFieldMaps st))) as (P1 & P2 & P3).
  assert (Hdom : ∀ n, is_Some ((foldl g (∅, -1) st).1 !! n)
                      ↔ is_Some (posFields (buildFieldMaps st) !! n)).
  { intros n. split.
    - intros [d Hd]. apply Hnames in Hd as (fi & _ & Hfi & _). by exists fi.
    - intros [fi Hfi].
      pose proof Hfi as (f & Hl)%(proj1 (run_last_wins declaresPos (λ i _, i) buildFieldMaps
               buildFieldStep posFields eq_refl buildFieldMaps_snoc buildFieldStep_pos
               st n fi)).
      destruct Hl as [f' [Hl ->]].
      exists (argName f'). apply Hnames. exists f, f'. split_and!; [done|apply Hl|done]. }
  assert ((foldl g (∅, -1) st).2 ≤ maxPosition (posFields (buildFieldMaps st))).
  { destruct H3 as [->|Hs]; [done|]. apply P2. by apply Hdom. }
  assert (maxPosition (posFields (buildFieldMaps st)) ≤ (foldl g (∅, -1) st).2).
  { destruct P3 as [->|Hs]; [done|]. apply H2. by apply Hdom. }
  lia.
Qed.
End HelpPositions.

Section HelpPositionsExamples.
Local Existing Instance testRuntime.

Lemma help_positions_agree_witness :
  (collectPositional [TPtr (TStruct "GapArgs" GapArgs)]).2
  = maxPosition (posFields (buildFieldMaps GapArgs)).
Proof.
  exact (proj1 (help_positions_agree (TPtr (TStruct "GapArgs" GapArgs)) GapArgs eq_refl)).
Defined.
End HelpPositionsExamples.

Section HelpOptions.
Context `{GoRuntime}.
Implicit Types (st : list (StructField type)) (f : StructField type) (w : Writer).

Lemma optionLines_struct w t st :
  structOf t = Some st →
  optionLines w [t]
  = flat_map (λ f, match Lookup (Tag f) "arg" with
                   | Some _ => []
                   | None => [optionLine w f]
                   end) st.
Proof.
  intros Hst. unfold optionLines. cbn [flat_map]. rewrite Hst, app_nil_r. clear Hst.
  induction st as [|f st IH]; [done|]. cbn [flat_map]. rewrite IH. f_equal.
  destruct (Lookup (Tag f) "arg"); [done|].
  unfold optionLine, helpShortName, helpLongName. cbn zeta.
  by destruct (decide (default "" (Lookup (Tag f) "short") = "")).
Qed.

(** X12.  The help of a command and the option scan agree on the names of
    the options of a struct parameter.  For every field without [arg] tag
    the help has the line of the field; the long name in this line is a
    key of the table of long names, unless the field has an empty [long]
    tag (then the help shows the kebab-case name, and the table has the
    empty name instead); a short name in the line is a key of the table of
    short names.  The key belongs to a field that declares this name: this
    field, or a later one declaring the same name. *)
Theorem help_options_known w t st i f :
  structOf t = Some st → st !! i = Some f → Lookup (Tag f) "arg" = None →
  optionLine w f ∈ optionLines w [t]
  ∧ (Lookup (Tag f) "long" ≠ Some "" →
       ∃ fi f', longMap (buildFieldMaps st) !! helpLongName f = Some fi
                ∧ (i ≤ fi)%nat ∧ st !! fi = Some f'
                ∧ declaresLong f' (helpLongName f) = true)
  ∧ (Lookup (Tag f) "long" = Some "" →
       is_Some (longMap (buildFieldMaps st) !! ""))
  ∧ (helpShortName f ≠ "" →
       ∃ fi f', shortMap (buildFieldMaps st) !! helpShortName f = Some fi
                ∧ (i ≤ fi)%nat ∧ st !! fi = Some f'
                ∧ declaresShort f' (helpShortName f) = true).
Proof.
  intros Hst Hf Harg.
  assert (Hlast : ∀ {K} `{Countable K} (declares : StructField type → K → bool)
            (tbl : FieldMaps → gmap K nat) (k : K),
            (∀ m j f0 k0, tbl (buildFieldStep m j f0) !! k0
                          = if declares f0 k0 then Some j else tbl m !! k0) →
            tbl (mkMaps ∅ ∅ ∅) = ∅ →
            declares f k = true →
            ∃ fi f', tbl (buildFieldMaps st) !! k = Some fi
                     ∧ (i ≤ fi)%nat ∧ st !! fi = Some f' ∧ declares f' k = true).
  { intros K ?? declares tbl k Hstep Hnil Hd.
    destruct (run_declared declares (λ j _, j) buildFieldMaps buildFieldStep tbl
                buildFieldMaps_snoc Hstep st k i f Hf Hd) as [fi Hfi].
    pose proof Hfi as (fi' & f' & (Hf' & Hd' & Hafter) & ->)%(proj1 (run_last_wins declares
                (λ j _, j) buildFieldMaps buildFieldStep tbl Hnil buildFieldMaps_snoc
                Hstep st k fi)).
    exists fi', f'. split_and!; try done.
    destruct (decide (i ≤ fi')%nat) as [|Hgt]; [done|].
    rewrite (Hafter i f) in Hd; [done|lia|done]. }
  split_and!.
  - rewrite (optionLines_struct w t st Hst). apply list_elem_of_In, in_flat_map.
    exists f. split; [by eapply list_elem_of_In, list_elem_of_lookup_2|].
    rewrite Harg. by left.
  - intros Hne. apply (Hlast _ _ _ declaresLong longMap); [apply buildFieldStep_long|done|].
    unfold declaresLong, helpLongName. rewrite Harg.
    destruct (Lookup (Tag f) "long") as [v|]; [|by apply bool_decide_eq_true].
    destruct (decide (v = "")) as [->|]; [done|]. by apply bool_decide_eq_true.
  - intros Hempty.
    destruct (Hlast _ _ _ declaresLong longMap "" buildFieldStep_long eq_refl)
      as (fi & _ & Hfi & _); [|by exists fi].
    unfold declaresLong. rewrite Hempty. by apply bool_decide_eq_true.
  - intros Hne.
    apply (Hlast _ _ _ declaresShort shortMap); [apply buildFieldStep_short|done|].
    unfold declaresShort, helpShortName in *. apply bool_decide_eq_true.
    by destruct (Lookup (Tag f) "short").
Qed.
End HelpOptions.

Section HelpOptionsExamples.
Local Existing Instance testRuntime.

Lemma help_options_known_witness :
  Fprint Stdout ("  -o|--out <string>    " +:+ nl)
    ∈ optionLines Stdout [TStruct "CreateTextArgs" CreateTextArgs]
  ∧ is_Some (longMap (buildFieldMaps CreateTextArgs) !! "--out")
  ∧ is_Some (shortMap (buildFieldMaps CreateTextArgs) !! "-o").
Proof.
  destruct (help_options_known Stdout (TStruct "CreateTextArgs" CreateTextArgs)
              CreateTextArgs 1 (mkField "Output" TString [("long", "--out"); ("short", "-o")])
              eq_refl eq_refl eq_refl) as (Hline & Hlong & _ & Hshort).
  split_and!.
  - exact Hline.
  - destruct Hlong as (fi & _ & Hfi & _); [done|]. by exists fi.
  - destruct Hshort as (fi & _ & Hfi & _); [done|]. by exists fi.
Defined.
End HelpOptionsExamples.

(** ** The global help *)

Section GlobalHelp.
Context `{GoRuntime}.
Implicit Types (a : App) (E : Env).

Lemma len_spaces n : len (spaces n) = n.
Proof. unfold len. induction n as [|n IH]; cbn; [done|]. by rewrite IH. Qed.

(** X13.  The global help, whatever the order of the two iterations over
    the command map: after the usage header and "Commands:" it has one
    line for every registered command and no other, then an empty line and
    the common options.  The width the names are padded to is the greatest
    length in bytes of a registered name (0 without commands); a name whose
    length in bytes is its number of runes is padded to exactly this
    width, so that the help texts of such names start in one column.  This
    is for a width of at most 1000000: [fmt] refuses a greater one, and
    writes [%!(BADWIDTH)] followed by the name without padding. *)
Theorem printHelp_commands a E :
  ∃ (M : nat) (lines : list event),
    printHelp a E
    = (match root a with
       | None => [ Fprintln (Log (opts a)) "Usage: [options...]";
                   Fprintln (Log (opts a)) "" ]
       | Some _ => [ Fprintln (Log (opts a)) "Usage:";
                     Fprintln (Log (opts a)) "  command <args...> [options...]";
                     Fprintln (Log (opts a)) "" ]
       end)
      ++ [ Fprintln (Log (opts a)) "Commands:" ]
      ++ lines
      ++ [ Fprintln (Log (opts a)) "" ]
      ++ printCommonOptions a
    ∧ lines ≡ₚ map (commandLine (Log (opts a)) M) (map_to_list (cmds a))
    ∧ (∀ name h, cmds a !! name = Some h → (len name ≤ M)%nat)
    ∧ (M = 0%nat ∨ ∃ name h, cmds a !! name = Some h ∧ len name = M)
    ∧ (∀ name, Z.of_nat M ≤ 1000000 → RuneCountInString name = len name →
         (len name ≤ M)%nat → len (fmt_pad M name) = M)
    ∧ (∀ name, 1000000 < Z.of_nat M → fmt_pad M name = "%!(BADWIDTH)" +:+ name).
Proof.
  pose proof (width_loop (range_cmds E 1 a) 0%nat) as Hw. cbn zeta in Hw.
  set (M := foldl _ 0%nat (range_cmds E 1 a)) in Hw. destruct Hw as (_ & Hub & Hatt).
  exists M, (map (commandLine (Log (opts a)) M) (range_cmds E 2 a)). split_and!.
  - done.
  - unfold range_cmds. by rewrite shuffle_Permutation.
  - intros name h Hc. apply (Hub (name, h)). by apply range_cmds_elem.
  - destruct Hatt as [?|([name h] & Hin & Hlen)]; [by left|].
    right. exists name, h. split; [by apply range_cmds_elem in Hin|done].
  - intros name HM Hrunes Hle. unfold fmt_pad.
    rewrite (proj2 (Z.ltb_ge _ _) HM), len_app, len_spaces, Hrunes. lia.
  - intros name HM. unfold fmt_pad. by rewrite (proj2 (Z.ltb_lt _ _) HM).
Qed.
End GlobalHelp.

(** ** Names: [toWords] and [toKebab] *)

Section Names.
Context `{GoRuntime}.

Lemma append_assoc (s1 s2 s3 : string) : (s1 +:+ s2) +:+ s3 = s1 +:+ s2 +:+ s3.
Proof.
  induction s1 as [|c s1 IH]; [done|].
  change (String c (s1 +:+ s2) +:+ s3 = String c (s1 +:+ s2 +:+ s3)).
  change (String c ((s1 +:+ s2) +:+ s3) = String c (s1 +:+ s2 +:+ s3)).
  by rewrite IH.
Qed.

Lemma concat_head (sep x y : string) (l : list string) :
  String.concat sep ((x +:+ y) :: l) = x +:+ String.concat sep (y :: l).
Proof. destruct l; cbn [String.concat]; [done|]. by rewrite append_assoc. Qed.

(** A rune that [range] yields was decoded from at least one byte. *)
Lemma DecodeRuneInString_width c rest :
  (1 ≤ (DecodeRuneInString (String c rest)).2)%nat.
Proof. unfold DecodeRuneInString. repeat case_match; cbn [snd]; lia. Qed.

Lemma range_runes_go_bytes s : ∀ skip,
  Forall (λ rb : Z * string, (1 ≤ len rb.2)%nat) (range_runes_go skip s).
Proof.
  induction s as [|c rest IH]; intros skip; cbn [range_runes_go]; [constructor|].
  destruct skip as [|k]; [|apply IH].
  pose proof (DecodeRuneInString_width c rest) as Hw.
  destruct (DecodeRuneInString (String c rest)) as [r w]. cbn [snd] in Hw.
  constructor; [|apply IH]. destruct w as [|w]; [lia|].
  unfold slice_to, len. cbn. lia.
Qed.

(** The loop of [toWords] and [toKebab] cuts the runes into pieces: a new
    piece begins at every upper-case rune that is not at offset 0. *)
Lemma splitUpper_pieces (rs : list (Z * string)) : ∀ i,
  Forall (λ rb : Z * string, (1 ≤ len rb.2)%nat) rs →
  ∃ g0 gs,
    rs = g0 ++ mjoin gs
    ∧ (∀ sep, splitUpper sep i rs
              = String.concat (String sep "") (map lowerRunes (g0 :: gs)))
    ∧ (if (0 <? i)%nat then noUpper g0 else noUpper (tail g0))
    ∧ Forall (λ g, ∃ rb rest, g = rb :: rest ∧ IsUpper rb.1 = true ∧ noUpper rest) gs
    ∧ length gs = length (filter (λ rb : Z * string, IsUpper rb.1 = true)
                            (if (0 <? i)%nat then rs else tail rs)).
Proof.
  induction rs as [|[r b] rs IH]; intros i Hb.
  - exists [], []. split_and!; try done; destruct (0 <? i)%nat; by constructor.
  - apply Forall_cons in Hb as [Hb Hrs]. cbn [snd] in Hb.
    destruct (IH (i + len b)%nat Hrs) as (g0 & gs & Hrs' & Heq & Hg0 & Hgs & Hlen).
    assert ((0 <? i + len b)%nat = true) as Hpos by (apply Nat.ltb_lt; lia).
    rewrite Hpos in Hlen. rewrite Hpos in Hg0.
    cbn [splitUpper]. destruct (IsUpper r) eqn:Hup.
    + destruct (0 <? i)%nat eqn:Hi.
      * exists [], (((r, b) :: g0) :: gs). split_and!.
        -- cbn [app mjoin]. by rewrite Hrs'.
        -- intros sep. rewrite Heq. cbn [map lowerRunes foldr fst]. rewrite Hup.
           fold (lowerRunes g0).
           change (String.concat (String sep "")
                     ("" :: (EncodeRune (ToLower r) +:+ lowerRunes g0) :: map lowerRunes gs))
             with (String sep "" +:+ String.concat (String sep "")
                     ((EncodeRune (ToLower r) +:+ lowerRunes g0) :: map lowerRunes gs)).
           by rewrite concat_head, append_assoc.
        -- constructor.
        -- constructor; [|done]. by exists (r, b), g0.
        -- rewrite filter_cons_True by done. cbn [length]. by rewrite Hlen.
      * exists ((r, b) :: g0), gs. split_and!.
        -- cbn [app]. by rewrite Hrs'.
        -- intros sep. rewrite Heq. cbn [map lowerRunes foldr fst]. rewrite Hup.
           fold (lowerRunes g0). by rewrite concat_head.
        -- done.
        -- done.
        -- done.
    + exists ((r, b) :: g0), gs. split_and!.
      * cbn [app]. by rewrite Hrs'.
      * intros sep. rewrite Heq. cbn [map lowerRunes foldr fst]. rewrite Hup.
        fold (lowerRunes g0). by rewrite concat_head.
      * destruct (0 <? i)%nat; [|done]. by constructor.
      * done.
      * destruct (0 <? i)%nat; [|done].
        rewrite filter_cons_False; [done|]. cbn [fst]. by rewrite Hup.
Qed.

(** X14.  [toWords] and [toKebab] cut the runes of a name into the same
    pieces and differ only in what they put between them, a space or a
    dash.  The pieces are the runs of runes between the upper-case runes
    after the first rune: joined, they are the runes of the name; every
    piece but the first begins with an upper-case rune and has no other,
    and the first has none after its first rune; so there is one more piece
    than upper-case runes after the first rune of the name.  Each piece is
    written rune by rune, its upper-case rune in lower case. *)
Theorem toWords_toKebab_pieces (s : string) :
  ∃ (first : list (Z * string)) (others : list (list (Z * string))),
    range_runes s = first ++ mjoin others
    ∧ noUpper (tail first)
    ∧ Forall (λ g, ∃ rb rest, g = rb :: rest ∧ IsUpper rb.1 = true ∧ noUpper rest) others
    ∧ toWords s = String.concat " " (map lowerRunes (first :: others))
    ∧ toKebab s = String.concat "-" (map lowerRunes (first :: others))
    ∧ length (first :: others)
      = S (length (filter (λ rb : Z * string, IsUpper rb.1 = true)
                     (tail (range_runes s)))).
Proof.
  destruct (splitUpper_pieces (range_runes s) 0 (range_runes_go_bytes s 0))
    as (g0 & gs & Hrs & Heq & Hg0 & Hgs & Hlen).
  exists g0, gs. unfold toWords, toKebab. rewrite !Heq. split_and!; [done..|].
  cbn [length]. by rewrite Hlen.
Qed.
End Names.

(** ** Options: order, repetition, and the fields they reach *)

Section OptionEffects.
Context `{GoRuntime}.
Implicit Types (st : list (StructField type)) (m : FieldMaps)
  (sv : list value) (name v tok : string) (rest toks : list string) (i fi : nat).

(** A successful [parseAndSetField] writes one field, with a value that
    does not depend on the struct it writes to. *)
Lemma parseAndSetField_write st sv fi tok sv' :
  parseAndSetField st sv fi tok = Ok sv' →
  ∃ x, sv' = <[fi := x]> sv ∧ ∀ sv0, parseAndSetField st sv0 fi tok = Ok (<[fi := x]> sv0).
Proof.
  destruct (st !! fi) as [f|] eqn:Hf.
  2:{ unfold parseAndSetField, fieldType. by rewrite Hf. }
  rewrite (parseAndSetField_cases st sv fi tok f Hf). intros Hp.
  setoid_rewrite (parseAndSetField_cases st _ fi tok f Hf).
  destruct (FType f) as [| | | | |e|n st'|n|n b]; lazy beta iota zeta in Hp |- *;
    match type of Hp with
    | context [parseValue tok ?t] =>
      destruct (parseValue tok t) as [x| |]; [|done..]
    end; destruct (exported f); cbn [negb defined] in *; try done;
    try (injection Hp as <-; by eauto).
  - destruct (defined e); [done|]. injection Hp as <-. by eauto.
  - by destruct (defined e).
Qed.


(** X15.  Options given as [name=value], for long names of the table: two
    of them for different fields can be given in either order, and of two
    for the same field the second one counts, as if the first had not been
    given (each value parsing for its field). *)
Theorem scan_options_order st m n1 v1 n2 v2 rest sv i fi fj sv1 sv2 :
  HasPrefix n1 "--" = true → Index n1 "=" = None →
  HasPrefix n2 "--" = true → Index n2 "=" = None →
  longMap m !! n1 = Some fi → longMap m !! n2 = Some fj →
  parseAndSetField st sv fi v1 = Ok sv1 → parseAndSetField st sv fj v2 = Ok sv2 →
  (fi ≠ fj →
     scanOptions st m ((n1 +:+ "=" +:+ v1) :: (n2 +:+ "=" +:+ v2) :: rest) sv i
     = scanOptions st m ((n2 +:+ "=" +:+ v2) :: (n1 +:+ "=" +:+ v1) :: rest) sv i)
  ∧ (fi = fj →
     scanOptions st m ((n1 +:+ "=" +:+ v1) :: (n2 +:+ "=" +:+ v2) :: rest) sv i
     = scanOptions st m ((n2 +:+ "=" +:+ v2) :: rest) sv (i + 1)).
Proof.
  intros Hp1 Hi1 Hp2 Hi2 Hfi Hfj Hset1 Hset2.
  destruct (parseAndSetField_write _ _ _ _ _ Hset1) as (x1 & -> & Hany1).
  destruct (parseAndSetField_write _ _ _ _ _ Hset2) as (x2 & -> & Hany2).
  rewrite !scan_long_with_value, Hfi, Hfj, Hset1, Hset2 by done.
  rewrite !scan_long_with_value, ?Hfi, ?Hfj, !Hany1, !Hany2 by done.
  split.
  - intros Hne. by rewrite list_insert_insert_ne.
  - intros <-. by rewrite list_insert_insert_eq.
Qed.



End OptionEffects.

Section OptionEffectsExamples.
Local Existing Instance testRuntime.
Local Abbreviation st := CreateTextArgs.
Local Abbreviation m := CreateTextArgs_maps.
Local Abbreviation sv := CreateTextArgs_zero.

Lemma scan_options_order_witness :
  scanOptions st m ["--out=a"; "--usemarkdown=true"] sv 0
  = scanOptions st m ["--usemarkdown=true"; "--out=a"] sv 0
  ∧ scanOptions st m ["--out=a"; "--out=b"] sv 0
    = scanOptions st m ["--out=b"] sv 1.
Proof.
  split.
  - exact (proj1 (scan_options_order st m "--out" "a" "--usemarkdown" "true" [] sv 0 1 2
                    _ _ eq_refl eq_refl eq_refl eq_refl eq_refl eq_refl eq_refl eq_refl)
                 ltac:(lia)).
  - exact (proj2 (scan_options_order st m "--out" "a" "--out" "b" [] sv 0 1 1
                    _ _ eq_refl eq_refl eq_refl eq_refl eq_refl eq_refl eq_refl eq_refl)
                 eq_refl).
Defined.

End OptionEffectsExamples.

(** ** When a help text is shown *)

Section HelpCases.
Context `{GoRuntime}.
Implicit Types (a : App) (E : Env) (h : handler).

(** X17.  A run shows a help text in two cases only.  It shows the help
    of the root handler (the global help without one) when there is no
    argument or the first is a help word.  It shows the help of a
    registered command, under its registered name, when the command is the
    one matched and the token after its name is "-h" or "--help".  So the
    help of the root handler is never printed through the per-command
    branch, under the name "(root)" that the matching gives it: this
    branch is reached with a command of the map only. *)
Theorem Run_help_cases a E args lines :
  prepare a E args = ShowHelp lines →
  (lines = rootHelp a E
   ∧ ∃ toks, effectiveArgs E args = Some toks
             ∧ (toks = [] ∨ ∃ first, head toks = Some first ∧ isHelpWord first = true))
  ∨ (∃ toks name h,
       effectiveArgs E args = Some toks
       ∧ cmds a !! name = Some h
       ∧ isCandidate toks name = true
       ∧ asksHelp (drop (length (Fields name)) toks) = true
       ∧ lines = printCommandHelp a E name h).
Proof.
  unfold prepare.
  destruct (effectiveArgs E args) as [[|first toks]|] eqn:Heff; [| |done].
  { intros ->%showRootHelp_ShowHelp. left. split; [done|]. exists []. eauto. }
  destruct (isHelpWord first) eqn:Hword.
  { intros ->%showRootHelp_ShowHelp. left. split; [done|].
    exists (first :: toks). split; [done|]. right. by exists first. }
  destruct (resolve a E first (first :: toks)) as [best| |] eqn:Hres; [|done..].
  destruct (asksHelp _) eqn:Hhelp; [|by destruct (bindArgs _ _ _)].
  intros ->%commandHelp_ShowHelp. right. unfold resolve in Hres.
  destruct (matching_loop_cmds a E (first :: toks)) as [[Hz Hno]|[Hpos Hbest]];
    set (best0 := foldl _ _ _) in *.
  - rewrite Hz in Hres. cbn [Nat.eqb] in Hres.
    destruct (root a) as [r|]; [|done]. injection Hres as <-.
    cbn [bestLen drop asksHelp] in Hhelp.
    unfold isHelpWord in Hword. unfold isHelpFlag in Hhelp.
    apply orb_false_iff in Hword as [Hword _]. congruence.
  - rewrite (proj2 (Nat.eqb_neq _ _)) in Hres by lia. injection Hres as <-.
    destruct Hbest as (Hcmd & Hcand & Hlen & _).
    exists (first :: toks), (bestName best0), (bestHandler best0).
    split_and!; try done. by rewrite <- Hlen.
Qed.
End HelpCases.

Section HelpCasesExamples.
Local Existing Instance testRuntime.

Lemma Run_help_cases_witness :
  (printCommandHelp echoApp testEnv "echo" (handlerOf echo "") = rootHelp echoApp testEnv
   ∧ ∃ toks, effectiveArgs testEnv (Some ["echo"; "--help"]) = Some toks
             ∧ (toks = [] ∨ ∃ first, head toks = Some first ∧ isHelpWord first = true))
  ∨ (∃ toks name h,
       effectiveArgs testEnv (Some ["echo"; "--help"]) = Some toks
       ∧ cmds echoApp !! name = Some h
       ∧ isCandidate toks name = true
       ∧ asksHelp (drop (length (Fields name)) toks) = true
       ∧ printCommandHelp echoApp testEnv "echo" (handlerOf echo "")
         = printCommandHelp echoApp testEnv name h).
Proof.
  exact (Run_help_cases echoApp testEnv (Some ["echo"; "--help"])
           (printCommandHelp echoApp testEnv "echo" (handlerOf echo "")) eq_refl).
Defined.
End HelpCasesExamples.

(** ** The comparison of a registered name with the arguments *)

Section Candidates.

Lemma tokensMatch_prefix (tokens : list string) : ∀ args,
  tokensMatch tokens args = true ↔ ∃ rest, args = tokens ++ rest.
Proof.
  induction tokens as [|tok tokens IH]; intros args; cbn [tokensMatch].
  - split; [|done]. intros _. by exists args.
  - destruct args as [|arg args].
    + split; [done|]. by intros [rest Hrest].
    + destruct (decide (arg = tok)) as [->|Hne].
      * rewrite IH. split.
        -- intros [rest ->]. by exists rest.
        -- intros [rest [= ->]]. by exists rest.
      * split; [done|]. intros [rest [= -> _]]. done.
Qed.

(** X18.  The inner loop of the matching compares the tokens of a
    registered name with the arguments at the same indices: a registered
    name is a candidate exactly when it has a token and its tokens, as
    [strings.Fields] splits the name, are the first arguments, in this
    order.  One round of the matching takes a candidate as the best match
    when it is longer than the best so far, and otherwise keeps the
    best. *)
Theorem isCandidate_prefix `{GoRuntime} (args : list string) (name : string) :
  (isCandidate args name = true ↔ Fields name ≠ [] ∧ ∃ rest, args = Fields name ++ rest)
  ∧ ∀ best h,
      matchStep args best (name, h)
      = if isCandidate args name && (bestLen best <? length (Fields name))%nat
        then mkBest name h (length (Fields name)) else best.
Proof.
  split.
  - unfold isCandidate. rewrite !andb_true_iff, negb_true_iff, tokensMatch_prefix. split.
    + intros [[Hne _] Hrest]. split; [|done].
      intros Hnil. by rewrite Hnil in Hne.
    + intros [Hne [rest ->]]. split_and!.
      * by destruct (Fields name).
      * apply Nat.leb_le. rewrite length_app. lia.
      * by exists rest.
  - intros best h. unfold matchStep, isCandidate.
    destruct (length (Fields name) =? 0)%nat; [done|]. cbn [negb andb].
    destruct (Nat.ltb_spec (length args) (length (Fields name))) as [Hlt|Hge].
    + by rewrite (proj2 (Nat.leb_gt _ _) Hlt).
    + by rewrite (proj2 (Nat.leb_le _ _) Hge).
Qed.
End Candidates.

(** ** A run, end to end *)

Section Dispatch.
Context `{GoRuntime}.
Implicit Types (a : App) (E : Env) (h : handler).

(** X19.  The three stages of a run compose.  When the arguments are the
    tokens of a registered name followed by [raw], no other registered
    candidate has as many tokens as the name, the first token is not a
    help word and [raw] does not begin with a help flag, the run binds
    [raw] to the parameters of the handler of this name and calls it; an
    error of the binding goes to [handleError] and the handler is not
    called.  This holds for every order of iteration of the command
    map. *)
Theorem Run_dispatch a E name h raw :
  cmds a !! name = Some h → Fields name ≠ [] →
  (∀ n' h', cmds a !! n' = Some h' → isCandidate (Fields name ++ raw) n' = true →
     n' ≠ name → (length (Fields n') < length (Fields name))%nat) →
  (∀ first, head (Fields name ++ raw) = Some first → isHelpWord first = false) →
  asksHelp raw = false →
  Run a E (Some (Fields name ++ raw))
  = match bindArgs name h raw with
    | Ok parsed => invoke h parsed
    | Err e => handleError a (Some e)
    | Panicked msg => mkResult [] (Panic msg)
    end.
Proof.
  intros Hcmd Hne Hlongest Hword Hhelp.
  assert (Hcand : isCandidate (Fields name ++ raw) name = true).
  { unfold isCandidate. rewrite !andb_true_iff, negb_true_iff. split_and!.
    - by destruct (Fields name).
    - apply Nat.leb_le. rewrite length_app. lia.
    - apply tokensMatch_prefix. by exists raw. }
  unfold Run, prepare. cbn [effectiveArgs].
  destruct (Fields name ++ raw) as [|first toks] eqn:Hargs.
  { by destruct (Fields name). }
  rewrite (Hword first eq_refl). unfold resolve.
  destruct (matching_loop_cmds a E (first :: toks)) as [[Hz Hno]|[Hpos Hbest]];
    set (best0 := foldl _ _ _) in *.
  { by rewrite (Hno name h Hcmd) in Hcand. }
  rewrite (proj2 (Nat.eqb_neq _ _)) by lia.
  destruct Hbest as (Hbcmd & Hbcand & Hblen & Hbmax).
  assert (bestName best0 = name) as Hname.
  { destruct (decide (bestName best0 = name)) as [|Hdiff]; [done|].
    pose proof (Hlongest _ _ Hbcmd Hbcand Hdiff) as Hlt.
    pose proof (Hbmax name h Hcmd Hcand) as Hle. lia. }
  rewrite Hname in *. rewrite Hcmd in Hbcmd. injection Hbcmd as <-.
  rewrite Hblen, <- Hargs, drop_app_length, Hhelp.
  by destruct (bindArgs name h raw).
Qed.
End Dispatch.

Section DispatchExamples.
Local Existing Instance testRuntime.

Lemma Run_dispatch_witness :
  Run pathsApp testEnv (Some ["a"; "b"; "x"])
  = match bindArgs "a b" (handlerOf (say "AB") "") ["x"] with
    | Ok parsed => invoke (handlerOf (say "AB") "") parsed
    | Err e => handleError pathsApp (Some e)
    | Panicked msg => mkResult [] (Panic msg)
    end.
Proof.
  apply (Run_dispatch pathsApp testEnv "a b" (handlerOf (say "AB") "") ["x"]).
  - by vm_compute.
  - done.
  - intros n' h' Hn Hcand Hdiff. apply pathsApp_names in Hn as [-> | [-> | ->]].
    + rewrite Fields_a, Fields_a_b. cbn [length]. lia.
    + done.
    + done.
  - by intros first [= <-].
  - done.
Defined.
End DispatchExamples.

(** ** The struct binder without arguments to bind *)

Section NoArguments.
Context `{GoRuntime}.
Implicit Types (st : list (StructField type)) (sv : list value) (raw ps : list string).

Lemma scan_bare_token st m tok rest sv i :
  HasPrefix tok "-" = false ∨ tok = "-" →
  scanOptions st m (tok :: rest) sv i = Ok (sv, i).
Proof.
  intros [Hbare| ->]; cbn [scanOptions]; [|done].
  assert (HasPrefix tok "--" = false) as ->.
  { unfold HasPrefix in *.
    destruct tok as [|a [|b s]]; cbn [String.prefix] in *; try done;
      by destruct (Ascii.ascii_dec "-" a). }
  by rewrite Hbare.
Qed.

(** X20.  The struct binder when there is nothing for it to bind.  For a
    struct type without a position of index 0 or more, an empty argument
    list, and also any list that begins with a token without leading dash
    (or with "-"), gives the zero value of the struct and the count 0:
    every field keeps its zero value and the arguments, options after the
    first token included, are ignored.  For a struct type with such a
    position, the empty list fails with the not-enough-positional error
    for the least such position. *)
Theorem parseStructArgs_nothing_to_bind name st :
  ((∀ p, 0 ≤ p → posFields (buildFieldMaps st) !! p = None) →
     ∀ raw, (raw = [] ∨ ∃ tok rest, raw = tok :: rest
                          ∧ (HasPrefix tok "-" = false ∨ tok = "-")) →
       parseStructArgs raw (TStruct name st) = Ok (zero (TStruct name st), 0%nat))
  ∧ (∀ p, 0 ≤ p → is_Some (posFields (buildFieldMaps st) !! p) →
       (∀ q, 0 ≤ q < p → posFields (buildFieldMaps st) !! q = None) →
       parseStructArgs [] (TStruct name st) = Err (ENotEnoughPositional p)
       ∧ errClass (ENotEnoughPositional p) = InsufficientArgs).
Proof.
  split.
  - intros Hnone raw Hraw. unfold parseStructArgs. cbn [zero].
    set (pos := posFields (buildFieldMaps st)). fold pos in Hnone.
    assert (scanOptions st (buildFieldMaps st) (drop 0 raw) (map (λ f, zero (FType f)) st) 0
            = Ok (map (λ f, zero (FType f)) st, 0%nat)) as Hscan.
    { destruct Hraw as [->|(tok & rest & -> & Hbare)]; [done|]. by apply scan_bare_token. }
    destruct (0 <? size pos)%nat; [|by rewrite Hscan].
    assert (maxPosition pos = -1) as ->.
    { destruct (maxPosition_spec pos) as (Hge & _ & [?|Hsome]); [done|].
      destruct (decide (maxPosition pos = -1)) as [?|Hne]; [done|].
      rewrite Hnone in Hsome by lia. by destruct Hsome. }
    pose proof maxInt_pos as Hmax.
    rewrite (proj2 (Z.eqb_neq _ _)) by lia.
    rewrite positionalLoop_gaps; [by rewrite Hscan|]. by constructor.
  - intros p Hp Hsome Hleast. split; [|done]. unfold parseStructArgs.
    set (pos := posFields (buildFieldMaps st)) in *.
    rewrite (size_pos_nonempty _ _ Hsome).
    destruct (maxPosition_spec pos) as (_ & Hmax & _). specialize (Hmax p Hsome).
    replace (maxPosition pos + 1) with (p + (1 + (maxPosition pos - p))) by lia.
    rewrite seqZ_app by lia. rewrite (seqZ_cons (0 + p)) by lia.
    rewrite <- app_assoc. cbn [app].
    rewrite positionalLoop_short; [done| |done|cbn; lia].
    apply Forall_seqZ. intros q Hq. apply Hleast. lia.
Qed.
End NoArguments.

